(** * dlg4vtmb: dialogue graph model, layout engines, mutation commands, storage

    A shallow embedding of the Python sources [model.py], [layout.py],
    [io_dlg.py], [json_conv.py] and the graph-mutation part of
    [mainwindow.py], followed by the properties of the specification.

    Conventions of the embedding.
    - Python [int] is [Z]; [Optional[int]] is [option Z]; [str] is [string].
    - A Python [set] of indices is a [gset Z]; a [dict] that the code only
      looks up is a [gmap]; a [dict] whose iteration order the code observes
      ([.items()], [.keys()]) is an insertion-ordered association list.
    - Row objects are mutable and shared by reference.  A function that
      mutates the rows it receives returns the updated row list next to its
      result (explicit state passing).
    - [while] loops run on fuel; every loop comes with a lemma giving fuel
      that suffices.  A raised exception is a value of [result].
    - Coordinates are Python floats holding integers and half-integers; they
      are modelled exactly as rationals [Q]. *)

From Stdlib Require Import ZArith QArith Qabs Qminmax Lia Lqa.
From Stdlib Require Import Ascii String.
From stdpp Require Import gmap list sorting.

Local Open Scope Z_scope.
Set Warnings "-clear-no-such-hyp".

(** ** Exceptions and partial results *)

(** The Python exceptions the modelled code can raise.  [NotModelled] is
    not one of them: it marks dynamically typed input (a JSON number where
    the code expects text, say) that the typed rows cannot hold. *)
Inductive exn :=
  KeyError | ValueError | StopIteration | AttributeError | UnicodeDecodeError
| NotModelled.

Inductive result (A : Type) : Type :=
| Ok (a : A)
| Raise (e : exn)
| OutOfFuel.
Arguments Ok {A} a.
Arguments Raise {A} e.
Arguments OutOfFuel {A}.

#[global] Instance result_ret : MRet result := λ A a, Ok a.
#[global] Instance result_bind : MBind result := λ A B k m,
  match m with
  | Ok a => k a
  | Raise e => Raise e
  | OutOfFuel => OutOfFuel
  end.

(** [for x in xs: st = body(st, x)] where the body may raise. *)
Fixpoint for_each {A S} (body : S → A → result S) (st : S) (xs : list A) : result S :=
  match xs with
  | [] => Ok st
  | x :: xs => st' ← body st x; for_each body st' xs
  end.

(** ** model.py *)

Record DlgRow := mkDlgRow {
  index : Z;
  male : string;
  female : string;
  next : option Z;
  condition : string;
  action : string;
  unknown01 : string;
  unknown02 : string;
  unknown03 : string;
  unknown04 : string;
  unknown05 : string;
  unknown06 : string;
  malkavian : string;
  parent_npc : option Z
}.

Definition is_pc_reply (r : DlgRow) : bool :=
  match next r with Some _ => true | None => false end.

(** [r.parent_npc = p] *)
Definition set_parent_npc (r : DlgRow) (p : option Z) : DlgRow :=
  mkDlgRow (index r) (male r) (female r) (next r) (condition r) (action r)
    (unknown01 r) (unknown02 r) (unknown03 r) (unknown04 r) (unknown05 r)
    (unknown06 r) (malkavian r) p.

(** [r.index = i] *)
Definition set_index (r : DlgRow) (i : Z) : DlgRow :=
  mkDlgRow i (male r) (female r) (next r) (condition r) (action r)
    (unknown01 r) (unknown02 r) (unknown03 r) (unknown04 r) (unknown05 r)
    (unknown06 r) (malkavian r) (parent_npc r).

(** [r.next = n] *)
Definition set_next (r : DlgRow) (n : option Z) : DlgRow :=
  mkDlgRow (index r) (male r) (female r) n (condition r) (action r)
    (unknown01 r) (unknown02 r) (unknown03 r) (unknown04 r) (unknown05 r)
    (unknown06 r) (malkavian r) (parent_npc r).

#[global] Instance DlgRow_eq_dec : EqDecision DlgRow.
Proof. solve_decision. Defined.

(** ** Python containers *)

(** [{r.index: r for r in rows}]: a later row replaces an earlier one with
    the same index.  The values are the row objects themselves. *)
Definition nodes_map_of (rows : list DlgRow) : gmap Z DlgRow :=
  foldl (λ m r, <[index r := r]> m) ∅ rows.

(** Insertion-ordered dictionary with integer keys. *)
Section odict.
Context {V : Type}.

Fixpoint od_get (d : list (Z * V)) (k : Z) : option V :=
  match d with
  | [] => None
  | (k', v) :: d => if bool_decide (k' = k) then Some v else od_get d k
  end.

(** [d[k] = v]: an existing key keeps its place, a new key goes last. *)
Fixpoint od_set (d : list (Z * V)) (k : Z) (v : V) : list (Z * V) :=
  match d with
  | [] => [(k, v)]
  | (k', v') :: d =>
      if bool_decide (k' = k) then (k, v) :: d else (k', v') :: od_set d k v
  end.

(** [del d[k]] for a key that may be absent. *)
Definition od_del (d : list (Z * V)) (k : Z) : list (Z * V) :=
  filter (λ e, e.1 ≠ k) d.

Definition od_keys (d : list (Z * V)) : list Z := d.*1.

Definition od_mem (d : list (Z * V)) (k : Z) : bool :=
  bool_decide (is_Some (od_get d k)).
End odict.

(** [collections.defaultdict(list)]: [d[k].append(x)]. *)
Definition dd_append (d : list (Z * list Z)) (k : Z) (x : Z) : list (Z * list Z) :=
  od_set d k (default [] (od_get d k) ++ [x]).

(** [d.get(k, [])] *)
Definition dd_get (d : list (Z * list Z)) (k : Z) : list Z :=
  default [] (od_get d k).

(** Stable ascending sort by key, as [list.sort(key=...)] and [sorted]. *)
Section sort_by.
Context {A K : Type} (leb : K → K → bool) (key : A → K).

Fixpoint insert_by (x : A) (l : list A) : list A :=
  match l with
  | [] => [x]
  | y :: l' => if leb (key x) (key y) then x :: y :: l' else y :: insert_by x l'
  end.

Definition sort_by (l : list A) : list A := foldr insert_by [] l.
End sort_by.

Definition sorted_keys {V} (d : list (Z * V)) : list Z :=
  sort_by Z.leb id (od_keys d).

(** [l.index(x)] for an [x] known to be in [l] (position of the first
    occurrence); [enumerate]. *)
Fixpoint list_index (l : list Z) (x : Z) : Z :=
  match l with
  | [] => 0
  | y :: l => if bool_decide (y = x) then 0 else 1 + list_index l x
  end.

Definition enumerate {A} (l : list A) : list (Z * A) :=
  imap (λ i x, (Z.of_nat i, x)) l.

(** ** layout.py *)

Definition NODE_W_BASE : Z := 300.
Definition NODE_H_BASE : Z := 90.
Definition H_GAP_BASE : Z := 60.
Definition V_GAP_BASE : Z := 110.
Definition BARYCENTER_ITERATIONS : nat := 5.

(** [_ensure_parents]: the rows are updated in place; the updated list is
    returned. *)
Fixpoint ensure_parents_loop (current_npc : option Z) (rows : list DlgRow)
  : list DlgRow :=
  match rows with
  | [] => []
  | r :: rows =>
      if negb (is_pc_reply r) then
        r :: ensure_parents_loop (Some (index r)) rows
      else
        (match parent_npc r with
         | None => set_parent_npc r current_npc
         | Some _ => r
         end) :: ensure_parents_loop current_npc rows
  end.

Definition _ensure_parents (rows : list DlgRow) : list DlgRow :=
  ensure_parents_loop None rows.

(** [[x.index for x in rows if x.parent_npc == idx]] *)
Definition children_of (rows : list DlgRow) (idx : Z) : list Z :=
  index <$> filter (λ x, parent_npc x = Some idx) rows.

(** [if ch not in visited: visited.add(ch); dq.append(ch)] *)
Definition visit_new (st : gset Z * list Z) (ch : Z) : gset Z * list Z :=
  if bool_decide (ch ∈ st.1) then st else ({[ch]} ∪ st.1, st.2 ++ [ch]).

(** The [while dq] loop of [_build_components]. *)
Fixpoint components_bfs (fuel : nat) (rows : list DlgRow) (nodes_map : gmap Z DlgRow)
    (dq : list Z) (visited comp : gset Z) : result (gset Z * gset Z) :=
  match fuel with
  | O => OutOfFuel
  | S fuel =>
      match dq with
      | [] => Ok (visited, comp)
      | idx :: dq =>
          let comp := {[idx]} ∪ comp in
          match nodes_map !! idx with
          | None => Raise KeyError
          | Some node =>
              let st := foldl visit_new (visited, dq) (children_of rows idx) in
              let st :=
                match next node with
                | Some n =>
                    if bool_decide (n ∈ dom nodes_map) then visit_new st n else st
                | None => st
                end in
              components_bfs fuel rows nodes_map st.2 st.1 comp
          end
      end
  end.

(** Fuel for one traversal: every index enters the queue at most once. *)
Definition bfs_fuel (rows : list DlgRow) : nat := 2 * length rows + 2.

(** The body of [for r in rows] in [_build_components]. *)
Definition components_step (rows : list DlgRow) (nodes_map : gmap Z DlgRow)
    (st : gset Z * list (gset Z)) (r : DlgRow) : result (gset Z * list (gset Z)) :=
  let '(visited, components) := st in
  if bool_decide (index r ∈ visited) then Ok st
  else
    '(visited, comp) ← components_bfs (bfs_fuel rows) rows nodes_map
                          [index r] ({[index r]} ∪ visited) ∅;
    Ok (visited, components ++ [comp]).

(** [_build_components(rows)]: returns the rows as [_ensure_parents] left
    them, and the components.  [nodes_map] is built before
    [_ensure_parents] runs but holds the same row objects, so it is taken
    over the updated rows. *)
Definition _build_components (rows : list DlgRow)
  : result (list DlgRow * list (gset Z)) :=
  let rows := _ensure_parents rows in
  let nodes_map := nodes_map_of rows in
  '(_, components) ← for_each (components_step rows nodes_map) (∅, []) rows;
  Ok (rows, components).

(** *** Layered layout: [calculate_layout] *)

Definition point : Type := Q * Q.

(** [q.append((child_idx, level + 1))] for each child *)
Definition with_level (level : Z) (l : list Z) : list (Z * Z) :=
  (λ c, (c, level)) <$> l.

(** Step 1, the [while q] loop. *)
Fixpoint layering_loop (fuel : nat) (rows : list DlgRow) (nodes_map : gmap Z DlgRow)
    (q : list (Z * Z)) (layers : list (Z * list Z)) (node_to_layer : list (Z * Z))
  : result (list (Z * list Z) * list (Z * Z)) :=
  match fuel with
  | O => OutOfFuel
  | S fuel =>
      match q with
      | [] => Ok (layers, node_to_layer)
      | (node_idx, level) :: q =>
          if od_mem node_to_layer node_idx then
            layering_loop fuel rows nodes_map q layers node_to_layer
          else
            let node_to_layer := od_set node_to_layer node_idx level in
            let layers := dd_append layers level node_idx in
            match nodes_map !! node_idx with
            | None => Raise KeyError
            | Some node =>
                let q :=
                  if negb (is_pc_reply node) then
                    q ++ with_level (level + 1) (children_of rows node_idx)
                  else
                    match next node with
                    | Some n =>
                        if bool_decide (n ≠ 0) && bool_decide (n ∈ dom nodes_map)
                        then q ++ [(n, level + 1)] else q
                    | None => q
                    end in
                layering_loop fuel rows nodes_map q layers node_to_layer
            end
      end
  end.

Definition layering_fuel (rows : list DlgRow) : nat :=
  (length rows + 1) * (length rows + 1) + 1.

(** [[(r.index, 0) for r in rows if r.parent_npc is None and not r.is_pc_reply()]] *)
Definition layering_seeds (rows : list DlgRow) : list (Z * Z) :=
  (λ r, (index r, 0)) <$>
    filter (λ r, parent_npc r = None ∧ is_pc_reply r = false) rows.

(** Step 1 as a whole, on rows already passed through [_ensure_parents]. *)
Definition layering (rows : list DlgRow)
  : result (list (Z * list Z) * list (Z * Z)) :=
  layering_loop (layering_fuel rows) rows (nodes_map_of rows)
    (layering_seeds rows) [] [].

(** [sum(pos) / len(pos) if pos else 0] over the positions of the
    neighbours found in the previous layer. *)
Definition barycenter_from (prev neighbors : list Z) : Q :=
  let pos := list_index prev <$> filter (λ n, n ∈ prev) neighbors in
  match pos with
  | [] => 0%Q
  | _ => (inject_Z (foldr Z.add 0%Z pos) / inject_Z (Z.of_nat (length pos)))%Q
  end.

Definition layered_neighbors (rows : list DlgRow) (node : DlgRow) (node_idx : Z)
  : list Z :=
  match is_pc_reply node, parent_npc node with
  | true, Some p => [p]
  | _, _ => index <$> filter (λ r, next r = Some node_idx) rows
  end.

Definition layered_barycenter (rows : list DlgRow) (layers : list (Z * list Z))
    (level : Z) (node : DlgRow) (node_idx : Z) : Q :=
  match layered_neighbors rows node node_idx with
  | [] => 0%Q
  | neighbors => barycenter_from (dd_get layers (level - 1)) neighbors
  end.

(** [barycenters = {}; for node_idx in layers[level]: barycenters[node_idx] = ...].
    [bary] is the per-node computation, which differs between the two
    layouts. *)
Definition fill_barycenters (bary : list (Z * list Z) → Z → DlgRow → Z → Q)
    (nodes_map : gmap Z DlgRow) (layers : list (Z * list Z)) (level : Z)
  : result (gmap Z Q) :=
  for_each (λ (b : gmap Z Q) node_idx,
      match nodes_map !! node_idx with
      | None => Raise KeyError
      | Some node => Ok (<[node_idx := bary layers level node node_idx]> b)
      end) ∅ (dd_get layers level).

(** One level of the ordering step: fill the dictionary, then
    [layers[level].sort(key=lambda i: barycenters.get(i, 0))]. *)
Definition order_level (bary : list (Z * list Z) → Z → DlgRow → Z → Q)
    (nodes_map : gmap Z DlgRow) (layers : list (Z * list Z)) (level : Z)
  : result (list (Z * list Z)) :=
  barycenters ← fill_barycenters bary nodes_map layers level;
  Ok (od_set layers level
        (sort_by Qle_bool (λ i : Z, default 0%Q (barycenters !! i))
           (dd_get layers level))).

(** [for _ in range(BARYCENTER_ITERATIONS): for level in sorted(layers.keys())] *)
Definition order_layers (bary : list (Z * list Z) → Z → DlgRow → Z → Q)
    (nodes_map : gmap Z DlgRow) (layers : list (Z * list Z))
  : result (list (Z * list Z)) :=
  for_each (λ layers (_ : nat),
      for_each (order_level bary nodes_map) layers (sorted_keys layers))
    layers (seq 0 BARYCENTER_ITERATIONS).

(** [for node_idx, lvl in node_to_layer.items(): if node_idx in comp: ...] *)
Definition comp_layers_of (comp : gset Z) (node_to_layer : list (Z * Z))
  : Z * list (Z * list Z) :=
  foldl (λ (st : Z * list (Z * list Z)) (e : Z * Z),
      if bool_decide (e.1 ∈ comp)
      then (Z.min st.1 e.2, dd_append st.2 e.2 e.1) else st)
    (10 ^ 9, []) node_to_layer.

(** [for i, idx in enumerate(ordered): positions[idx] = (start + i * step, y)] *)
Definition place_row (step : Z) (start other : Q) (swap : bool)
    (positions : gmap Z point) (ordered : list Z) : gmap Z point :=
  foldl (λ (positions : gmap Z point) (e : Z * Z),
      let s := (start + inject_Z (e.1 * step))%Q in
      <[e.2 := if swap then (other, s) else (s, other)]> positions)
    positions (enumerate ordered).

(** Step 3, the body of [for level in sorted(comp_layers.keys())]. *)
Definition layered_place_level (node_w node_h h_gap v_gap : Z)
    (layers comp_layers : list (Z * list Z)) (min_level component_offset_x : Z)
    (st : gmap Z point * Z) (level : Z) : gmap Z point * Z :=
  let '(positions, max_width) := st in
  let ordered := filter (λ n, n ∈ dd_get comp_layers level) (dd_get layers level) in
  let y := inject_Z ((level - min_level) * (node_h + v_gap)) in
  let layer_width := Z.of_nat (length ordered) * (node_w + h_gap) in
  let max_width := Z.max max_width layer_width in
  let start_x := (inject_Z component_offset_x - inject_Z layer_width / 2)%Q in
  (place_row (node_w + h_gap) start_x y false positions ordered, max_width).

(** Step 3, the body of [for comp in components]. *)
Definition layered_place_comp (node_w node_h h_gap v_gap : Z)
    (layers : list (Z * list Z)) (node_to_layer : list (Z * Z))
    (st : gmap Z point * Z) (comp : gset Z) : gmap Z point * Z :=
  let '(positions, component_offset_x) := st in
  if bool_decide (comp = ∅) then st
  else
    let '(min_level, comp_layers) := comp_layers_of comp node_to_layer in
    let '(positions, max_width) :=
      foldl (layered_place_level node_w node_h h_gap v_gap layers comp_layers
               min_level component_offset_x)
        (positions, 0) (sorted_keys comp_layers) in
    (positions, component_offset_x + (max_width + h_gap * 4)).

(** [calculate_layout(rows, node_w=, node_h=, h_gap=, v_gap=)]: the rows as
    left by [_ensure_parents], and the position map. *)
Definition calculate_layout (rows : list DlgRow) (node_w node_h h_gap v_gap : Z)
  : result (list DlgRow * gmap Z point) :=
  match rows with
  | [] => Ok (rows, ∅)
  | _ =>
      let rows := _ensure_parents rows in
      let nodes_map := nodes_map_of rows in
      '(rows, components) ← _build_components rows;
      '(layers, node_to_layer) ← layering rows;
      layers ← order_layers (layered_barycenter rows) nodes_map layers;
      let '(positions, _) :=
        foldl (layered_place_comp node_w node_h h_gap v_gap layers node_to_layer)
          (∅, 0) components in
      Ok (rows, positions)
  end.

(** *** Forest layout: [calculate_tree_layout] *)

(** [incoming_to_npc], and the roots with their fallback. *)
Definition incoming_to_npc (rows : list DlgRow) : list (Z * Z) :=
  let d := foldl (λ (d : list (Z * Z)) r,
               if negb (is_pc_reply r) then od_set d (index r) 0 else d) [] rows in
  foldl (λ (d : list (Z * Z)) r,
      match next r with
      | Some n =>
          match od_get d n with
          | Some cnt => od_set d n (cnt + 1)
          | None => d
          end
      | None => d
      end) d rows.

Definition tree_roots (rows : list DlgRow) : list Z :=
  let roots := (filter (λ e : Z * Z, e.2 = 0) (incoming_to_npc rows)).*1 in
  match roots with
  | [] =>
      match filter (λ r, is_pc_reply r = false) rows with
      | r :: _ => [index r]
      | [] => []
      end
  | _ => roots
  end.

(** [if ch not in visited: visited.add(ch); dq.append((ch, lvl + 1))] *)
Definition visit_new_at (lvl : Z) (st : gset Z * list (Z * Z)) (ch : Z)
  : gset Z * list (Z * Z) :=
  if bool_decide (ch ∈ st.1) then st else ({[ch]} ∪ st.1, st.2 ++ [(ch, lvl)]).

(** The [while dq] loop of [_bfs_layers]. *)
Fixpoint bfs_layers_loop (fuel : nat) (rows : list DlgRow) (nodes_map : gmap Z DlgRow)
    (dq : list (Z * Z)) (visited comp_nodes : gset Z) (layers : list (Z * list Z))
  : result (gset Z * gset Z * list (Z * list Z)) :=
  match fuel with
  | O => OutOfFuel
  | S fuel =>
      match dq with
      | [] => Ok (visited, comp_nodes, layers)
      | (idx, lvl) :: dq =>
          let comp_nodes := {[idx]} ∪ comp_nodes in
          let layers := dd_append layers lvl idx in
          match nodes_map !! idx with
          | None => Raise KeyError
          | Some node =>
              let st :=
                if negb (is_pc_reply node) then
                  foldl (visit_new_at (lvl + 1)) (visited, dq) (children_of rows idx)
                else
                  match next node with
                  | Some n =>
                      if bool_decide (n ∈ dom nodes_map)
                      then visit_new_at (lvl + 1) (visited, dq) n else (visited, dq)
                  | None => (visited, dq)
                  end in
              bfs_layers_loop fuel rows nodes_map st.2 st.1 comp_nodes layers
          end
      end
  end.

(** The traversal state of step 2: [visited], [components], [layers_by_comp]. *)
Definition forest : Type := gset Z * list (list Z) * list (list (Z * list Z)).

(** [_bfs_layers(root_idx)] followed by the two [append]s. *)
Definition _bfs_layers (rows : list DlgRow) (nodes_map : gmap Z DlgRow)
    (st : forest) (root_idx : Z) : result forest :=
  let '(visited, components, layers_by_comp) := st in
  '(visited, comp_nodes, layers) ←
     bfs_layers_loop (bfs_fuel rows) rows nodes_map [(root_idx, 0)]
       ({[root_idx]} ∪ visited) ∅ [];
  Ok (visited, components ++ [elements comp_nodes], layers_by_comp ++ [layers]).

Definition bfs_if_unvisited (rows : list DlgRow) (nodes_map : gmap Z DlgRow)
    (st : forest) (idx : Z) : result forest :=
  if bool_decide (idx ∈ st.1.1) then Ok st else _bfs_layers rows nodes_map st idx.

(** Step 2: the roots first, then every row not yet visited. *)
Definition tree_components (rows : list DlgRow) : result forest :=
  let nodes_map := nodes_map_of rows in
  st ← for_each (bfs_if_unvisited rows nodes_map) (∅, [], []) (tree_roots rows);
  for_each (bfs_if_unvisited rows nodes_map) st (index <$> rows).

Definition tree_neighbors (rows : list DlgRow) (node : DlgRow) (idx : Z) : list Z :=
  if is_pc_reply node then
    match parent_npc node with
    | Some p => [p]
    | None => []
    end
  else index <$> filter (λ x, is_pc_reply x = true ∧ next x = Some idx) rows.

Definition tree_barycenter (rows : list DlgRow) (layers : list (Z * list Z))
    (lvl : Z) (node : DlgRow) (idx : Z) : Q :=
  barycenter_from (dd_get layers (lvl - 1)) (tree_neighbors rows node idx).

(** [max(...)] and [min(...)] of a sequence that starts with [x]. *)
Definition max_from (x : Z) (l : list Z) : Z := foldl Z.max x l.
Definition min_from (x : Z) (l : list Z) : Z := foldl Z.min x l.

(** [min(layers.keys()) if layers else 0] *)
Definition min_level_of (layers : list (Z * list Z)) : Z :=
  match od_keys layers with
  | [] => 0
  | k :: ks => min_from k ks
  end.

(** One entry of [comp_infos]: [(comp_idx, layers, comp_w, comp_h)]. *)
Record comp_info := mkCompInfo {
  ci_idx : Z;
  ci_layers : list (Z * list Z);
  ci_w : Z;
  ci_h : Z
}.

Definition comp_info_of (node_w node_h h_gap v_gap : Z) (comp_idx : Z)
    (layers : list (Z * list Z)) : comp_info :=
  match layers with
  | [] => mkCompInfo comp_idx layers (node_w + h_gap) (node_h + v_gap)
  | (k, l) :: rest =>
      let max_nodes_per_layer :=
        max_from (Z.of_nat (length l)) ((λ e, Z.of_nat (length e.2)) <$> rest) in
      let num_layers := max_from k rest.*1 - min_from k rest.*1 + 1 in
      mkCompInfo comp_idx layers
        (max_nodes_per_layer * (node_w + h_gap)) (num_layers * (node_h + v_gap))
  end.

(** [max(1, int(round(ncomps ** 0.5)))].  The square root of an integer is
    never half-way between two integers, so rounding it goes to
    [floor(sqrt n)] when [n <= floor(sqrt n)^2 + floor(sqrt n)] and one
    above otherwise. *)
Definition grid_cols (ncomps : Z) : Z :=
  let s := Z.sqrt ncomps in
  Z.max 1 (if bool_decide (ncomps - s * s ≤ s) then s else s + 1).

(** The body of [for lvl in sorted(layers.keys())] in step 4. *)
Definition tree_place_level (orientation : string) (node_w node_h h_gap v_gap : Z)
    (layers : list (Z * list Z)) (comp_w min_lvl : Z)
    (cur_secondary row_primary_offset : Q)
    (positions : gmap Z point) (lvl : Z) : gmap Z point :=
  let indices := dd_get layers lvl in
  let secondary_span := Z.of_nat (length indices) * (node_w + h_gap) in
  let start_secondary :=
    (cur_secondary + (inject_Z (comp_w - secondary_span)) / 2)%Q in
  let primary :=
    (row_primary_offset + inject_Z ((lvl - min_lvl) * (node_h + v_gap)))%Q in
  place_row (node_w + h_gap) start_secondary primary
    (negb (String.eqb orientation "vertical"%string)) positions indices.

(** The body of [for comp_idx, layers, comp_w, _comp_h in row]. *)
Definition tree_place_comp (orientation : string) (node_w node_h h_gap v_gap : Z)
    (row_primary_offset : Q)
    (st : gmap Z point * Q) (ci : comp_info) : gmap Z point * Q :=
  let '(positions, cur_secondary) := st in
  let min_lvl := min_level_of (ci_layers ci) in
  let positions :=
    foldl (tree_place_level orientation node_w node_h h_gap v_gap (ci_layers ci)
             (ci_w ci) min_lvl cur_secondary row_primary_offset)
      positions (sorted_keys (ci_layers ci)) in
  (positions, (cur_secondary + inject_Z (ci_w ci + h_gap * 4))%Q).

(** The [while i < ncomps] loop; [rest] is [comp_infos[i:]]. *)
Fixpoint tree_place_rows (fuel : nat) (orientation : string)
    (node_w node_h h_gap v_gap : Z) (cols : Z) (rest : list comp_info)
    (positions : gmap Z point) (row_primary_offset : Q) : result (gmap Z point) :=
  match fuel with
  | O => OutOfFuel
  | S fuel =>
      match rest with
      | [] => Ok positions
      | _ =>
          let row := take (Z.to_nat cols) rest in
          let row_height :=
            match ci_h <$> row with
            | [] => node_h + v_gap
            | h :: hs => max_from h hs
            end in
          let '(positions, _) :=
            foldl (tree_place_comp orientation node_w node_h h_gap v_gap
                     row_primary_offset) (positions, 0%Q) row in
          tree_place_rows fuel orientation node_w node_h h_gap v_gap cols
            (drop (Z.to_nat cols) rest) positions
            (row_primary_offset + inject_Z (row_height + v_gap * 3))%Q
      end
  end.

(** The local [_ensure_parents] of [calculate_tree_layout]: for a reply
    without parent it builds the list [candidates] and ends in [pass]; it
    assigns to no row. *)
Definition tree_ensure_parents (rows : list DlgRow) : list DlgRow :=
  foldl (λ (rows' : list DlgRow) (r : DlgRow),
      if is_pc_reply r && bool_decide (parent_npc r = None) then
        let candidates :=
          index <$> filter (λ n, is_pc_reply n = false ∧
              Exists (λ x, parent_npc x = Some (index n))
                (filter (λ x, is_pc_reply x = true) rows)) rows in
        rows'
      else rows') rows rows.

(** [calculate_tree_layout(rows, orientation=, node_w=, node_h=, h_gap=,
    v_gap=)]: the rows as the call leaves them, and the positions. *)
Definition calculate_tree_layout (rows : list DlgRow) (orientation : string)
    (node_w node_h h_gap v_gap : Z) : result (list DlgRow * gmap Z point) :=
  match rows with
  | [] => Ok (rows, ∅)
  | _ =>
      let nodes_map := nodes_map_of rows in
      let rows := tree_ensure_parents rows in
      '(_, components, layers_by_comp) ← tree_components rows;
      layers_by_comp ← for_each (λ acc layers,
          layers ← order_layers (tree_barycenter rows) nodes_map layers;
          Ok (acc ++ [layers])) [] layers_by_comp;
      let comp_infos :=
        imap (λ i layers, comp_info_of node_w node_h h_gap v_gap (Z.of_nat i) layers)
          (take (length components) layers_by_comp) in
      let ncomps := Z.of_nat (length comp_infos) in
      positions ← tree_place_rows (S (length comp_infos)) orientation node_w node_h
        h_gap v_gap (grid_cols ncomps) comp_infos ∅ 0%Q;
      Ok (rows, positions)
  end.

(** ** Python strings

    A [str] is modelled by a [string] whose characters are the code points
    below 256. *)

(** [c.isspace()], which is also what [\s] matches. *)
Definition is_space (c : ascii) : bool :=
  let n := nat_of_ascii c in
  ((9 <=? n) && (n <=? 13) || (28 <=? n) && (n <=? 32)
   || (n =? 133) || (n =? 160))%nat.

Fixpoint lstrip (s : string) : string :=
  match s with
  | String c s' => if is_space c then lstrip s' else s
  | EmptyString => EmptyString
  end.

Fixpoint rstrip (s : string) : string :=
  match s with
  | String c s' =>
      match rstrip s' with
      | EmptyString => if is_space c then EmptyString else String c EmptyString
      | r => String c r
      end
  | EmptyString => EmptyString
  end.

(** [s.strip()] *)
Definition str_strip (s : string) : string := rstrip (lstrip s).

(** [s.replace(a, b)] for one-character [a] and [b]. *)
Fixpoint str_replace (a b : ascii) (s : string) : string :=
  match s with
  | String c s' => String (if Ascii.eqb c a then b else c) (str_replace a b s')
  | EmptyString => EmptyString
  end.

(** [c in s] *)
Fixpoint str_contains (c : ascii) (s : string) : bool :=
  match s with
  | String c' s' => Ascii.eqb c' c || str_contains c s'
  | EmptyString => false
  end.

(** [''.join(l)] *)
Definition str_join (l : list string) : string :=
  foldr String.append ""%string l.

(** The decimal numeral of an [int]. *)
Definition digit_char (d : Z) : ascii := ascii_of_nat (48 + Z.to_nat d).

Fixpoint digits_of (fuel : nat) (n : Z) : string :=
  match fuel with
  | O => ""%string
  | S fuel =>
      if n <? 10 then String (digit_char n) ""
      else (digits_of fuel (n / 10) ++ String (digit_char (n mod 10)) "")%string
  end.

Definition decimal_of_int (n : Z) : string :=
  if n <? 0 then String "-" (digits_of (S (Z.to_nat (Z.log2 (- n)))) (- n))
  else digits_of (S (Z.to_nat (Z.log2 n))) n.

Definition is_digit (c : ascii) : bool :=
  let n := nat_of_ascii c in ((48 <=? n) && (n <=? 57))%nat.

Fixpoint str_count (p : ascii → bool) (s : string) : nat :=
  match s with
  | String c s' => ((if p c then 1 else 0) + str_count p s')%nat
  | EmptyString => 0%nat
  end.

(** [sys.get_int_max_str_digits()], as Python 3.11 sets it. *)
Definition int_max_str_digits : nat := 4300.

(** [str(n)] for an [int]: a numeral of more than [int_max_str_digits]
    digits is refused with [ValueError]. *)
Definition str_of_int (n : Z) : result string :=
  let s := decimal_of_int n in
  if (int_max_str_digits <? str_count is_digit s)%nat then Raise ValueError
  else Ok s.

(** The white space [int] accepts around a numeral: the six characters of
    the C locale and, of the code points from 128 on, the two that are
    Unicode white space.  The separators 28 to 31, which [strip] removes,
    are not among them. *)
Definition is_int_space (c : ascii) : bool :=
  let n := nat_of_ascii c in
  ((9 <=? n) && (n <=? 13) || (n =? 32) || (n =? 133) || (n =? 160))%nat.

Fixpoint int_lstrip (s : string) : string :=
  match s with
  | String c s' => if is_int_space c then int_lstrip s' else s
  | EmptyString => EmptyString
  end.

Fixpoint int_rstrip (s : string) : string :=
  match s with
  | String c s' =>
      match int_rstrip s' with
      | EmptyString => if is_int_space c then EmptyString else String c EmptyString
      | r => String c r
      end
  | EmptyString => EmptyString
  end.

(** [int(s)]: surrounding white space, an optional sign, decimal digits with
    single underscores between them, at most [int_max_str_digits] digits.
    [None] stands for [ValueError]. *)

Definition digit_val (c : ascii) : Z := Z.of_nat (nat_of_ascii c) - 48.

Fixpoint parse_digits (s : string) (acc : Z) (prev_digit : bool) : option Z :=
  match s with
  | EmptyString => if prev_digit then Some acc else None
  | String c s' =>
      if is_digit c then parse_digits s' (10 * acc + digit_val c) true
      else if Ascii.eqb c "_" then
        if prev_digit then parse_digits s' acc false else None
      else None
  end.

Definition int_of_str (s : string) : option Z :=
  let t := int_rstrip (int_lstrip s) in
  if (int_max_str_digits <? str_count is_digit t)%nat then None
  else
    match t with
    | String "-" r => Z.opp <$> parse_digits r 0 false
    | String "+" r => parse_digits r 0 false
    | t => parse_digits t 0 false
    end.

(** ** model.py, continued: [is_empty_separator] *)

Definition text_fields (r : DlgRow) : list string :=
  [male r; female r; condition r; action r; unknown01 r; unknown02 r;
   unknown03 r; unknown04 r; unknown05 r; unknown06 r; malkavian r].

Definition is_blank (s : string) : bool :=
  match str_strip s with EmptyString => true | _ => false end.

Definition is_empty_separator (r : DlgRow) : bool :=
  if is_pc_reply r then false
  else if negb (forallb is_blank
             [unknown01 r; unknown02 r; unknown03 r; unknown04 r; unknown05 r;
              unknown06 r; malkavian r]) then false
  else if negb (forallb is_blank [male r; female r; condition r; action r])
  then false
  else true.

(** ** io_dlg.py

    The file is modelled by its bytes.  A text is a string of code points
    below 256, so a file that decodes to a text with a code point from 256
    on is outside the model: decoding it gives [NotModelled].  Line ends are
    written as they are (no translation to another line separator). *)

Definition newline : ascii := ascii_of_nat 10.
Definition carriage_return : ascii := ascii_of_nat 13.

(** The codecs the application uses: the five of [COMMON_ENCODINGS], in
    which [read_dlg] returns its result, and ["utf-8"], which the window
    sets after a JSON import. *)
Inductive encoding := Utf8Sig | Cp1251 | Utf16LE | Utf16BE | Latin1 | Utf8.

Definition COMMON_ENCODINGS : list encoding :=
  [Utf8Sig; Cp1251; Utf16LE; Utf16BE; Latin1].

(** *** Encoding a text *)

Definition utf8_char (c : ascii) : list ascii :=
  let n := nat_of_ascii c in
  if (n <? 128)%nat then [c]
  else [ascii_of_nat (192 + n / 64); ascii_of_nat (128 + n mod 64)].

(** The bytes from 128 on that cp1251 maps to a code point below 256; each
    of them stands for the code point of its own value. *)
Definition cp1251_same (n : nat) : bool :=
  bool_decide (n ∈ [160; 164; 166; 167; 169; 171; 172; 173; 174; 176; 177;
                    181; 182; 183; 187]%nat).

(** [text.encode(encoding)]; [None] stands for [UnicodeEncodeError]. *)
Fixpoint encode (enc : encoding) (text : string) : option (list ascii) :=
  match text with
  | EmptyString => Some []
  | String c text =>
      let n := nat_of_ascii c in
      b ← match enc with
          | Utf8Sig | Utf8 => Some (utf8_char c)
          | Cp1251 => if (n <? 128)%nat || cp1251_same n then Some [c] else None
          | Utf16LE => Some [c; zero]
          | Utf16BE => Some [zero; c]
          | Latin1 => Some [c]
          end;
      rest ← encode enc text;
      Some (b ++ rest)
  end.

(** What a text file object writes before the first text: the signature of
    ["utf-8-sig"]. *)
Definition bom_utf8 : list ascii :=
  [ascii_of_nat 239; ascii_of_nat 187; ascii_of_nat 191].

Definition signature (enc : encoding) : list ascii :=
  match enc with Utf8Sig => bom_utf8 | _ => [] end.

(** *** Decoding the bytes of a file *)

Definition is_cont (c : ascii) : bool :=
  let n := nat_of_ascii c in ((128 <=? n) && (n <=? 191))%nat.

Definition between (lo hi : nat) (c : ascii) : bool :=
  let n := nat_of_ascii c in ((lo <=? n) && (n <=? hi))%nat.

(** A well-formed sequence for a code point from 256 on: the rest is still
    checked, an error in it comes first. *)
Definition wide (rest : result string) : result string :=
  _ ← rest; Raise NotModelled.

(** Strict UTF-8. *)
Fixpoint utf8_decode (b : list ascii) : result string :=
  match b with
  | [] => Ok ""%string
  | c :: rest =>
      let n := nat_of_ascii c in
      if (n <? 128)%nat then s ← utf8_decode rest; Ok (String c s)
      else if between 194 223 c then
        match rest with
        | c1 :: rest =>
            if is_cont c1 then
              let cp := ((n - 192) * 64 + (nat_of_ascii c1 - 128))%nat in
              if (cp <? 256)%nat
              then s ← utf8_decode rest; Ok (String (ascii_of_nat cp) s)
              else wide (utf8_decode rest)
            else Raise UnicodeDecodeError
        | _ => Raise UnicodeDecodeError
        end
      else if between 224 239 c then
        match rest with
        | c1 :: c2 :: rest =>
            if (if (n =? 224)%nat then between 160 191 c1
                else if (n =? 237)%nat then between 128 159 c1
                else is_cont c1) && is_cont c2
            then wide (utf8_decode rest)
            else Raise UnicodeDecodeError
        | _ => Raise UnicodeDecodeError
        end
      else if between 240 244 c then
        match rest with
        | c1 :: c2 :: c3 :: rest =>
            if (if (n =? 240)%nat then between 144 191 c1
                else if (n =? 244)%nat then between 128 143 c1
                else is_cont c1) && is_cont c2 && is_cont c3
            then wide (utf8_decode rest)
            else Raise UnicodeDecodeError
        | _ => Raise UnicodeDecodeError
        end
      else Raise UnicodeDecodeError
  end.

Fixpoint cp1251_decode (b : list ascii) : result string :=
  match b with
  | [] => Ok ""%string
  | c :: rest =>
      let n := nat_of_ascii c in
      if (n <? 128)%nat || cp1251_same n
      then s ← cp1251_decode rest; Ok (String c s)
      else if (n =? 152)%nat then Raise UnicodeDecodeError
      else wide (cp1251_decode rest)
  end.

(** UTF-16 without byte order mark. *)
Fixpoint utf16_decode (big_endian : bool) (b : list ascii) : result string :=
  match b with
  | [] => Ok ""%string
  | [_] => Raise UnicodeDecodeError
  | b0 :: b1 :: rest =>
      let hi := if big_endian then b0 else b1 in
      let lo := if big_endian then b1 else b0 in
      if (nat_of_ascii hi =? 0)%nat then
        s ← utf16_decode big_endian rest; Ok (String lo s)
      else if between 216 219 hi then
        match rest with
        | b2 :: b3 :: rest =>
            if between 220 223 (if big_endian then b2 else b3)
            then wide (utf16_decode big_endian rest)
            else Raise UnicodeDecodeError
        | _ => Raise UnicodeDecodeError
        end
      else if between 220 223 hi then Raise UnicodeDecodeError
      else wide (utf16_decode big_endian rest)
  end.

(** [bytes.decode(encoding)]: ["utf-8-sig"] skips one signature at the
    start, ["latin-1"] accepts every byte. *)
Definition decode (enc : encoding) (b : list ascii) : result string :=
  match enc with
  | Utf8Sig =>
      match b with
      | c0 :: c1 :: c2 :: rest =>
          if bool_decide ([c0; c1; c2] = bom_utf8) then utf8_decode rest
          else utf8_decode b
      | _ => utf8_decode b
      end
  | Utf8 => utf8_decode b
  | Cp1251 => cp1251_decode b
  | Utf16LE => utf16_decode false b
  | Utf16BE => utf16_decode true b
  | Latin1 => Ok (string_of_list_ascii b)
  end.

(** *** [write_dlg] *)

(** The thirteen values of one row, in file order; [str] of an index or a
    [next] of more than 4300 digits raises. *)
Definition dlg_values (row : DlgRow) : result (list string) :=
  index_str ← str_of_int (index row);
  next_str ← match next row with
             | None => Ok "#"%string
             | Some n => str_of_int n
             end;
  Ok [index_str; male row; female row; next_str; condition row; action row;
      unknown01 row; unknown02 row; unknown03 row; unknown04 row;
      unknown05 row; unknown06 row; malkavian row].

(** The text handed to [f.write] for one row. *)
Definition dlg_line (row : DlgRow) : result string :=
  values ← dlg_values row;
  Ok (str_join ((λ v, String "{" (str_replace "}" "]" v ++ "}")) <$> values)
        ++ String newline "")%string.

(** The loop of [write_dlg] over the rows; [first] tells that nothing has
    been written yet, [file] is what has been.  An exception ends the
    loop; what was written before stays in the file. *)
Fixpoint write_rows (enc : encoding) (first : bool) (rows : list DlgRow)
    (file : list ascii) : bool * list ascii :=
  match rows with
  | [] => (true, file)
  | row :: rows =>
      match dlg_line row with
      | Ok line =>
          match encode enc line with
          | Some b =>
              write_rows enc false rows
                (file ++ (if first then signature enc else []) ++ b)
          | None => (false, file)
          end
      | _ => (false, file)
      end
  end.

(** [write_dlg(filepath, rows, encoding)]: the value returned and the bytes
    of the file afterwards. *)
Definition write_dlg (rows : list DlgRow) (enc : encoding) : bool * list ascii :=
  write_rows enc true rows [].

(** *** [read_dlg] *)

(** [f.readlines()] in text mode: [\r\n] and [\r] count as line ends.  The
    lines are returned without their terminator, which [strip] would
    remove. *)
Fixpoint readlines_from (cur : string) (s : string) : list string :=
  match s with
  | EmptyString => match cur with EmptyString => [] | _ => [cur] end
  | String c s' =>
      if Ascii.eqb c newline then cur :: readlines_from "" s'
      else if Ascii.eqb c carriage_return then
        match s' with
        | String c' s'' =>
            if Ascii.eqb c' newline then cur :: readlines_from "" s''
            else cur :: readlines_from "" s'
        | EmptyString => [cur]
        end
      else readlines_from (cur ++ String c "")%string s'
  end.

Definition readlines (s : string) : list string := readlines_from "" s.

(** [DLG_LINE_RE.match]: [n] groups [\{(.*?)\}] separated by [\s*].  Each
    group takes the shortest content for which the rest still matches; [.]
    does not match a line feed.  [scan_group k acc t] reads the content of
    one group after its opening brace, [k] matching what follows the closing
    brace. *)
Fixpoint scan_group (k : string → option (list string)) (acc t : string)
  : option (list string) :=
  match t with
  | EmptyString => None
  | String c t' =>
      let longer :=
        if Ascii.eqb c newline then None
        else scan_group k (acc ++ String c "")%string t' in
      if Ascii.eqb c "}" then
        match k t' with
        | Some gs => Some (acc :: gs)
        | None => longer
        end
      else longer
  end.

Fixpoint match_groups (n : nat) (s : string) : option (list string) :=
  match n with
  | O => Some []
  | S n' =>
      match s with
      | String "{" rest =>
          scan_group (λ t',
              match n' with
              | O => Some []
              | _ => match_groups n' (lstrip t')
              end) ""%string rest
      | _ => None
      end
  end.

(** The body of [for line_text in lines]: [None] when the line is skipped. *)
Definition parse_dlg_line (line_text : string) : option DlgRow :=
  match match_groups 13 (str_strip line_text) with
  | None => None
  | Some groups =>
      match str_replace "]" "}" <$> groups with
      | [index_str; male; female; next_str; condition; action;
         v0; v1; v2; v3; v4; v5; v6] =>
          match int_of_str index_str with
          | None => None
          | Some index =>
              let next_val :=
                if String.eqb (str_strip next_str) "#"
                   || String.eqb (str_strip next_str) ""
                then Some None
                else Some <$> int_of_str next_str in
              match next_val with
              | None => None
              | Some next_val =>
                  Some (mkDlgRow index male female next_val condition action
                          v0 v1 v2 v3 v4 v5 v6 None)
              end
          end
      | _ => None
      end
  end.

(** The rows of a decoded file: the loop over [lines]. *)
Definition parse_dlg_text (text : string) : list DlgRow :=
  omap parse_dlg_line (readlines text).

(** The loop of [read_dlg] over the encodings: the first one that decodes
    the file gives the result; [Ok None] is the [(None, None)] returned
    when none does. *)
Fixpoint read_with (encodings : list encoding) (content : list ascii)
  : result (option (list DlgRow * encoding)) :=
  match encodings with
  | [] => Ok None
  | enc :: encodings =>
      match decode enc content with
      | Ok text => Ok (Some (parse_dlg_text text, enc))
      | Raise UnicodeDecodeError => read_with encodings content
      | Raise e => Raise e
      | OutOfFuel => OutOfFuel
      end
  end.

(** [read_dlg(filepath)] on a file with the bytes [content]. *)
Definition read_dlg (content : list ascii) : result (option (list DlgRow * encoding)) :=
  read_with COMMON_ENCODINGS content.

(** ** json_conv.py

    The value handed to [json.dump] and obtained from [json.load]. *)

#[warnings="-register-all"]
Inductive json :=
| JNull
| JInt (z : Z)
| JStr (s : string)
| JList (l : list json)
| JDict (d : list (string * json)).

(** [d.get(k)] on a JSON object. *)
Fixpoint jget (d : list (string * json)) (k : string) : option json :=
  match d with
  | [] => None
  | (k', v) :: d => if String.eqb k' k then Some v else jget d k
  end.

(** [d[k] = v] on a JSON object. *)
Fixpoint jset (d : list (string * json)) (k : string) (v : json)
  : list (string * json) :=
  match d with
  | [] => [(k, v)]
  | (k', v') :: d =>
      if String.eqb k' k then (k, v) :: d else (k', v') :: jset d k v
  end.

Definition VARIANT_KEYS : list string :=
  ["unknown01"; "unknown02"; "unknown03"; "unknown04"; "unknown05";
   "unknown06"; "malkavian"]%string.

(** [row.get_variants()] *)
Definition get_variants (row : DlgRow) : list (string * json) :=
  [("unknown01", JStr (unknown01 row)); ("unknown02", JStr (unknown02 row));
   ("unknown03", JStr (unknown03 row)); ("unknown04", JStr (unknown04 row));
   ("unknown05", JStr (unknown05 row)); ("unknown06", JStr (unknown06 row));
   ("malkavian", JStr (malkavian row))]%string.

Definition json_of_opt (o : option Z) : json :=
  match o with None => JNull | Some n => JInt n end.

Definition node_to_json (row : DlgRow) : json :=
  JDict
    ([("index", JInt (index row)); ("male", JStr (male row));
      ("female", JStr (female row)); ("next", json_of_opt (next row));
      ("condition", JStr (condition row)); ("action", JStr (action row));
      ("variants", JDict (get_variants row))]%string
     ++ match parent_npc row with
        | Some p => [("parent"%string, JInt p)]
        | None => []
        end).

Definition to_json_data (rows : list DlgRow) : json :=
  JDict
    [("metadata",
      JDict
        [("format", JStr "vtmb_dlg_2.0");
         ("columns",
          JList (JStr <$> app ["index"; "male"; "female"; "next"; "condition";
                               "action"] VARIANT_KEYS));
         ("note",
          JStr "next=null corresponds to '#'. 'parent' is inferred for layout.")]);
     ("nodes", JList (node_to_json <$> rows))]%string.

(** [not v] for a value found by [get]. *)
Definition json_falsy (o : option json) : bool :=
  match o with
  | None | Some JNull | Some (JInt 0) | Some (JStr EmptyString)
  | Some (JList []) | Some (JDict []) => true
  | _ => false
  end.

(** [d.get(k, "")] where the row expects text. *)
Definition get_text (d : list (string * json)) (k : string) : result string :=
  match jget d k with
  | None => Ok ""%string
  | Some (JStr s) => Ok s
  | Some _ => Raise NotModelled
  end.

(** [d.get(k)] where the row expects an optional integer. *)
Definition get_opt_int (d : list (string * json)) (k : string)
  : result (option Z) :=
  match jget d k with
  | None | Some JNull => Ok None
  | Some (JInt n) => Ok (Some n)
  | Some _ => Raise NotModelled
  end.

(** The body of [for node_data in data["nodes"]]; [Ok None] when the node
    is skipped by the [except (ValueError, TypeError)] clause. *)
Definition row_of_json (node_data : json) : result (option DlgRow) :=
  match node_data with
  | JDict nd =>
      variants ←
        match jget nd "variants" with
        | None => Ok []
        | Some (JDict v) => Ok v
        | Some _ => Raise AttributeError
        end;
      variants ←
        (if json_falsy (jget variants "malkavian") then
           match jget nd "clan" with
           | None => Ok variants
           | Some (JDict clan) =>
               match jget clan "malkavian" with
               | Some m => Ok (jset variants "malkavian" m)
               | None => Ok variants
               end
           | Some _ => Raise NotModelled
           end
         else Ok variants);
      match jget nd "index" with
      | None => Raise KeyError
      | Some i =>
          match
            match i with
            | JInt z => Some z
            | JStr s => int_of_str s
            | _ => None
            end
          with
          | None => Ok None
          | Some idx =>
              male ← get_text nd "male";
              female ← get_text nd "female";
              next ← get_opt_int nd "next";
              condition ← get_text nd "condition";
              action ← get_text nd "action";
              v1 ← get_text variants "unknown01";
              v2 ← get_text variants "unknown02";
              v3 ← get_text variants "unknown03";
              v4 ← get_text variants "unknown04";
              v5 ← get_text variants "unknown05";
              v6 ← get_text variants "unknown06";
              m ← get_text variants "malkavian";
              parent ← get_opt_int nd "parent";
              Ok (Some (mkDlgRow idx male female next condition action
                          v1 v2 v3 v4 v5 v6 m parent))
          end
      end
  | _ => Raise AttributeError
  end.

(** [from_json_data(data)]: [Ok None] is the [return None] of a document
    without ["nodes"]. *)
Definition from_json_data (data : json) : result (option (list DlgRow)) :=
  match data with
  | JDict d =>
      match jget d "nodes" with
      | None => Ok None
      | Some (JList nodes) =>
          rows ← for_each (λ acc node_data,
                    row ← row_of_json node_data;
                    Ok (match row with Some r => acc ++ [r] | None => acc end))
                  [] nodes;
          Ok (Some rows)
      | Some _ => Raise NotModelled
      end
  | _ => Raise NotModelled
  end.

(** ** mainwindow.py: the model and scene state behind the undo commands

    [dlg_data] is the node collection.  [nodes] maps the index of every
    node shown in the scene to the position of its item; the item's [data]
    is the row of [dlg_data] with that index.  Edge items, selection and
    view state are rendering and are left out. *)

Record MainWindow := mkMainWindow {
  dlg_data : list DlgRow;
  nodes : list (Z * point);
  show_empty_nodes : bool
}.

(** A method either returns, or raises after whatever it had already
    changed. *)
Inductive outcome :=
| Done (mw : MainWindow)
| Failed (e : exn) (mw : MainWindow).

Definition and_then (o : outcome) (k : MainWindow → outcome) : outcome :=
  match o with
  | Done mw => k mw
  | Failed e mw => Failed e mw
  end.

Definition state_of (o : outcome) : MainWindow :=
  match o with Done mw | Failed _ mw => mw end.

Definition _visible_rows (mw : MainWindow) : list DlgRow :=
  if show_empty_nodes mw then dlg_data mw
  else filter (λ r, is_empty_separator r = false) (dlg_data mw).

(** *** graphview.py: where [setPos] leaves a node item

    Qt holds coordinates as binary floating-point numbers; the model
    computes with exact rationals.  The items of [nodes] stand in the order
    in which they were added to the scene, which is the order in which the
    scene stacks them: [scene().items(...)] lists the last one first. *)

Definition NODE_WIDTH : Z := 300.
Definition NODE_HEIGHT : Z := 90.

Definition Qlt_bool (a b : Q) : bool := negb (Qle_bool b a).

(** [qFuzzyIsNull], [qFuzzyCompare] and the [==] of two [QPointF], by which
    [QGraphicsItem.setPos] decides whether the position changes at all. *)
Definition qFuzzyIsNull (d : Q) : bool :=
  Qle_bool (Qabs d) (1 # 1000000000000).

Definition qFuzzyCompare (a b : Q) : bool :=
  Qle_bool (Qabs (a - b) * 1000000000000) (Qmin (Qabs a) (Qabs b)).

Definition coord_eq (a b : Q) : bool :=
  if Qeq_bool a 0 || Qeq_bool b 0 then qFuzzyIsNull (a - b)
  else qFuzzyCompare a b.

Definition point_eq (p q : point) : bool :=
  coord_eq p.1 q.1 && coord_eq p.2 q.2.

(** [r1.intersects(r2)] for the scene rectangles of two nodes that stand
    at [p] and [q]: both are [NODE_WIDTH] wide and [NODE_HEIGHT] high. *)
Definition rects_intersect (p q : point) : bool :=
  Qlt_bool p.1 (q.1 + inject_Z NODE_WIDTH)
  && Qlt_bool q.1 (p.1 + inject_Z NODE_WIDTH)
  && Qlt_bool p.2 (q.2 + inject_Z NODE_HEIGHT)
  && Qlt_bool q.2 (p.2 + inject_Z NODE_HEIGHT).

(** The [shift] of [nudge_away] for the moved node at [p] and the node it
    hits at [q]. *)
Definition nudge_shift (p q : point) : point :=
  let dx1 := (p.1 + inject_Z NODE_WIDTH - q.1)%Q in
  let dx2 := (q.1 + inject_Z NODE_WIDTH - p.1)%Q in
  let dy1 := (p.2 + inject_Z NODE_HEIGHT - q.2)%Q in
  let dy2 := (q.2 + inject_Z NODE_HEIGHT - p.2)%Q in
  if Qlt_bool (Qmin (Qabs dx1) (Qabs dx2)) (Qmin (Qabs dy1) (Qabs dy2))
  then ((if Qlt_bool (Qabs dx1) (Qabs dx2) then - (dx1 + 2) else dx2 + 2)%Q, 0%Q)
  else (0%Q, (if Qlt_bool (Qabs dy1) (Qabs dy2) then - (dy1 + 2) else dy2 + 2)%Q).

(** The loop of [GraphView.nudge_away(moved)]: [others] are the positions
    of the other nodes, topmost first, [p] is the position of the moved
    one.  The [setPos] inside the loop comes back to [nudge_away], which
    returns at once because [_resolving_collision] is set. *)
Fixpoint nudge_loop (max_iter : nat) (others : list point) (p : point) : point :=
  match max_iter with
  | O => p
  | S max_iter =>
      match List.find (rects_intersect p) others with
      | None => p
      | Some q =>
          let shift := nudge_shift p q in
          let p' := ((p.1 + shift.1)%Q, (p.2 + shift.2)%Q) in
          nudge_loop max_iter others (if point_eq p p' then p else p')
      end
  end.

(** [node.setPos(pos)] for the item of [idx]: nothing happens when the item
    is there already; otherwise the item is moved, and
    [GraphNode.itemChange] hands it to [nudge_away]. *)
Definition item_set_pos (nodes : list (Z * point)) (idx : Z) (pos : point)
  : list (Z * point) :=
  match od_get nodes idx with
  | None => nodes
  | Some old =>
      if point_eq old pos then nodes
      else od_set nodes idx (nudge_loop 10 (reverse (od_del nodes idx)).*2 pos)
  end.

(** [_add_one_node_item(row, pos)]: the new item is created at the origin,
    added to the scene and then moved. *)
Definition _add_one_node_item (mw : MainWindow) (row : DlgRow) (pos : point)
  : MainWindow :=
  if od_mem (nodes mw) (index row) then mw
  else mkMainWindow (dlg_data mw)
         (item_set_pos (od_set (nodes mw) (index row) (0%Q, 0%Q)) (index row) pos)
         (show_empty_nodes mw).

(** [_remove_items_only(index)] *)
Definition _remove_items_only (mw : MainWindow) (idx : Z) : MainWindow :=
  mkMainWindow (dlg_data mw) (od_del (nodes mw) idx) (show_empty_nodes mw).

(** The first loop of [_add_rows_and_items]: check, then append, row by
    row.  Returns the collection as the loop left it and the exception, if
    one was raised. *)
Fixpoint add_rows_loop (data : list DlgRow) (rows : list DlgRow)
  : list DlgRow * option exn :=
  match rows with
  | [] => (data, None)
  | r :: rows =>
      if existsb (λ x, index x =? index r) data then (data, Some ValueError)
      else add_rows_loop (data ++ [r]) rows
  end.

Definition _add_rows_and_items (mw : MainWindow) (rows : list DlgRow)
    (positions : gmap Z point) : outcome :=
  let '(data, raised) := add_rows_loop (dlg_data mw) rows in
  let mw := mkMainWindow data (nodes mw) (show_empty_nodes mw) in
  match raised with
  | Some e => Failed e mw
  | None =>
      let visible_ids : gset Z := list_to_set (index <$> _visible_rows mw) in
      Done (foldl (λ mw r,
                if bool_decide (index r ∈ visible_ids) then
                  _add_one_node_item mw r
                    (default (0%Q, 0%Q) (positions !! index r))
                else mw) mw rows)
  end.

Definition _remove_rows_and_items (mw : MainWindow) (indices : list Z)
  : outcome :=
  let mw := foldl _remove_items_only mw indices in
  Done (mkMainWindow
          (filter (λ r, index r ∉ indices) (dlg_data mw))
          (nodes mw) (show_empty_nodes mw)).

(** The two node commands.  Both constructors copy the rows and the
    positions they are given. *)
Inductive command :=
| AddNodesCommand (rows : list DlgRow) (positions : gmap Z point)
| DeleteNodesCommand (rows : list DlgRow) (positions : gmap Z point).

Definition redo (c : command) (mw : MainWindow) : outcome :=
  match c with
  | AddNodesCommand rows positions => _add_rows_and_items mw rows positions
  | DeleteNodesCommand rows _ => _remove_rows_and_items mw (index <$> rows)
  end.



(** [_shift_indices_from(start_id, delta)].  The second loop re-keys the
    scene items; its [node.data.index = new_idx] stores into the row the
    value the first loop has already put there. *)
Definition shift_row (start_id delta : Z) (r : DlgRow) : DlgRow :=
  let r := if bool_decide (start_id ≤ index r)
           then set_index r (index r + delta) else r in
  let r := match next r with
           | Some n =>
               if bool_decide (start_id ≤ n) then set_next r (Some (n + delta))
               else r
           | None => r
           end in
  match parent_npc r with
  | Some p =>
      if bool_decide (start_id ≤ p) then set_parent_npc r (Some (p + delta))
      else r
  | None => r
  end.

Definition _shift_indices_from (mw : MainWindow) (start_id delta : Z)
  : MainWindow :=
  mkMainWindow
    (shift_row start_id delta <$> dlg_data mw)
    (foldl (λ (new_nodes : list (Z * point)) (e : Z * point),
        od_set new_nodes
          (if bool_decide (start_id ≤ e.1) then e.1 + delta else e.1) e.2)
      [] (nodes mw))
    (show_empty_nodes mw).

(** ** layout.py: [auto_gaps] *)

(** [int(x)] for a float: the fraction is cut off. *)
Definition int_of_float (q : Q) : Z := Z.quot (Qnum q) (Z.pos (Qden q)).

(** [auto_gaps(n_nodes)].  The factors are binary floats in the source.
    Each of them is a little above the decimal it is written as, and the
    products with 60 and 110 stay within a few units of the last place of
    the exact product, so that [int] cuts them to the integer it cuts the
    exact product to. *)
Definition auto_gaps (n_nodes : Z) : Z * Z :=
  let k : Q :=
    if bool_decide (n_nodes ≤ 300) then 1%Q
    else if bool_decide (n_nodes ≤ 800) then (8 # 10)%Q
    else if bool_decide (n_nodes ≤ 1200) then (65 # 100)%Q
    else (55 # 100)%Q in
  (Z.max 20 (int_of_float (inject_Z H_GAP_BASE * k)),
   Z.max 60 (int_of_float (inject_Z V_GAP_BASE * k))).

(** ** mainwindow.py: parent links and new nodes *)

(** [_ensure_parent_links]: unlike [_ensure_parents] of layout.py it
    overwrites the parent of every row. *)
Fixpoint ensure_parent_links_loop (current_npc : option Z) (rows : list DlgRow)
  : list DlgRow :=
  match rows with
  | [] => []
  | r :: rows =>
      if is_pc_reply r then
        set_parent_npc r current_npc :: ensure_parent_links_loop current_npc rows
      else
        set_parent_npc r None :: ensure_parent_links_loop (Some (index r)) rows
  end.

Definition _ensure_parent_links (mw : MainWindow) : MainWindow :=
  mkMainWindow (ensure_parent_links_loop None (dlg_data mw)) (nodes mw)
    (show_empty_nodes mw).

(** [while i in taken: i += 1] *)
Fixpoint new_index_loop (fuel : nat) (taken : gset Z) (i : Z) : result Z :=
  match fuel with
  | O => OutOfFuel
  | S fuel =>
      if bool_decide (i ∈ taken) then new_index_loop fuel taken (i + 1) else Ok i
  end.

(** [_new_index()] *)
Definition _new_index (mw : MainWindow) : result Z :=
  let taken : gset Z := list_to_set (index <$> dlg_data mw) in
  let i := match index <$> dlg_data mw with
           | [] => 1
           | x :: xs => max_from x xs + 1
           end in
  new_index_loop (S (length (dlg_data mw))) taken i.

(** The row built by [add_npc_at] and [add_npc_node]. *)
Definition new_npc_row (idx : Z) : DlgRow :=
  mkDlgRow idx "New NPC" "" None "" "" "" "" "" "" "" "" "" None.

(** [add_npc_at(scene_pos)]: pushing the command on the undo stack runs its
    [redo]. *)
Definition add_npc_at (mw : MainWindow) (scene_pos : point) : result outcome :=
  idx ← _new_index mw;
  Ok (redo (AddNodesCommand [new_npc_row idx] {[idx := scene_pos]}) mw).

(** [_set_node_pos(index, pos)], the [redo] and the [undo] of
    [MoveNodeCommand]. *)
Definition _set_node_pos (mw : MainWindow) (idx : Z) (pos : point) : MainWindow :=
  mkMainWindow (dlg_data mw) (item_set_pos (nodes mw) idx pos) (show_empty_nodes mw).

(** [_apply_relink(pc_index, new_next)] on the rows: the first row with the
    index gets the new [next]. *)
Fixpoint relink_rows (rows : list DlgRow) (pc_index : Z) (new_next : option Z)
  : list DlgRow :=
  match rows with
  | [] => []
  | r :: rows =>
      if bool_decide (index r = pc_index) then set_next r new_next :: rows
      else r :: relink_rows rows pc_index new_next
  end.

Definition _apply_relink (mw : MainWindow) (pc_index : Z) (new_next : option Z)
  : MainWindow :=
  mkMainWindow (relink_rows (dlg_data mw) pc_index new_next) (nodes mw)
    (show_empty_nodes mw).

(** * Properties *)

(** Rows used in the concrete scenarios: an NPC line and a player reply with
    empty texts. *)
Definition npc_line (i : Z) : DlgRow :=
  mkDlgRow i "" "" None "" "" "" "" "" "" "" "" "" None.

Definition reply (i n : Z) (parent : option Z) : DlgRow :=
  mkDlgRow i "" "" (Some n) "" "" "" "" "" "" "" "" "" parent.

(** ** Renumbering *)

(** The index map applied by [_shift_indices_from]. *)
Definition shifted (start_id delta i : Z) : Z :=
  if bool_decide (start_id ≤ i) then i + delta else i.

Lemma shift_row_index start_id delta r :
  index (shift_row start_id delta r) = shifted start_id delta (index r).
Proof.
  unfold shift_row, shifted, set_index, set_next, set_parent_npc.
  destruct r as [i ? ? [n|] ? ? ? ? ? ? ? ? ? [p|]]; simpl;
    repeat (case_bool_decide; simpl); reflexivity.
Qed.

Lemma shift_row_next start_id delta r :
  next (shift_row start_id delta r) = shifted start_id delta <$> next r.
Proof.
  unfold shift_row, shifted, set_index, set_next, set_parent_npc.
  destruct r as [i ? ? [n|] ? ? ? ? ? ? ? ? ? [p|]]; simpl;
    repeat (case_bool_decide; simpl); reflexivity.
Qed.

Lemma shift_row_parent start_id delta r :
  parent_npc (shift_row start_id delta r)
  = shifted start_id delta <$> parent_npc r.
Proof.
  unfold shift_row, shifted, set_index, set_next, set_parent_npc.
  destruct r as [i ? ? [n|] ? ? ? ? ? ? ? ? ? [p|]]; simpl;
    repeat (case_bool_decide; simpl); reflexivity.
Qed.

Lemma shifted_inj start_id i j :
  shifted start_id 1 i = shifted start_id 1 j → i = j.
Proof. unfold shifted. repeat case_bool_decide; lia. Qed.

(** Every non-null [next] and [parent_npc] names the index of some row. *)
Definition resolves (rows : list DlgRow) (ref : option Z) : Prop :=
  ∀ t, ref = Some t → t ∈ index <$> rows.

Definition refs_resolve (rows : list DlgRow) : Prop :=
  ∀ r, r ∈ rows → resolves rows (next r) ∧ resolves rows (parent_npc r).

(** Two references, one read in [rows] and one in [rows'], denote the same
    nodes: both are null, or they select the same positions of the row list. *)
Definition same_target (rows rows' : list DlgRow) (ref ref' : option Z) : Prop :=
  match ref, ref' with
  | None, None => True
  | Some t, Some t' =>
      ∀ j s s', rows !! j = Some s → rows' !! j = Some s' →
                (index s = t ↔ index s' = t')
  | _, _ => False
  end.

Lemma same_target_shift rows start_id ref :
  same_target rows (shift_row start_id 1 <$> rows) ref
    (shifted start_id 1 <$> ref).
Proof.
  destruct ref as [t|]; simpl; [|done].
  intros j s s' Hs Hs'. rewrite list_lookup_fmap, Hs in Hs'.
  simpl in Hs'. injection Hs' as <-. rewrite shift_row_index.
  split; [by intros -> | apply shifted_inj].
Qed.

Lemma resolves_shift rows start_id ref :
  resolves rows ref →
  resolves (shift_row start_id 1 <$> rows) (shifted start_id 1 <$> ref).
Proof.
  intros Hres t' Ht'. destruct ref as [t|]; simplify_eq/=.
  specialize (Hres t eq_refl).
  apply list_elem_of_fmap in Hres as (s & -> & Hs).
  apply list_elem_of_fmap. exists (shift_row start_id 1 s).
  split; [by rewrite shift_row_index|].
  apply list_elem_of_fmap. by exists s.
Qed.

(** C7. Renumber integrity: on a dataset whose references all resolve,
    [_shift_indices_from] with delta [+1] and any start index leaves every
    non-null [next] and [parent_npc] resolving to an existing index, and
    each reference still denotes the node it denoted before the shift. *)
Theorem shift_indices_keeps_references (mw : MainWindow) (start_id : Z) :
  refs_resolve (dlg_data mw) →
  let mw' := _shift_indices_from mw start_id 1 in
  refs_resolve (dlg_data mw') ∧
  ∀ i r r',
    dlg_data mw !! i = Some r → dlg_data mw' !! i = Some r' →
    same_target (dlg_data mw) (dlg_data mw') (next r) (next r') ∧
    same_target (dlg_data mw) (dlg_data mw') (parent_npc r) (parent_npc r').
Proof.
  intros Hres. simpl. split.
  - intros r' Hr'. apply list_elem_of_fmap in Hr' as (r & -> & Hr).
    destruct (Hres r Hr) as [Hn Hp].
    rewrite shift_row_next, shift_row_parent.
    split; by apply resolves_shift.
  - intros i r r' Hr Hr'. rewrite list_lookup_fmap, Hr in Hr'.
    simpl in Hr'. injection Hr' as <-.
    rewrite shift_row_next, shift_row_parent.
    split; apply same_target_shift.
Qed.

Definition shift_sample : MainWindow :=
  mkMainWindow
    [npc_line 9; reply 10 11 (Some 9); npc_line 11; reply 12 9 (Some 11)]
    [(9, (0, 0)%Q); (10, (0, 200)%Q); (11, (0, 400)%Q); (12, (0, 600)%Q)]
    true.

Lemma shift_indices_keeps_references_witness :
  refs_resolve (dlg_data shift_sample) ∧
  refs_resolve (dlg_data (_shift_indices_from shift_sample 10 1)).
Proof.
  assert (H : refs_resolve (dlg_data shift_sample)).
  { intros r Hr. simpl in Hr.
    repeat (apply elem_of_cons in Hr as [-> | Hr]); [..|by apply elem_of_nil in Hr];
      split; intros t Ht; simplify_eq/=; by apply (bool_decide_unpack _). }
  split; [exact H|].
  exact (proj1 (shift_indices_keeps_references shift_sample 10 H)).
Defined.

(** ** Adding rows *)

Definition add_sample : MainWindow :=
  mkMainWindow [npc_line 1] [(1, (0, 0)%Q)] true.

(** C6. [_add_rows_and_items] appends each incoming row before it checks
    the next one: a batch whose second row collides raises [ValueError]
    with the first row already inserted. *)
Theorem add_rows_partial_on_duplicate :
  _add_rows_and_items add_sample [npc_line 2; npc_line 1] ∅
  = Failed ValueError
      (mkMainWindow [npc_line 1; npc_line 2] [(1, (0, 0)%Q)] true).
Proof. reflexivity. Qed.

(** ** What the readers change *)

(** [r'] is [r] with, at most, a parent filled in where a reply had none. *)
Definition parent_filled (r r' : DlgRow) : Prop :=
  r' = set_parent_npc r (parent_npc r') ∧
  (parent_npc r ≠ None ∨ is_pc_reply r = false → parent_npc r' = parent_npc r).

Lemma parent_filled_refl r : parent_filled r r.
Proof. split; [by destruct r | done]. Qed.

Lemma parent_filled_trans r1 r2 r3 :
  parent_filled r1 r2 → parent_filled r2 r3 → parent_filled r1 r3.
Proof.
  intros [E12 H12] [E23 H23]. split.
  - rewrite E23, E12. by destruct r1.
  - intros H. rewrite <- (H12 H). apply H23.
    destruct H as [H|H]; [left; by rewrite (H12 (or_introl H))|].
    right. rewrite E12. by destruct r1.
Qed.

Lemma ensure_parents_loop_filled cur rows :
  Forall2 parent_filled rows (ensure_parents_loop cur rows).
Proof.
  revert cur. induction rows as [|r rows IH]; intros cur; simpl; [constructor|].
  destruct (is_pc_reply r) eqn:Hpc; simpl.
  - constructor; [|apply IH].
    destruct (parent_npc r) eqn:Hp; [apply parent_filled_refl|].
    split; [done|]. intros [H|H]; congruence.
  - constructor; [apply parent_filled_refl | apply IH].
Qed.

Lemma Forall2_parent_filled_trans l1 l2 l3 :
  Forall2 parent_filled l1 l2 → Forall2 parent_filled l2 l3 →
  Forall2 parent_filled l1 l3.
Proof.
  intros H12. revert l3. induction H12; intros l3 H23; inversion H23; subst;
    constructor; eauto using parent_filled_trans.
Qed.

Lemma build_components_rows rows rows' cs :
  _build_components rows = Ok (rows', cs) → rows' = _ensure_parents rows.
Proof.
  unfold _build_components. intros H.
  destruct (for_each _ _ _) as [[v c]| |]; simpl in H; congruence.
Qed.

Lemma calculate_layout_rows rows node_w node_h h_gap v_gap rows' positions :
  calculate_layout rows node_w node_h h_gap v_gap = Ok (rows', positions) →
  rows' = rows ∨ rows' = _ensure_parents (_ensure_parents rows).
Proof.
  unfold calculate_layout. destruct rows as [|r0 rows0]; [left; congruence|].
  set (rows := r0 :: rows0). intros H. right.
  destruct (_build_components (_ensure_parents rows)) as [[rows1 cs]| |] eqn:Hbc;
    simpl in H; try discriminate.
  apply build_components_rows in Hbc. subst rows1.
  destruct (layering _) as [[layers ntl]| |]; simpl in H; try discriminate.
  destruct (order_layers _ _ _) as [layers'| |]; simpl in H; try discriminate.
  destruct (foldl _ _ _) as [pos off]. congruence.
Qed.

(** C9, as stated, fails: a reply without a parent that follows an NPC line
    comes back from [_build_components] with [parent_npc] set. *)
Lemma build_components_sets_parent :
  ∃ rows' cs,
    _build_components [npc_line 1; reply 2 1 None] = Ok (rows', cs) ∧
    parent_npc <$> rows' ≠ parent_npc <$> [npc_line 1; reply 2 1 None].
Proof.
  eexists _, _. split; [vm_compute; reflexivity | vm_compute; discriminate].
Qed.

(** ** The concrete scenario *)

Definition scenario : list DlgRow :=
  [npc_line 1; reply 2 1 None; reply 3 4 None; npc_line 4].

(** C2, amended. The scenario has the single component {1,2,3,4}; the
    layering of [calculate_layout] puts both NPC lines, 1 and 4, in layer 0
    and the replies 2 and 3 in layer 1. *)
Theorem scenario_components_and_layers :
  (∃ rows', _build_components scenario = Ok (rows', [{[1; 2; 3; 4]}])) ∧
  layering (_ensure_parents scenario)
  = Ok ([(0, [1; 4]); (1, [2; 3])], [(1, 0); (4, 0); (2, 1); (3, 1)]).
Proof. split; [eexists|]; vm_compute; reflexivity. Qed.

(** C2, as stated, fails: node 4 is an NPC line without parent, so it is a
    seed of layer 0 and is not moved to layer 2. *)
Lemma scenario_node4_not_layer2 :
  ∃ layers node_to_layer,
    layering (_ensure_parents scenario) = Ok (layers, node_to_layer) ∧
    od_get node_to_layer 4 = Some 0 ∧ od_get node_to_layer 4 ≠ Some 2.
Proof.
  eexists _, _. split; [vm_compute; reflexivity|]. split; [reflexivity|discriminate].
Qed.

(** ** Facts about the containers *)

Section odict_facts.
Context {V : Type}.
Implicit Types (d : list (Z * V)) (k : Z) (v : V).

Lemma od_get_None d k : od_get d k = None ↔ k ∉ od_keys d.
Proof.
  unfold od_keys. induction d as [|[k' v'] d IH]; simpl.
  - split; [intros _; apply not_elem_of_nil | done].
  - rewrite not_elem_of_cons. case_bool_decide; subst.
    + split; [done | intros [? _]; done].
    + rewrite IH. split; [intros ?; split; [congruence | done] | tauto].
Qed.

Lemma od_get_elem_of d k v : od_get d k = Some v → (k, v) ∈ d.
Proof.
  induction d as [|[k' v'] d IH]; simpl; [done|].
  case_bool_decide; subst.
  - intros [= ->]. left.
  - intros ?. right. auto.
Qed.

Lemma od_get_is_Some d k : is_Some (od_get d k) ↔ k ∈ od_keys d.
Proof.
  rewrite <- not_eq_None_Some, od_get_None.
  destruct (decide (k ∈ od_keys d)); naive_solver.
Qed.

Lemma od_mem_true d k : od_mem d k = true ↔ k ∈ od_keys d.
Proof. unfold od_mem. rewrite bool_decide_eq_true. apply od_get_is_Some. Qed.

Lemma od_mem_false d k : od_mem d k = false ↔ k ∉ od_keys d.
Proof. rewrite <- od_mem_true. by destruct (od_mem d k). Qed.

Lemma od_get_set d k v k' :
  od_get (od_set d k v) k' = if bool_decide (k = k') then Some v else od_get d k'.
Proof.
  induction d as [|[k0 v0] d IH]; simpl.
  - by repeat case_bool_decide.
  - repeat (case_bool_decide; simpl; subst); try done.
    all: rewrite IH; by repeat case_bool_decide.
Qed.

Lemma od_set_fresh d k v : k ∉ od_keys d → od_set d k v = d ++ [(k, v)].
Proof.
  unfold od_keys. induction d as [|[k0 v0] d IH]; simpl; [done|].
  rewrite not_elem_of_cons. intros [Hne Hk].
  rewrite bool_decide_eq_false_2 by done. by rewrite IH.
Qed.

Lemma od_keys_set_mem d k v : k ∈ od_keys d → od_keys (od_set d k v) = od_keys d.
Proof.
  unfold od_keys. induction d as [|[k0 v0] d IH]; simpl.
  - by intros ?%elem_of_nil.
  - intros Hk. case_bool_decide; subst; simpl; [done|].
    f_equal. apply IH. apply elem_of_cons in Hk as [?|?]; done.
Qed.

Lemma od_keys_set_elem d k v k' :
  k' ∈ od_keys (od_set d k v) ↔ k' = k ∨ k' ∈ od_keys d.
Proof.
  destruct (decide (k ∈ od_keys d)) as [Hk|Hk].
  - rewrite od_keys_set_mem by done. split; [tauto | by intros [-> | ?]].
  - rewrite od_set_fresh by done. unfold od_keys.
    rewrite fmap_app, elem_of_app. simpl. rewrite list_elem_of_singleton. tauto.
Qed.

Lemma od_keys_set_NoDup d k v : NoDup (od_keys d) → NoDup (od_keys (od_set d k v)).
Proof.
  intros Hd. destruct (decide (k ∈ od_keys d)) as [Hk|Hk].
  - by rewrite od_keys_set_mem.
  - rewrite od_set_fresh by done. unfold od_keys in *.
    rewrite fmap_app. apply NoDup_app. split_and!; [done| |apply NoDup_singleton].
    simpl. intros x Hx ->%list_elem_of_singleton. done.
Qed.



Lemma od_get_NoDup d k v : NoDup (od_keys d) → (k, v) ∈ d → od_get d k = Some v.
Proof.
  unfold od_keys. induction d as [|[k0 v0] d IH]; simpl.
  - by intros _ ?%elem_of_nil.
  - rewrite NoDup_cons. intros [Hk0 Hd] Hin.
    apply elem_of_cons in Hin as [[= -> ->]|Hin].
    + by rewrite bool_decide_eq_true_2.
    + case_bool_decide; subst; [|by apply IH].
      exfalso. apply Hk0. apply list_elem_of_fmap. by exists (k, v).
Qed.
End odict_facts.

Lemma od_get_app {V} (d1 d2 : list (Z * V)) k :
  od_get (d1 ++ d2) k
  = match od_get d1 k with Some v => Some v | None => od_get d2 k end.
Proof.
  induction d1 as [|[k0 v0] d1 IH]; simpl; [done|]. by case_bool_decide.
Qed.

Lemma filter_all {A} (P : A → Prop) `{∀ x, Decision (P x)} (l : list A) :
  (∀ x, x ∈ l → P x) → filter P l = l.
Proof.
  induction l as [|x l IH]; intros HP; [done|].
  rewrite filter_cons_True by (apply HP; left).
  f_equal. apply IH. intros y Hy. apply HP. by right.
Qed.


(** ** Undo and redo of the node commands *)

Lemma existsb_index (data : list DlgRow) (i : Z) :
  existsb (λ x, index x =? i) data = bool_decide (i ∈ index <$> data).
Proof.
  induction data as [|x data IH]; simpl; [done|].
  rewrite IH. destruct (Z.eqb_spec (index x) i) as [<-|Hne]; simpl.
  - symmetry. apply bool_decide_eq_true_2. left.
  - apply bool_decide_ext. rewrite elem_of_cons. split; [tauto|].
    intros [?|?]; [congruence|done].
Qed.





(** A position at which [setPos] leaves a new item as it is given: it is
    the origin, where the item is created, or it is not taken for the
    origin, and the rectangle of the node meets no other node's. *)
Definition settable (p : point) : Prop :=
  p = (0%Q, 0%Q) ∨ point_eq (0%Q, 0%Q) p = false.

Definition free_at (all : list (Z * point)) (idx : Z) (p : point) : Prop :=
  ∀ k q, (k, q) ∈ all → k ≠ idx → rects_intersect p q = false.

Definition placeable (all : list (Z * point)) (idx : Z) (p : point) : Prop :=
  settable p ∧ free_at all idx p.

Lemma find_none_all {A} (f : A → bool) (l : list A) :
  (∀ x, x ∈ l → f x = false) → List.find f l = None.
Proof.
  induction l as [|x l IH]; intros H; [done|]. cbn [List.find].
  rewrite (H x) by left. apply IH. intros y Hy. apply H. by right.
Qed.

Lemma nudge_loop_free n others p :
  (∀ q, q ∈ others → rects_intersect p q = false) → nudge_loop n others p = p.
Proof. intros H. destruct n; [done|]. cbn [nudge_loop]. by rewrite find_none_all. Qed.

Lemma od_set_last {V} (d : list (Z * V)) k a v :
  k ∉ od_keys d → od_set (d ++ [(k, a)]) k v = d ++ [(k, v)].
Proof.
  unfold od_keys. induction d as [|[k0 v0] d IH]; intros Hk.
  - cbn. by rewrite bool_decide_eq_true_2.
  - rewrite fmap_cons in Hk. apply not_elem_of_cons in Hk as [Hne Hk].
    cbn. rewrite bool_decide_eq_false_2 by done. by rewrite IH.
Qed.

Lemma od_del_last {V} (d : list (Z * V)) k a :
  k ∉ od_keys d → od_del (d ++ [(k, a)]) k = d.
Proof.
  intros Hk. unfold od_del. rewrite filter_app, filter_cons, filter_nil.
  cbn [fst]. rewrite decide_False by (intros H; by apply H).
  rewrite app_nil_r. apply filter_all. intros e He Heq. apply Hk.
  rewrite <- Heq. unfold od_keys. apply list_elem_of_fmap. by exists e.
Qed.

(** A new item lands at the end of [nodes]; where it is placeable, at the
    position given. *)
Lemma item_set_pos_new (nds : list (Z * point)) idx p :
  idx ∉ od_keys nds →
  ∃ p', item_set_pos (od_set nds idx (0%Q, 0%Q)) idx p = nds ++ [(idx, p')] ∧
        (placeable nds idx p → p' = p).
Proof.
  intros Hk. rewrite od_set_fresh by done. unfold item_set_pos.
  rewrite od_get_app. apply od_get_None in Hk as Hnone. rewrite Hnone.
  cbn [od_get]. rewrite bool_decide_eq_true_2 by done.
  destruct (point_eq (0%Q, 0%Q) p) eqn:Heq.
  - exists (0%Q, 0%Q). split; [done|]. intros [[->|Hs] _]; [done|congruence].
  - rewrite od_set_last, od_del_last by done. eexists. split; [done|].
    intros [_ Hfree]. apply nudge_loop_free. intros q Hq.
    apply list_elem_of_fmap in Hq as ([k q'] & -> & Hq).
    apply elem_of_reverse in Hq. rewrite reverse_involutive in Hq.
    apply (Hfree k q' Hq). intros ->. apply Hk.
    unfold od_keys. apply list_elem_of_fmap. by exists (idx, q').
Qed.

Lemma add_one_node_item_new mw row pos :
  index row ∉ od_keys (nodes mw) →
  ∃ p', _add_one_node_item mw row pos
        = mkMainWindow (dlg_data mw) (nodes mw ++ [(index row, p')])
            (show_empty_nodes mw) ∧
        (placeable (nodes mw) (index row) pos → p' = pos).
Proof.
  intros Hk. unfold _add_one_node_item.
  assert (od_mem (nodes mw) (index row) = false) as -> by by apply od_mem_false.
  destruct (item_set_pos_new (nodes mw) (index row) pos Hk) as (p' & -> & Hp').
  by exists p'.
Qed.









Lemma visible_row_iff mw r :
  r ∈ _visible_rows mw ↔
  r ∈ dlg_data mw ∧ (show_empty_nodes mw = true ∨ is_empty_separator r = false).
Proof.
  unfold _visible_rows. destruct (show_empty_nodes mw).
  - split; [intros ?; split; auto | tauto].
  - rewrite list_elem_of_filter. split; [tauto|].
    intros [? [?|?]]; [discriminate | done].
Qed.


Definition undo_sample : MainWindow :=
  mkMainWindow
    [npc_line 1; reply 2 1 (Some 1); reply 3 1 (Some 1)]
    [(1, (0, 0)%Q); (2, (-180, 200)%Q); (3, (180, 200)%Q)]
    false.




(** ** Storage round trips *)

Lemma str_app_nil_l (a : string) : ("" ++ a)%string = a.
Proof. reflexivity. Qed.

Lemma str_app_cons x (a b : string) :
  (String x a ++ b)%string = String x (a ++ b)%string.
Proof. reflexivity. Qed.

Ltac str_simpl := rewrite ?str_app_cons, ?str_app_nil_l; simpl.

Lemma str_app_assoc (a b c : string) :
  ((a ++ b) ++ c)%string = (a ++ (b ++ c))%string.
Proof. induction a as [|x a IH]; str_simpl; [done | by rewrite IH]. Qed.

Lemma str_app_nil_r (a : string) : (a ++ "")%string = a.
Proof. induction a as [|x a IH]; str_simpl; [done | by rewrite IH]. Qed.

Lemma str_contains_app c (a b : string) :
  str_contains c (a ++ b)%string = str_contains c a || str_contains c b.
Proof.
  induction a as [|x a IH]; str_simpl; [done|]. by rewrite IH, orb_assoc.
Qed.

(** Characters of a decimal numeral. *)
Definition numeral_char (c : ascii) : bool := is_digit c || Ascii.eqb c "-".

Fixpoint str_forall (p : ascii → bool) (s : string) : bool :=
  match s with
  | String c s' => p c && str_forall p s'
  | EmptyString => true
  end.

Lemma str_forall_app p (a b : string) :
  str_forall p (a ++ b)%string = str_forall p a && str_forall p b.
Proof.
  induction a as [|x a IH]; str_simpl; [done|]. by rewrite IH, andb_assoc.
Qed.

Lemma numeral_char_plain c :
  numeral_char c = true →
  is_space c = false ∧ Ascii.eqb c "]" = false ∧ Ascii.eqb c "}" = false ∧
  Ascii.eqb c newline = false ∧ Ascii.eqb c carriage_return = false ∧
  Ascii.eqb c "_" = false ∧ Ascii.eqb c "+" = false ∧ Ascii.eqb c "#" = false.
Proof.
  destruct c as [[] [] [] [] [] [] [] []]; vm_compute; intros H;
    try discriminate H; repeat split.
Qed.

Lemma str_forall_not_contains p c s :
  (∀ x, p x = true → Ascii.eqb x c = false) →
  str_forall p s = true → str_contains c s = false.
Proof.
  intros Hp. induction s as [|x s IH]; simpl; [done|].
  intros [Hx Hs]%andb_true_iff. by rewrite (Hp x Hx), IH.
Qed.

Lemma digit_char_spec d :
  0 ≤ d < 10 → is_digit (digit_char d) = true ∧ digit_val (digit_char d) = d.
Proof.
  intros Hd.
  assert (d = 0 ∨ d = 1 ∨ d = 2 ∨ d = 3 ∨ d = 4 ∨ d = 5 ∨ d = 6 ∨ d = 7 ∨
          d = 8 ∨ d = 9) as Hcases by lia.
  repeat (destruct Hcases as [-> | Hcases]; [by vm_compute|]). by subst.
Qed.

Lemma log2_div10 n : 10 ≤ n → Z.log2 (n / 10) < Z.log2 n.
Proof.
  intros Hn. assert (1 ≤ n / 10) by (apply Z.div_le_lower_bound; lia).
  assert (2 * (n / 10) ≤ n).
  { pose proof (Z.mul_div_le n 10). lia. }
  assert (Z.log2 (2 * (n / 10)) ≤ Z.log2 n) by by apply Z.log2_le_mono.
  rewrite Z.log2_double in * by lia. lia.
Qed.

(** The value of a digit string read from the left. *)
Fixpoint eval_digits (s : string) (acc : Z) : Z :=
  match s with
  | String c s' => eval_digits s' (10 * acc + digit_val c)
  | EmptyString => acc
  end.

Lemma eval_digits_app a b acc :
  eval_digits (a ++ b)%string acc = eval_digits b (eval_digits a acc).
Proof.
  revert acc. induction a as [|x a IH]; intros acc; str_simpl; [done | apply IH].
Qed.

Lemma parse_digits_digits s acc b :
  str_forall is_digit s = true → (s ≠ EmptyString ∨ b = true) →
  parse_digits s acc b = Some (eval_digits s acc).
Proof.
  revert acc b. induction s as [|c s IH]; intros acc b Hs Hne; simpl.
  - destruct Hne as [?| ->]; done.
  - simpl in Hs. apply andb_true_iff in Hs as [Hc Hs]. rewrite Hc.
    apply IH; auto.
Qed.

Lemma digits_of_S fuel n :
  digits_of (S fuel) n
  = if n <? 10 then String (digit_char n) ""
    else (digits_of fuel (n / 10) ++ String (digit_char (n mod 10)) "")%string.
Proof. reflexivity. Qed.

Lemma str_forall_cons p c s : str_forall p (String c s) = p c && str_forall p s.
Proof. reflexivity. Qed.

Lemma eval_digits_cons c s acc :
  eval_digits (String c s) acc = eval_digits s (10 * acc + digit_val c).
Proof. reflexivity. Qed.

Lemma digits_of_spec fuel n :
  0 ≤ n → Z.log2 n < Z.of_nat fuel →
  str_forall is_digit (digits_of fuel n) = true ∧
  digits_of fuel n ≠ EmptyString ∧
  eval_digits (digits_of fuel n) 0 = n.
Proof.
  revert n. induction fuel as [|fuel IH]; intros n Hn Hf.
  - pose proof (Z.log2_nonneg n). lia.
  - rewrite digits_of_S. destruct (Z.ltb_spec n 10) as [Hlt|Hge].
    + destruct (digit_char_spec n) as [Hd Hv]; [lia|].
      rewrite str_forall_cons, eval_digits_cons, Hd, Hv.
      split_and!; [done|done|]. unfold eval_digits. lia.
    + pose proof (log2_div10 n Hge).
      destruct (IH (n / 10)) as (Hall & Hne & Hval).
      { apply Z.div_pos; lia. } { lia. }
      destruct (digit_char_spec (n mod 10)) as [Hd Hv].
      { apply Z.mod_pos_bound. lia. }
      rewrite str_forall_app, eval_digits_app, Hall, Hval.
      rewrite str_forall_cons, eval_digits_cons, Hd, Hv.
      split_and!; [done| |].
      * destruct (digits_of fuel (n / 10)); done.
      * unfold eval_digits. pose proof (Z.div_mod n 10). lia.
Qed.

Lemma digits_numeral s :
  str_forall is_digit s = true → str_forall numeral_char s = true.
Proof.
  induction s as [|c s IH]; [done|]. rewrite !str_forall_cons.
  intros [Hc Hs]%andb_true_iff. unfold numeral_char at 1. by rewrite Hc, IH.
Qed.

Lemma decimal_of_int_numeral n : str_forall numeral_char (decimal_of_int n) = true.
Proof.
  unfold decimal_of_int. destruct (Z.ltb_spec n 0).
  - rewrite str_forall_cons. apply andb_true_iff. split; [done|].
    apply digits_numeral, digits_of_spec; [lia|].
    pose proof (Z.log2_nonneg (- n)). lia.
  - apply digits_numeral, digits_of_spec; [lia|].
    pose proof (Z.log2_nonneg n). lia.
Qed.

Lemma lstrip_nonspace c s : is_space c = false → lstrip (String c s) = String c s.
Proof. intros H. simpl. by rewrite H. Qed.

Lemma rstrip_forall p s :
  (∀ x, p x = true → is_space x = false) →
  str_forall p s = true → rstrip s = s.
Proof.
  intros Hp. induction s as [|c s IH]; simpl; [done|].
  intros [Hc Hs]%andb_true_iff. rewrite IH by done.
  destruct s; [by rewrite (Hp c Hc) | done].
Qed.

Lemma str_strip_forall p s :
  (∀ x, p x = true → is_space x = false) →
  str_forall p s = true → str_strip s = s.
Proof.
  intros Hp Hs. unfold str_strip.
  assert (lstrip s = s) as ->.
  { destruct s as [|c s]; [done|]. simpl in *.
    apply andb_true_iff in Hs as [Hc _]. by rewrite (Hp c Hc). }
  by apply (rstrip_forall p).
Qed.

Lemma str_count_app p (a b : string) :
  str_count p (a ++ b)%string = (str_count p a + str_count p b)%nat.
Proof.
  induction a as [|x a IH]; str_simpl; [done|]. cbn [str_count]. rewrite IH. lia.
Qed.

Lemma str_count_one p c : (str_count p (String c "") ≤ 1)%nat.
Proof. cbn [str_count]. destruct (p c); lia. Qed.

Lemma digits_of_count fuel n k :
  0 ≤ n < 10 ^ Z.of_nat k → (1 ≤ k)%nat →
  (str_count is_digit (digits_of fuel n) ≤ k)%nat.
Proof.
  revert n k. induction fuel as [|fuel IH]; intros n k Hn Hk; [cbn; lia|].
  rewrite digits_of_S. destruct (Z.ltb_spec n 10) as [Hlt|Hge].
  - pose proof (str_count_one is_digit (digit_char n)). lia.
  - destruct k as [|[|k]]; [lia| |].
    + change (10 ^ Z.of_nat 1) with 10 in Hn. lia.
    + rewrite str_count_app.
      pose proof (str_count_one is_digit (digit_char (n mod 10))).
      assert ((str_count is_digit (digits_of fuel (n / 10)) ≤ S k)%nat); [|lia].
      apply IH; [|lia]. split; [apply Z.div_pos; lia|].
      apply Z.div_lt_upper_bound; [lia|].
      replace (Z.of_nat (S (S k))) with (Z.succ (Z.of_nat (S k))) in Hn by lia.
      rewrite Z.pow_succ_r in Hn by lia. lia.
Qed.

(** An [int] that [str] converts and [int] reads: at most 4300 digits. *)
Definition int_printable (n : Z) : Prop :=
  Z.abs n < 10 ^ Z.of_nat int_max_str_digits.

Lemma decimal_of_int_count n :
  int_printable n →
  (str_count is_digit (decimal_of_int n) ≤ int_max_str_digits)%nat.
Proof.
  unfold int_printable, decimal_of_int. intros Hn.
  assert (1 ≤ int_max_str_digits)%nat by (unfold int_max_str_digits; lia).
  destruct (Z.ltb_spec n 0).
  - change (str_count is_digit (String "-" ?s)) with (str_count is_digit s).
    apply digits_of_count; [lia|done].
  - apply digits_of_count; [lia|done].
Qed.

Lemma str_of_int_printable n : int_printable n → str_of_int n = Ok (decimal_of_int n).
Proof.
  intros Hn. unfold str_of_int.
  pose proof (decimal_of_int_count n Hn) as Hc.
  by apply Nat.ltb_ge in Hc as ->.
Qed.

Lemma numeral_char_not_int_space c : numeral_char c = true → is_int_space c = false.
Proof.
  destruct c as [[] [] [] [] [] [] [] []]; vm_compute; intros H;
    try discriminate H; reflexivity.
Qed.

Lemma int_rstrip_forall p s :
  (∀ x, p x = true → is_int_space x = false) →
  str_forall p s = true → int_rstrip s = s.
Proof.
  intros Hp. induction s as [|c s IH]; [done|]. rewrite str_forall_cons.
  intros [Hc Hs]%andb_true_iff. cbn [int_rstrip]. rewrite IH by done.
  destruct s; [by rewrite (Hp c Hc) | done].
Qed.

Lemma int_strip_forall p s :
  (∀ x, p x = true → is_int_space x = false) →
  str_forall p s = true → int_rstrip (int_lstrip s) = s.
Proof.
  intros Hp Hs.
  assert (int_lstrip s = s) as ->.
  { destruct s as [|c s]; [done|]. rewrite str_forall_cons in Hs.
    apply andb_true_iff in Hs as [Hc _]. cbn [int_lstrip]. by rewrite (Hp c Hc). }
  by apply (int_rstrip_forall p).
Qed.

Lemma int_of_str_of_int n :
  int_printable n → int_of_str (decimal_of_int n) = Some n.
Proof.
  intros Hp. unfold int_of_str.
  rewrite (int_strip_forall numeral_char)
    by (apply decimal_of_int_numeral || apply numeral_char_not_int_space).
  pose proof (decimal_of_int_count n Hp) as Hc.
  apply Nat.ltb_ge in Hc as ->.
  unfold decimal_of_int. destruct (Z.ltb_spec n 0) as [Hneg|Hpos].
  - destruct (digits_of_spec (S (Z.to_nat (Z.log2 (- n)))) (- n))
      as (Hall & Hne & Hval); [lia| pose proof (Z.log2_nonneg (- n)); lia |].
    rewrite parse_digits_digits, Hval by auto. cbn [fmap option_fmap option_map].
    f_equal. lia.
  - destruct (digits_of_spec (S (Z.to_nat (Z.log2 n))) n)
      as (Hall & Hne & Hval); [lia| pose proof (Z.log2_nonneg n); lia |].
    destruct (digits_of _ n) as [|c s] eqn:Hs; [done|].
    pose proof Hall as Hall'.
    rewrite str_forall_cons in Hall'. apply andb_true_iff in Hall' as [Hc _].
    transitivity (parse_digits (String c s) 0 false).
    { clear -Hc. destruct c as [[] [] [] [] [] [] [] []];
        vm_compute in Hc; try discriminate Hc; reflexivity. }
    rewrite parse_digits_digits by auto. by rewrite Hval.
Qed.

(** The values, the line and the text that [write_dlg] produces for rows
    whose numbers [str] converts. *)
Definition plain_values (row : DlgRow) : list string :=
  [decimal_of_int (index row); male row; female row;
   match next row with None => "#"%string | Some n => decimal_of_int n end;
   condition row; action row; unknown01 row; unknown02 row; unknown03 row;
   unknown04 row; unknown05 row; unknown06 row; malkavian row].

Definition plain_line (row : DlgRow) : string :=
  (str_join ((λ v, String "{" (str_replace "}" "]" v ++ "}")) <$> plain_values row)
     ++ String newline "")%string.

Definition plain_text (rows : list DlgRow) : string :=
  str_join (plain_line <$> rows).

(** A text field that survives [write_dlg] and [read_dlg]: no closing
    square bracket (the escape of the closing brace) and no line break. *)
Definition dlg_text_ok (s : string) : Prop :=
  str_contains "]" s = false ∧ str_contains newline s = false ∧
  str_contains carriage_return s = false.

Definition dlg_safe (r : DlgRow) : Prop := Forall dlg_text_ok (text_fields r).

Lemma str_replace_no_target a b s : str_contains a (str_replace a b s) = false ∨ a = b.
Proof.
  destruct (Ascii.eqb_spec a b) as [->|Hne]; [by right|left].
  induction s as [|c s IH]; simpl; [done|]. rewrite IH, orb_false_r.
  destruct (Ascii.eqb_spec c a) as [->|Hca]; apply Ascii.eqb_neq; congruence.
Qed.

Lemma str_replace_keeps_absent a b c s :
  str_contains c s = false → Ascii.eqb b c = false →
  str_contains c (str_replace a b s) = false.
Proof.
  intros Hs Hb. induction s as [|x s IH]; simpl in *; [done|].
  apply orb_false_iff in Hs as [Hx Hs]. rewrite IH, orb_false_r by done.
  by destruct (Ascii.eqb x a).
Qed.

Lemma str_replace_back a b s :
  str_contains b s = false → str_replace b a (str_replace a b s) = s.
Proof.
  induction s as [|x s IH]; simpl; [done|].
  intros [Hx Hs]%orb_false_iff. rewrite IH by done. f_equal.
  destruct (Ascii.eqb_spec x a) as [->|Hxa].
  - by rewrite Ascii.eqb_refl.
  - by rewrite Hx.
Qed.

(** One group of the line pattern on a value without closing brace or line
    feed. *)
Lemma scan_group_value k acc v t gs :
  str_contains "}" v = false → str_contains newline v = false →
  k t = Some gs →
  scan_group k acc (v ++ String "}" t)%string = Some ((acc ++ v)%string :: gs).
Proof.
  revert acc. induction v as [|c v IH]; intros acc Hb Hn Hk; str_simpl.
  - by rewrite Hk, str_app_nil_r.
  - simpl in Hb, Hn. apply orb_false_iff in Hb as [Hcb Hb], Hn as [Hcn Hn].
    rewrite Hcb, Hcn, IH, str_app_assoc by done. done.
Qed.

Definition braced (v : string) : string := String "{" (v ++ "}")%string.

Lemma braced_app v t :
  (braced v ++ t)%string = String "{" (v ++ String "}" t)%string.
Proof. unfold braced. by rewrite str_app_cons, str_app_assoc. Qed.

Lemma str_join_cons x l : str_join (x :: l) = (x ++ str_join l)%string.
Proof. reflexivity. Qed.

Lemma match_groups_S n rest :
  match_groups (S n) (String "{" rest)
  = scan_group (λ t',
        match n with
        | O => Some []
        | _ => match_groups n (lstrip t')
        end) ""%string rest.
Proof. reflexivity. Qed.

Lemma match_groups_values (vs : list string) (tail : string) :
  Forall (λ v, str_contains "}" v = false ∧ str_contains newline v = false) vs →
  match_groups (length vs) (str_join (braced <$> vs) ++ tail)%string = Some vs.
Proof.
  induction vs as [|v vs IH]; intros Hvs; [done|].
  apply Forall_cons in Hvs as [[Hb Hn] Hvs].
  rewrite fmap_cons, str_join_cons, str_app_assoc, braced_app.
  cbn [length]. rewrite match_groups_S.
  rewrite (scan_group_value _ _ v _ vs); [done..|].
  destruct vs as [|v' vs']; [done|].
  specialize (IH Hvs). cbn [length] in *. rewrite <- IH.
  rewrite fmap_cons, str_join_cons, str_app_assoc, braced_app.
  by rewrite lstrip_nonspace.
Qed.

Lemma readlines_from_line cur body rest :
  str_contains newline body = false →
  str_contains carriage_return body = false →
  readlines_from cur (body ++ String newline rest)%string
  = (cur ++ body)%string :: readlines_from "" rest.
Proof.
  revert cur. induction body as [|c body IH]; intros cur Hn Hr; str_simpl.
  - by rewrite str_app_nil_r.
  - simpl in Hn, Hr. apply orb_false_iff in Hn as [Hcn Hn], Hr as [Hcr Hr].
    rewrite Hcn, Hcr, IH, str_app_assoc by done. done.
Qed.

Lemma rstrip_cons c s :
  rstrip (String c s)
  = match rstrip s with
    | EmptyString => if is_space c then EmptyString else String c EmptyString
    | r => String c r
    end.
Proof. reflexivity. Qed.

Lemma rstrip_app (a b : string) :
  rstrip b = b → b ≠ EmptyString → rstrip (a ++ b)%string = (a ++ b)%string.
Proof.
  intros Hb Hne. induction a as [|x a IH]; [done|].
  rewrite str_app_cons, rstrip_cons, IH.
  destruct (a ++ b)%string eqn:Hab; [|done].
  destruct a; [done | discriminate Hab].
Qed.

Lemma rstrip_braced v : rstrip (braced v) = braced v.
Proof.
  unfold braced. change (String "{" (v ++ "}"))%string with ("{" ++ (v ++ "}"))%string.
  rewrite <- str_app_assoc. by apply rstrip_app.
Qed.

Lemma str_join_braced_nonempty v vs : str_join (braced <$> v :: vs) ≠ EmptyString.
Proof. done. Qed.

Lemma rstrip_join_braced vs :
  rstrip (str_join (braced <$> vs)) = str_join (braced <$> vs).
Proof.
  induction vs as [|v vs IH]; [done|].
  rewrite fmap_cons, str_join_cons. destruct vs as [|v' vs'].
  - change (str_join (braced <$> [])) with ""%string.
    rewrite str_app_nil_r. apply rstrip_braced.
  - apply rstrip_app; [done | apply str_join_braced_nonempty].
Qed.

Lemma str_strip_join_braced vs :
  str_strip (str_join (braced <$> vs)) = str_join (braced <$> vs).
Proof.
  unfold str_strip. destruct vs as [|v vs]; [done|].
  rewrite <- (rstrip_join_braced (v :: vs)) at 2. f_equal.
Qed.

Lemma str_contains_braced c v :
  Ascii.eqb "{" c = false → Ascii.eqb "}" c = false →
  str_contains c (braced v) = str_contains c v.
Proof.
  intros H1 H2. unfold braced. cbn [str_contains].
  rewrite H1, str_contains_app. cbn [str_contains]. rewrite H2.
  by rewrite !orb_false_r.
Qed.

Lemma str_contains_join_braced c vs :
  Ascii.eqb "{" c = false → Ascii.eqb "}" c = false →
  Forall (λ v, str_contains c v = false) vs →
  str_contains c (str_join (braced <$> vs)) = false.
Proof.
  intros H1 H2. induction 1 as [|v vs Hv Hvs IH]; [done|].
  by rewrite fmap_cons, str_join_cons, str_contains_app, str_contains_braced, Hv, IH.
Qed.

Lemma numeral_text_ok s : str_forall numeral_char s = true → dlg_text_ok s.
Proof.
  intros Hs. split_and!; apply (str_forall_not_contains numeral_char); try done;
    intros x Hx; by apply numeral_char_plain.
Qed.

Lemma dlg_values_ok r : dlg_safe r → Forall dlg_text_ok (plain_values r).
Proof.
  unfold dlg_safe, text_fields, plain_values. rewrite !Forall_cons.
  intros (? & ? & ? & ? & ? & ? & ? & ? & ? & ? & ? & _).
  split_and!; try done.
  - apply numeral_text_ok, decimal_of_int_numeral.
  - destruct (next r); [apply numeral_text_ok, decimal_of_int_numeral | done].
Qed.

(** The line written for a row, without its terminator. *)
Definition dlg_body (row : DlgRow) : string :=
  str_join (braced <$> (str_replace "}" "]" <$> plain_values row)).

Lemma dlg_line_body row : plain_line row = (dlg_body row ++ String newline "")%string.
Proof. unfold plain_line, dlg_body. by rewrite <- list_fmap_compose. Qed.

Lemma sanitized_ok vs :
  Forall dlg_text_ok vs →
  Forall (λ v, str_contains "}" v = false ∧ str_contains newline v = false)
    (str_replace "}" "]" <$> vs) ∧
  Forall (λ v, str_contains newline v = false) (str_replace "}" "]" <$> vs) ∧
  Forall (λ v, str_contains carriage_return v = false) (str_replace "}" "]" <$> vs) ∧
  str_replace "]" "}" <$> (str_replace "}" "]" <$> vs) = vs.
Proof.
  induction 1 as [|v vs (Hb & Hn & Hr) Hvs (IH1 & IH2 & IH3 & IH4)];
    [by repeat split|].
  rewrite !fmap_cons, IH4, str_replace_back by done.
  assert (str_contains "}" (str_replace "}" "]" v) = false).
  { by destruct (str_replace_no_target "}" "]" v). }
  assert (str_contains newline (str_replace "}" "]" v) = false)
    by by apply str_replace_keeps_absent.
  assert (str_contains carriage_return (str_replace "}" "]" v) = false)
    by by apply str_replace_keeps_absent.
  split_and!; try constructor; done.
Qed.

Lemma decimal_of_int_not_marker n :
  String.eqb (decimal_of_int n) "#" || String.eqb (decimal_of_int n) "" = false.
Proof.
  pose proof (decimal_of_int_numeral n) as Hn.
  apply orb_false_iff. split; apply String.eqb_neq; intros Heq;
    rewrite Heq in Hn; [discriminate Hn|].
  clear Hn. unfold decimal_of_int in Heq.
  destruct (Z.ltb_spec n 0); [discriminate Heq|].
  destruct (digits_of_spec (S (Z.to_nat (Z.log2 n))) n) as (_ & Hne & _);
    [lia | pose proof (Z.log2_nonneg n); lia | done].
Qed.

(** The numbers of a row are within the digit limit. *)
Definition dlg_ints_ok (r : DlgRow) : Prop :=
  int_printable (index r) ∧ ∀ n, next r = Some n → int_printable n.

Lemma parse_dlg_line_body row :
  dlg_safe row → dlg_ints_ok row →
  parse_dlg_line (dlg_body row) = Some (set_parent_npc row None).
Proof.
  intros Hsafe [Hi Hn]. apply dlg_values_ok in Hsafe.
  destruct (sanitized_ok _ Hsafe) as (Hgroups & _ & _ & Hback).
  unfold parse_dlg_line, dlg_body. rewrite str_strip_join_braced.
  rewrite <- (str_app_nil_r (str_join _)).
  change 13%nat with (length (str_replace "}" "]" <$> plain_values row)).
  rewrite match_groups_values, Hback by done.
  unfold plain_values. rewrite int_of_str_of_int by done.
  destruct row as [i m f [n|] c a v1 v2 v3 v4 v5 v6 mk p]; cbn [next index] in *.
  - rewrite (str_strip_forall numeral_char)
      by (apply decimal_of_int_numeral || (intros x Hx; by apply numeral_char_plain)).
    by rewrite decimal_of_int_not_marker, int_of_str_of_int by auto.
  - done.
Qed.

Lemma readlines_write rows :
  Forall dlg_safe rows → readlines (plain_text rows) = dlg_body <$> rows.
Proof.
  unfold readlines, plain_text. induction 1 as [|r rows Hr Hrows IH]; [done|].
  rewrite !fmap_cons, str_join_cons, dlg_line_body, str_app_assoc, str_app_cons,
    str_app_nil_l.
  apply dlg_values_ok in Hr. destruct (sanitized_ok _ Hr) as (_ & Hn & Hc & _).
  rewrite readlines_from_line, IH; [done| |]; by apply str_contains_join_braced.
Qed.

(** *** The bytes of the file *)

Definition dlg_storable (r : DlgRow) : Prop := dlg_safe r ∧ dlg_ints_ok r.

Lemma text_round_trip rows :
  Forall dlg_storable rows →
  parse_dlg_text (plain_text rows) = (λ r, set_parent_npc r None) <$> rows.
Proof.
  intros Hok. unfold parse_dlg_text. rewrite readlines_write.
  2:{ eapply Forall_impl; [exact Hok|]. by intros r [? _]. }
  induction Hok as [|r rows [Hr Hi] Hrows IH]; [done|].
  rewrite !fmap_cons.
  change (omap parse_dlg_line (dlg_body r :: (dlg_body <$> rows)))
    with (match parse_dlg_line (dlg_body r) with
          | Some y => y :: omap parse_dlg_line (dlg_body <$> rows)
          | None => omap parse_dlg_line (dlg_body <$> rows)
          end).
  by rewrite parse_dlg_line_body, IH.
Qed.

Lemma dlg_line_plain row : dlg_ints_ok row → dlg_line row = Ok (plain_line row).
Proof.
  intros [Hi Hn]. unfold dlg_line, dlg_values, plain_line, plain_values.
  rewrite str_of_int_printable by done. cbn [mbind result_bind].
  destruct (next row) as [n|]; [|done].
  by rewrite str_of_int_printable by auto.
Qed.

(** The UTF-8 bytes of a text. *)
Fixpoint utf8_bytes (s : string) : list ascii :=
  match s with
  | String c s => utf8_char c ++ utf8_bytes s
  | EmptyString => []
  end.

Lemma utf8_bytes_app (a b : string) :
  utf8_bytes (a ++ b)%string = utf8_bytes a ++ utf8_bytes b.
Proof.
  induction a as [|c a IH]; str_simpl; [done|].
  cbn [utf8_bytes]. by rewrite IH, app_assoc.
Qed.

Definition is_low (c : ascii) : bool := (nat_of_ascii c <? 128)%nat.

(** The encodings under which a text gets the bytes UTF-8 gives it. *)
Definition utf8_like (enc : encoding) (s : string) : Prop :=
  enc = Utf8Sig ∨ enc = Utf8 ∨
  ((enc = Cp1251 ∨ enc = Latin1) ∧ str_forall is_low s = true).

Lemma encode_utf8_like enc s : utf8_like enc s → encode enc s = Some (utf8_bytes s).
Proof.
  intros H. induction s as [|c s IH]; [done|].
  cbn [encode utf8_bytes].
  assert (Hs : utf8_like enc s).
  { destruct H as [?|[?|[? H]]]; [by left | by right; left |].
    right. right. split; [done|]. rewrite str_forall_cons in H.
    by apply andb_true_iff in H as [_ ?]. }
  rewrite (IH Hs).
  destruct H as [->|[->|[[-> | ->] H]]]; try done.
  - rewrite str_forall_cons in H. apply andb_true_iff in H as [Hc _].
    unfold is_low in Hc. unfold utf8_char. rewrite Hc. done.
  - rewrite str_forall_cons in H. apply andb_true_iff in H as [Hc _].
    unfold is_low in Hc. unfold utf8_char. rewrite Hc. done.
Qed.

Lemma utf8_decode_char c rest :
  utf8_decode (utf8_char c ++ rest)
  = (s ← utf8_decode rest; Ok (String c s)).
Proof. destruct c as [[] [] [] [] [] [] [] []]; reflexivity. Qed.

Lemma utf8_decode_bytes s : utf8_decode (utf8_bytes s) = Ok s.
Proof.
  induction s as [|c s IH]; [done|].
  cbn [utf8_bytes]. by rewrite utf8_decode_char, IH.
Qed.

Lemma decode_after_signature b : decode Utf8Sig (bom_utf8 ++ b) = utf8_decode b.
Proof. reflexivity. Qed.

Lemma decode_no_signature c b :
  c ≠ ascii_of_nat 239 → decode Utf8Sig (c :: b) = utf8_decode (c :: b).
Proof.
  intros Hc. unfold decode. destruct b as [|c1 [|c2 rest]]; [done..|].
  rewrite bool_decide_eq_false_2; [done|]. intros [= ? _ _]. done.
Qed.

Lemma read_dlg_utf8 content text :
  decode Utf8Sig content = Ok text →
  read_dlg content = Ok (Some (parse_dlg_text text, Utf8Sig)).
Proof. intros H. unfold read_dlg, COMMON_ENCODINGS. cbn [read_with]. by rewrite H. Qed.
Lemma str_forall_impl (p q : ascii → bool) s :
  (∀ c, p c = true → q c = true) → str_forall p s = true → str_forall q s = true.
Proof.
  intros Hpq. induction s as [|c s IH]; [done|]. rewrite !str_forall_cons.
  intros [Hc Hs]%andb_true_iff. by rewrite (Hpq c Hc), IH.
Qed.

Lemma str_forall_replace p a b s :
  p b = true → str_forall p s = true → str_forall p (str_replace a b s) = true.
Proof.
  intros Hb. induction s as [|c s IH]; [done|]. cbn [str_replace].
  rewrite !str_forall_cons. intros [Hc Hs]%andb_true_iff.
  rewrite IH by done. by destruct (Ascii.eqb c a); rewrite ?Hb, ?Hc.
Qed.

Lemma numeral_char_low c : numeral_char c = true → is_low c = true.
Proof.
  destruct c as [[] [] [] [] [] [] [] []]; vm_compute; intros H;
    try discriminate H; reflexivity.
Qed.

(** Every text of the row is made of code points below 128. *)
Definition dlg_ascii (r : DlgRow) : Prop :=
  Forall (λ s, str_forall is_low s = true) (text_fields r).

Lemma plain_values_low r :
  dlg_ascii r → Forall (λ s, str_forall is_low s = true) (plain_values r).
Proof.
  assert (Hnum : ∀ n, str_forall is_low (decimal_of_int n) = true).
  { intros n. eapply str_forall_impl; [apply numeral_char_low|].
    apply decimal_of_int_numeral. }
  unfold dlg_ascii, text_fields, plain_values. rewrite !Forall_cons.
  intros (? & ? & ? & ? & ? & ? & ? & ? & ? & ? & ? & _).
  repeat split; try done. destruct (next r); [apply Hnum | done].
Qed.

Lemma plain_line_low r : dlg_ascii r → str_forall is_low (plain_line r) = true.
Proof.
  intros H. apply plain_values_low in H. unfold plain_line.
  rewrite str_forall_app. apply andb_true_iff. split; [|done].
  induction H as [|v vs Hv _ IH]; [done|].
  rewrite fmap_cons, str_join_cons, str_forall_app, IH, andb_true_r.
  rewrite str_forall_cons, str_forall_app, str_forall_replace by done. done.
Qed.

Lemma plain_text_cons r rows :
  plain_text (r :: rows) = (plain_line r ++ plain_text rows)%string.
Proof. reflexivity. Qed.

Lemma plain_text_starts r rows : ∃ t, plain_text (r :: rows) = String "{" t.
Proof.
  rewrite plain_text_cons. unfold plain_line, plain_values.
  rewrite fmap_cons, str_join_cons. str_simpl. eauto.
Qed.

Lemma write_rows_utf8_like enc first rows file :
  Forall dlg_ints_ok rows → (∀ r, r ∈ rows → utf8_like enc (plain_line r)) →
  write_rows enc first rows file
  = (true, file ++ (if first then match rows with
                                  | [] => []
                                  | _ => signature enc
                                  end
                    else []) ++ utf8_bytes (plain_text rows)).
Proof.
  intros Hok. revert first file.
  induction Hok as [|r rows Hr _ IH]; intros first file Hlike.
  - cbn. destruct first; by rewrite !app_nil_r.
  - cbn [write_rows]. rewrite dlg_line_plain by done.
    rewrite encode_utf8_like by (apply Hlike; left).
    rewrite IH by (intros r' Hr'; apply Hlike; by right).
    rewrite plain_text_cons, utf8_bytes_app. cbn [app].
    by rewrite <- !app_assoc.
Qed.

(** C10, amended. [from_json_data] after [to_json_data] returns the same
    row list for every row list.  [write_dlg] succeeds and [read_dlg] of
    the file it wrote returns the rows in the same order with the same
    [index], [next] and texts, with [parent_npc] reset to null (the file
    has no column for it), and names ["utf-8-sig"] as the encoding,
    provided that no text holds a closing square bracket or a line break,
    that no number has more than 4300 digits, and that the file was written
    as ["utf-8-sig"] or ["utf-8"], or as ["cp1251"] or ["latin-1"] with
    texts of code points below 128 only. *)
Theorem storage_round_trips (rows : list DlgRow) :
  from_json_data (to_json_data rows) = Ok (Some rows) ∧
  (∀ enc,
     Forall dlg_safe rows → Forall dlg_ints_ok rows →
     enc = Utf8Sig ∨ enc = Utf8 ∨
       ((enc = Cp1251 ∨ enc = Latin1) ∧ Forall dlg_ascii rows) →
     ∃ content,
       write_dlg rows enc = (true, content) ∧
       read_dlg content
       = Ok (Some ((λ r, set_parent_npc r None) <$> rows, Utf8Sig))).
Proof.
  split.
  - unfold from_json_data, to_json_data. cbn [jget String.eqb Ascii.eqb Bool.eqb].
    assert (H : ∀ acc, for_each (λ acc node_data,
                row ← row_of_json node_data;
                Ok (match row with Some r => acc ++ [r] | None => acc end))
              acc (node_to_json <$> rows) = Ok (acc ++ rows)).
    { induction rows as [|r rows IH]; intros acc; [by rewrite app_nil_r|].
      rewrite fmap_cons. cbn [for_each].
      assert (row_of_json (node_to_json r) = Ok (Some r)) as ->.
      { destruct r as [i m f n c a v1 v2 v3 v4 v5 v6 mk [p|]];
          destruct mk as [|x mk]; destruct n; reflexivity. }
      cbn [mbind result_bind]. rewrite IH. by rewrite <- app_assoc. }
    rewrite H. done.
  - intros enc Hsafe Hints Henc.
    assert (Hstor : Forall dlg_storable rows).
    { apply Forall_forall. intros r Hr. rewrite Forall_forall in Hsafe, Hints.
      split; auto. }
    assert (Hlike : ∀ r, r ∈ rows → utf8_like enc (plain_line r)).
    { intros r Hr. destruct Henc as [?|[?|[? Hasc]]]; [by left | by right; left |].
      right. right. split; [done|]. apply plain_line_low.
      rewrite Forall_forall in Hasc. by apply Hasc. }
    eexists. split.
    { unfold write_dlg. by apply write_rows_utf8_like. }
    rewrite <- (text_round_trip rows Hstor). apply read_dlg_utf8.
    cbn [app]. destruct rows as [|r rows]; [done|].
    destruct (plain_text_starts r rows) as (t & Ht).
    assert (Hdec : utf8_decode (utf8_bytes (plain_text (r :: rows)))
                   = Ok (plain_text (r :: rows))) by apply utf8_decode_bytes.
    destruct enc; cbn [signature]; try (by rewrite decode_after_signature);
      cbn [app]; rewrite Ht in *; cbn [utf8_bytes] in *;
      change (utf8_char "{") with ["{"%char] in *; cbn [app] in *;
      by rewrite decode_no_signature.
Qed.

Definition bracket_row : DlgRow :=
  mkDlgRow 1 "]" "" None "" "" "" "" "" "" "" "" "" None.

(** Two texts made of the code points 195 and 169, and of 233. *)
Definition two_byte_row : DlgRow :=
  mkDlgRow 1 (String (ascii_of_nat 195) (String (ascii_of_nat 169) ""))
    "" None "" "" "" "" "" "" "" "" "" None.

Definition one_char_row : DlgRow :=
  mkDlgRow 1 (String (ascii_of_nat 233) "") "" None "" "" "" "" "" "" "" "" "" None.

(** C10, as stated, fails: a closing square bracket in a text comes back
    from the file as a closing brace, and a parent does not come back.  It
    fails as well for a file written as UTF-16, which [read_dlg] decodes as
    ["utf-8-sig"] and finds no row in, and for a ["latin-1"] file whose
    bytes happen to be well-formed UTF-8. *)
Lemma dlg_round_trip_loses_bracket :
  (write_dlg [bracket_row] Utf8Sig).1 = true ∧
  (∃ rows', read_dlg (write_dlg [bracket_row] Utf8Sig).2 = Ok (Some (rows', Utf8Sig)) ∧
            rows' ≠ [bracket_row]) ∧
  (write_dlg [reply 2 1 (Some 1)] Utf8Sig).1 = true ∧
  read_dlg (write_dlg [reply 2 1 (Some 1)] Utf8Sig).2
  = Ok (Some ([reply 2 1 None], Utf8Sig)) ∧
  (write_dlg [npc_line 1] Utf16LE).1 = true ∧
  read_dlg (write_dlg [npc_line 1] Utf16LE).2 = Ok (Some ([], Utf8Sig)) ∧
  (write_dlg [two_byte_row] Latin1).1 = true ∧
  read_dlg (write_dlg [two_byte_row] Latin1).2 = Ok (Some ([one_char_row], Utf8Sig)).
Proof.
  split_and!; try (vm_compute; reflexivity).
  eexists. split; [vm_compute; reflexivity | discriminate].
Qed.

Lemma storage_round_trips_witness :
  ∃ content,
    write_dlg [npc_line 1; reply 2 1 (Some 1)] Utf8 = (true, content) ∧
    read_dlg content = Ok (Some ([npc_line 1; reply 2 1 None], Utf8Sig)).
Proof.
  apply (proj2 (storage_round_trips [npc_line 1; reply 2 1 (Some 1)]) Utf8).
  - repeat constructor.
  - apply Forall_cons. split; [split; [vm_compute; reflexivity | by intros n [=]]|].
    apply Forall_cons. split; [|by apply Forall_nil].
    split; [vm_compute; reflexivity | intros n [= <-]; vm_compute; reflexivity].
  - right. by left.
Defined.

(** ** Breadth-first traversal

    [_build_components] and [_bfs_layers] run the same queue discipline: an
    index is marked visited when it is enqueued, and the successors of a
    popped index are enqueued when not yet visited.  [traverse] is that
    loop over an arbitrary successor function ([None] where the source
    would raise [KeyError]); it returns the visited set and the queue
    entries in the order they were popped. *)

Fixpoint traverse (succ : Z → option (list Z)) (fuel : nat) (dq : list (Z * Z))
    (visited : gset Z) : result (gset Z * list (Z * Z)) :=
  match fuel with
  | O => OutOfFuel
  | S fuel =>
      match dq with
      | [] => Ok (visited, [])
      | (idx, lvl) :: dq =>
          match succ idx with
          | None => Raise KeyError
          | Some chs =>
              let st := foldl (visit_new_at (lvl + 1)) (visited, dq) chs in
              '(visited, out) ← traverse succ fuel st.2 st.1;
              Ok (visited, (idx, lvl) :: out)
          end
      end
  end.

Lemma visit_new_at_eq lvl visited dq ch :
  visit_new_at lvl (visited, dq) ch
  = if bool_decide (ch ∈ visited) then (visited, dq)
    else ({[ch]} ∪ visited, dq ++ [(ch, lvl)]).
Proof. reflexivity. Qed.

Lemma visit_fold lvl visited dq chs :
  ∃ N, (foldl (visit_new_at lvl) (visited, dq) chs).2 = dq ++ with_level lvl N ∧
       (foldl (visit_new_at lvl) (visited, dq) chs).1 = visited ∪ list_to_set N ∧
       NoDup N ∧ (∀ x, x ∈ N ↔ x ∈ chs ∧ x ∉ visited).
Proof.
  revert visited dq. induction chs as [|ch chs IH]; intros visited dq.
  - exists []. simpl. rewrite app_nil_r. split_and!; [done|set_solver|constructor|].
    intros x. rewrite elem_of_nil. tauto.
  - cbn [foldl]. rewrite visit_new_at_eq. case_bool_decide as Hch.
    + destruct (IH visited dq) as (N & H2 & H1 & Hnd & HN).
      exists N. split_and!; [done..|]. intros x. rewrite HN, elem_of_cons.
      split; [tauto|]. intros [[->|?] ?]; [done|tauto].
    + destruct (IH ({[ch]} ∪ visited) (dq ++ [(ch, lvl)])) as (N & H2 & H1 & Hnd & HN).
      exists (ch :: N). split_and!.
      * rewrite H2, <- app_assoc. done.
      * rewrite H1. set_solver.
      * constructor; [|done]. rewrite HN. set_solver.
      * intros x. rewrite !elem_of_cons, HN. split.
        -- intros [->|[? ?]]; [tauto|]. split; [tauto|set_solver].
        -- intros [[->|?] ?]; [tauto|]. destruct (decide (x = ch)); [tauto|].
           right. split; [done|set_solver].
Qed.

Lemma size_difference_new (U V : gset Z) (N : list Z) :
  NoDup N → (∀ x, x ∈ N → x ∈ U ∧ x ∉ V) →
  (size (U ∖ (V ∪ list_to_set N)) + length N = size (U ∖ V))%nat.
Proof.
  revert V. induction N as [|x N IH]; intros V Hnd HN.
  - simpl. rewrite Nat.add_0_r. f_equal. set_solver.
  - apply NoDup_cons in Hnd as [Hx Hnd].
    destruct (HN x) as [HxU HxV]; [left|].
    assert (U ∖ V = {[x]} ∪ U ∖ (V ∪ {[x]})) as ->.
    { apply set_eq. intros y. rewrite elem_of_union, !elem_of_difference,
        elem_of_union, elem_of_singleton.
      destruct (decide (y = x)) as [->|]; tauto. }
    rewrite (size_union (C:=gset Z) {[x]} (U ∖ (V ∪ {[x]}))) by set_solver.
    rewrite size_singleton.
    rewrite <- (IH (V ∪ {[x]})); [|done|].
    + cbn [list_to_set length].
      assert (V ∪ ({[x]} ∪ list_to_set N) = V ∪ {[x]} ∪ list_to_set N) as ->
        by set_solver. lia.
    + intros y Hy. destruct (HN y) as [? ?]; [by right|]. split; [done|].
      rewrite elem_of_union, elem_of_singleton. intros [?|Heq]; [done|].
      subst y. done.
Qed.

Section traverse_facts.
Context (succ : Z → option (list Z)) (U : gset Z).
Hypothesis succ_closed :
  ∀ i, i ∈ U → ∃ chs, succ i = Some chs ∧ ∀ j, j ∈ chs → j ∈ U.

(** The edge relation the traversal follows. *)
Definition follows (i j : Z) : Prop := ∃ chs, succ i = Some chs ∧ j ∈ chs.

Lemma traverse_spec fuel dq visited :
  (∀ x, x ∈ dq.*1 → x ∈ U) →
  (length dq + size (U ∖ visited) < fuel)%nat →
  ∃ visited' out N,
    traverse succ fuel dq visited = Ok (visited', out) ∧
    out.*1 ≡ₚ dq.*1 ++ N ∧ NoDup N ∧
    visited' = visited ∪ list_to_set N ∧
    (∀ x, x ∈ N → x ∈ U ∧ x ∉ visited) ∧
    (∀ i j, i ∈ out.*1 → follows i j → j ∈ visited') ∧
    (∀ x, x ∈ out.*1 → ∃ s, s ∈ dq.*1 ∧ rtc follows s x).
Proof.
  revert dq visited. induction fuel as [|fuel IH]; intros dq visited HdqU Hfuel; [lia|].
  destruct dq as [|[idx lvl] dq]; cbn [traverse].
  - exists visited, [], []. split_and!; try done.
    + constructor.
    + set_solver.
    + intros x ?%elem_of_nil. done.
    + intros i j ?%elem_of_nil. done.
    + intros x ?%elem_of_nil. done.
  - destruct (succ_closed idx) as (chs & Hsucc & HchsU); [apply HdqU; left|].
    rewrite Hsucc.
    destruct (visit_fold (lvl + 1) visited dq chs) as (N1 & Hq & Hv & Hnd1 & HN1).
    rewrite Hq, Hv.
    assert (HN1U : ∀ x, x ∈ N1 → x ∈ U ∧ x ∉ visited).
    { intros x Hx. apply HN1 in Hx as [? ?]. auto. }
    pose proof (size_difference_new U visited N1 Hnd1 HN1U) as Hsize.
    destruct (IH (dq ++ with_level (lvl + 1) N1) (visited ∪ list_to_set N1))
      as (visited' & out & N2 & Htr & Hperm & Hnd2 & Hv' & HN2 & Hclosed & Hreach).
    { intros x. rewrite fmap_app, elem_of_app. unfold with_level.
      rewrite <- list_fmap_compose. intros [Hx|Hx].
      - apply HdqU. by right.
      - apply list_elem_of_fmap in Hx as (y & -> & Hy). by apply HN1U. }
    { rewrite length_app. unfold with_level. rewrite length_fmap.
      cbn [length] in Hfuel. lia. }
    rewrite Htr. cbn [mbind result_bind].
    assert (Hfst : (dq ++ with_level (lvl + 1) N1).*1 = dq.*1 ++ N1).
    { rewrite fmap_app. f_equal. unfold with_level. rewrite <- list_fmap_compose.
      clear. induction N1; simpl; by f_equal. }
    rewrite Hfst in *.
    exists visited', ((idx, lvl) :: out), (N1 ++ N2). split_and!.
    + done.
    + cbn [fmap list_fmap fst]. rewrite Hperm. simpl. by rewrite <- app_assoc.
    + apply NoDup_app. split_and!; [done| |done].
      intros x Hx1 Hx2. apply HN2 in Hx2 as [_ Hx2]. set_solver.
    + rewrite Hv'. set_solver.
    + intros x [Hx|Hx]%elem_of_app; [by apply HN1U|].
      apply HN2 in Hx as [? ?]. split; [done|set_solver].
    + intros i j. cbn [fmap list_fmap fst]. rewrite elem_of_cons.
      intros [->|Hi] Hij; [|by eapply Hclosed].
      destruct Hij as (chs' & Hs' & Hj). rewrite Hsucc in Hs'.
      injection Hs' as <-. rewrite Hv'. destruct (decide (j ∈ visited)); [set_solver|].
      assert (j ∈ N1) by (apply HN1; auto). set_solver.
    + intros x. cbn [fmap list_fmap fst]. rewrite elem_of_cons.
      intros [->|Hx]; [exists idx; split; [left|done]|].
      destruct (Hreach x Hx) as (s & Hs & Hrtc).
      apply elem_of_app in Hs as [Hs|Hs].
      * exists s. split; [by right|done].
      * exists idx. split; [left|]. eapply rtc_l; [|done].
        exists chs. split; [done|]. by apply HN1.
Qed.
End traverse_facts.

Lemma for_each_invariant {A S} (body : S → A → result S) (I : list A → S → Prop)
    (xs : list A) (st : S) :
  I [] st →
  (∀ done x st, I done st → x ∈ xs →
     ∃ st', body st x = Ok st' ∧ I (done ++ [x]) st') →
  ∃ st', for_each body st xs = Ok st' ∧ I xs st'.
Proof.
  intros H0 Hstep.
  assert (H : ∀ done rest st, done ++ rest = xs → I done st →
            ∃ st', for_each body st rest = Ok st' ∧ I xs st').
  { intros done rest. revert done. induction rest as [|x rest IH]; intros done st0 Heq HI.
    - rewrite app_nil_r in Heq. subst. by exists st0.
    - destruct (Hstep done x st0 HI) as (st1 & Hb & HI1).
      { rewrite <- Heq. apply elem_of_app. right. left. }
      cbn [for_each]. rewrite Hb. cbn [mbind result_bind].
      apply (IH (done ++ [x])); [by rewrite <- app_assoc | done]. }
  by apply (H [] xs).
Qed.


Lemma nodes_map_of_dom rows : dom (nodes_map_of rows) = list_to_set (index <$> rows).
Proof.
  unfold nodes_map_of.
  assert (H : ∀ (l : list DlgRow) (m : gmap Z DlgRow),
    dom (foldl (λ m r, <[index r := r]> m) m l) = dom m ∪ list_to_set (index <$> l)).
  { induction l as [|r l IH]; intros m; cbn [foldl].
    - simpl. set_solver.
    - rewrite IH, dom_insert_L, fmap_cons. cbn [list_to_set]. set_solver. }
  rewrite H, dom_empty_L. set_solver.
Qed.

Lemma children_of_elem rows i j :
  j ∈ children_of rows i ↔ ∃ x, x ∈ rows ∧ parent_npc x = Some i ∧ index x = j.
Proof.
  unfold children_of. rewrite list_elem_of_fmap. split.
  - intros (x & -> & [Hp Hx]%list_elem_of_filter). eauto.
  - intros (x & Hx & Hp & <-). exists x. split; [done|].
    by apply list_elem_of_filter.
Qed.

(** [node.next] when it is an index of the collection. *)
Definition next_targets (nodes_map : gmap Z DlgRow) (node : DlgRow) : list Z :=
  match next node with
  | Some n => if bool_decide (n ∈ dom nodes_map) then [n] else []
  | None => []
  end.

(** The successors [_build_components] enqueues for a popped index. *)
Definition comp_succ (rows : list DlgRow) (nodes_map : gmap Z DlgRow) (idx : Z)
  : option (list Z) :=
  match nodes_map !! idx with
  | Some node => Some (children_of rows idx ++ next_targets nodes_map node)
  | None => None
  end.

Lemma visit_new_proj lvl (st : gset Z * list (Z * Z)) chs :
  foldl visit_new (st.1, st.2.*1) chs
  = ((foldl (visit_new_at lvl) st chs).1, (foldl (visit_new_at lvl) st chs).2.*1).
Proof.
  revert st. induction chs as [|ch chs IH]; intros [v dq]; [done|].
  cbn [foldl]. rewrite <- IH. f_equal.
  unfold visit_new, visit_new_at. cbn [fst snd]. case_bool_decide; [done|].
  cbn [fst snd]. by rewrite fmap_app.
Qed.

Lemma components_bfs_traverse fuel rows nm dq visited comp :
  components_bfs fuel rows nm dq.*1 visited comp
  = '(v, out) ← traverse (comp_succ rows nm) fuel dq visited;
    Ok (v, comp ∪ list_to_set out.*1).
Proof.
  revert dq visited comp. induction fuel as [|fuel IH]; intros dq visited comp; [done|].
  destruct dq as [|[idx lvl] dq]; cbn [components_bfs traverse fmap list_fmap fst].
  - cbn [mbind result_bind]. f_equal. f_equal. set_solver.
  - unfold comp_succ. destruct (nm !! idx) as [node|]; [|done].
    set (st := foldl (visit_new_at (lvl + 1)) (visited, dq) _).
    assert (Hst : match next node with
              | Some n => if bool_decide (n ∈ dom nm)
                          then visit_new (foldl visit_new (visited, dq.*1)
                                            (children_of rows idx)) n
                          else foldl visit_new (visited, dq.*1) (children_of rows idx)
              | None => foldl visit_new (visited, dq.*1) (children_of rows idx)
              end = (st.1, st.2.*1)).
    { unfold st. rewrite <- (visit_new_proj (lvl + 1) (visited, dq)).
      rewrite foldl_app. unfold next_targets.
      destruct (next node); [case_bool_decide|]; done. }
    rewrite Hst. cbn [fst snd]. rewrite IH.
    destruct (traverse _ _ _ _) as [[v out]| |]; cbn [mbind result_bind]; [|done..].
    f_equal. f_equal. cbn [fmap list_fmap fst list_to_set]. set_solver.
Qed.

Lemma size_list_to_set_le (l : list Z) :
  (size (list_to_set (C:=gset Z) l) ≤ length l)%nat.
Proof.
  induction l as [|x l IH]; cbn [list_to_set length].
  - by rewrite size_empty.
  - rewrite size_union_alt, size_singleton.
    pose proof (subseteq_size (list_to_set (C:=gset Z) l ∖ {[x]}) (list_to_set l))
      as Hle.
    assert (list_to_set (C:=gset Z) l ∖ {[x]} ⊆ list_to_set l) as Hsub by set_solver.
    specialize (Hle Hsub). lia.
Qed.


Section components.
Context (rows : list DlgRow).
Let nm := nodes_map_of rows.
Let U : gset Z := list_to_set (index <$> rows).

Lemma comp_succ_closed i :
  i ∈ U → ∃ chs, comp_succ rows nm i = Some chs ∧ ∀ j, j ∈ chs → j ∈ U.
Proof.
  intros Hi. unfold U in Hi. rewrite <- nodes_map_of_dom in Hi.
  apply elem_of_dom in Hi as [node Hnode]. unfold comp_succ. fold nm in Hnode.
  rewrite Hnode. eexists. split; [done|].
  intros j [Hj|Hj]%elem_of_app.
  - apply children_of_elem in Hj as (x & Hx & _ & <-).
    apply elem_of_list_to_set, list_elem_of_fmap. by exists x.
  - unfold next_targets in Hj. destruct (next node); [|by apply elem_of_nil in Hj].
    case_bool_decide as Hn; [|by apply elem_of_nil in Hj].
    apply list_elem_of_singleton in Hj as ->. unfold nm in Hn.
    by rewrite nodes_map_of_dom in Hn.
Qed.

(** What the outer loop of [_build_components] maintains after the rows
    [done]. *)
Definition components_inv (done : list DlgRow) (st : gset Z * list (gset Z)) : Prop :=
  st.1 = ⋃ st.2 ∧ st.1 ⊆ U ∧
  (∀ r, r ∈ done → index r ∈ st.1) ∧
  (∀ a b ca cb, st.2 !! a = Some ca → st.2 !! b = Some cb → a ≠ b → ca ## cb) ∧
  (∀ a ca i j, st.2 !! a = Some ca → i ∈ ca → follows (comp_succ rows nm) i j →
     ∃ b cb, (b ≤ a)%nat ∧ st.2 !! b = Some cb ∧ j ∈ cb) ∧
  (∀ a ca, st.2 !! a = Some ca →
     ∃ seed, seed ∈ ca ∧ ∀ j, j ∈ ca → rtc (follows (comp_succ rows nm)) seed j).

Lemma components_step_inv done r st :
  components_inv done st → r ∈ rows →
  ∃ st', components_step rows nm st r = Ok st' ∧ components_inv (done ++ [r]) st'.
Proof.
  destruct st as [visited cs]. intros (Hv & HU & Hdone & Hdisj & Hclosed & Hreach) Hr.
  cbn [fst snd] in *. unfold components_step. case_bool_decide as Hvis.
  - eexists. split; [done|]. split_and!; try done.
    intros r' [?| ->%list_elem_of_singleton]%elem_of_app; auto.
  - assert (HrU : index r ∈ U).
    { apply elem_of_list_to_set, list_elem_of_fmap. by exists r. }
    change [index r] with ([(index r, 0)].*1).
    rewrite components_bfs_traverse.
    destruct (traverse_spec (comp_succ rows nm) U comp_succ_closed (bfs_fuel rows)
                [(index r, 0)] ({[index r]} ∪ visited))
      as (v' & out & N & Htr & Hperm & Hnd & Hv' & HN & Hcl & Hre).
    { intros x ->%list_elem_of_singleton. done. }
    { assert (Hs1 : (size (U ∖ ({[index r]} ∪ visited)) ≤ size U)%nat)
        by (apply subseteq_size; set_solver).
      assert (Hs2 : (size U ≤ length rows)%nat).
      { unfold U. rewrite <- (length_fmap index rows). apply size_list_to_set_le. }
      unfold bfs_fuel. cbn [length]. lia. }
    rewrite Htr. cbn [mbind result_bind]. eexists. split; [done|].
    cbn [fmap list_fmap fst] in Hperm.
    assert (Hcomp : ∅ ∪ list_to_set out.*1 = ({[index r]} ∪ list_to_set N : gset Z)).
    { rewrite Hperm. cbn [app list_to_set]. set_solver. }
    rewrite Hcomp. set (comp := {[index r]} ∪ list_to_set N).
    assert (Hfresh : comp ## visited).
    { unfold comp. apply elem_of_disjoint. intros x [Hx|Hx]%elem_of_union Hxv.
      - apply elem_of_singleton in Hx as ->. done.
      - apply elem_of_list_to_set, HN in Hx as [_ Hx]. set_solver. }
    split_and!; cbn [fst snd].
    + rewrite union_list_app_L, <- Hv, Hv'. cbn [union_list foldr].
      unfold comp. set_solver.
    + rewrite Hv'. intros x [[Hx|Hx]%elem_of_union|Hx]%elem_of_union.
      * apply elem_of_singleton in Hx as ->. done.
      * by apply HU.
      * apply elem_of_list_to_set, HN in Hx as [? _]. done.
    + intros r' [?| ->%list_elem_of_singleton]%elem_of_app; rewrite Hv'.
      * apply elem_of_union_l, elem_of_union_r. auto.
      * set_solver.
    + assert (Hold : ∀ a ca, cs !! a = Some ca → ca ## comp).
      { intros a ca Ha. apply elem_of_disjoint. intros x Hx Hxc.
        apply (elem_of_disjoint comp visited) with x; [done..|].
        rewrite Hv. apply elem_of_union_list. exists ca. split; [|done].
        by eapply list_elem_of_lookup_2. }
      intros a b ca cb Ha Hb Hab.
      apply lookup_app_Some in Ha as [Ha|[Hla Ha]];
        apply lookup_app_Some in Hb as [Hb|[Hlb Hb]].
      * by eapply Hdisj.
      * apply list_lookup_singleton_Some in Hb as [_ <-]. by eapply Hold.
      * apply list_lookup_singleton_Some in Ha as [_ <-]. symmetry. by eapply Hold.
      * apply list_lookup_singleton_Some in Ha as [Ha _].
        apply list_lookup_singleton_Some in Hb as [Hb _]. lia.
    + intros a ca i j Ha Hi Hij.
      apply lookup_app_Some in Ha as [Ha|[Hla Ha]].
      * destruct (Hclosed a ca i j Ha Hi Hij) as (b & cb & Hba & Hb & Hj).
        exists b, cb. split_and!; [done| |done]. by apply lookup_app_l_Some.
      * apply list_lookup_singleton_Some in Ha as [Ha <-].
        assert (Hjv : j ∈ v').
        { apply (Hcl i j); [|done]. rewrite Hperm. cbn [app].
          unfold comp in Hi. apply elem_of_union in Hi as [Hi|Hi].
          - apply elem_of_singleton in Hi as ->. left.
          - right. by apply elem_of_list_to_set in Hi. }
        rewrite Hv' in Hjv.
        destruct (decide (j ∈ comp)) as [Hjc|Hjc].
        -- exists a, comp. split_and!; [done| |done].
           apply lookup_app_Some. right. split; [done|].
           by replace (a - length cs)%nat with 0%nat by lia.
        -- assert (Hjvis : j ∈ visited) by (unfold comp in Hjc; set_solver).
           rewrite Hv in Hjvis. apply elem_of_union_list in Hjvis as (cb & Hcb & Hj).
           apply list_elem_of_lookup in Hcb as [b Hb].
           exists b, cb. split_and!; [|by apply lookup_app_l_Some|done].
           apply lookup_lt_Some in Hb. lia.
    + intros a ca Ha. apply lookup_app_Some in Ha as [Ha|[Hla Ha]]; [by eapply Hreach|].
      apply list_lookup_singleton_Some in Ha as [Ha <-].
      exists (index r). split; [unfold comp; set_solver|].
      intros j Hj. destruct (Hre j) as (s & ->%list_elem_of_singleton & Hrtc); [|done].
      rewrite Hperm. cbn [app]. unfold comp in Hj.
      apply elem_of_union in Hj as [Hj|Hj].
      * apply elem_of_singleton in Hj as ->. left.
      * right. by apply elem_of_list_to_set in Hj.
Qed.

Lemma components_loop_spec :
  ∃ st, for_each (components_step rows nm) (∅, []) rows = Ok st ∧
        components_inv rows st.
Proof.
  apply for_each_invariant.
  - split_and!; cbn [fst snd];
      first [done | set_solver | by intros r ?%elem_of_nil].
  - intros done x st HI Hx. by apply components_step_inv.
Qed.
End components.










(** ** Layering of the layered layout *)

Lemma dd_get_append layers l i l' :
  dd_get (dd_append layers l i) l'
  = if bool_decide (l = l') then dd_get layers l ++ [i] else dd_get layers l'.
Proof. unfold dd_get, dd_append. rewrite od_get_set. by case_bool_decide. Qed.

Lemma dd_append_keys_NoDup layers l i :
  NoDup (od_keys layers) → NoDup (od_keys (dd_append layers l i)).
Proof. apply od_keys_set_NoDup. Qed.

Lemma dd_append_keys_elem layers l i k :
  k ∈ od_keys (dd_append layers l i) ↔ k = l ∨ k ∈ od_keys layers.
Proof. apply od_keys_set_elem. Qed.

Lemma children_of_length rows idx : (length (children_of rows idx) ≤ length rows)%nat.
Proof. unfold children_of. rewrite length_fmap. apply length_filter. Qed.

Lemma size_keys_NoDup (l : list Z) :
  NoDup l → size (list_to_set (C:=gset Z) l) = length l.
Proof. apply size_list_to_set. Qed.

(** The layers hold, level by level, the indices of [node_to_layer] in
    the order they were assigned. *)
Definition layers_agree (layers : list (Z * list Z)) (node_to_layer : list (Z * Z))
  : Prop :=
  NoDup (od_keys layers) ∧
  (∀ l, dd_get layers l = (filter (λ e, e.2 = l) node_to_layer).*1) ∧
  (∀ l, l ∈ od_keys layers ↔ ∃ i, (i, l) ∈ node_to_layer).

Lemma layers_agree_assign layers ntl idx level :
  layers_agree layers ntl →
  layers_agree (dd_append layers level idx) (ntl ++ [(idx, level)]).
Proof.
  intros (Hnd & Hget & Hkeys). split_and!.
  - by apply dd_append_keys_NoDup.
  - intros l. rewrite dd_get_append, filter_app, fmap_app, !Hget.
    rewrite filter_cons, filter_nil. cbn [snd].
    case_bool_decide; subst.
    + by rewrite decide_True.
    + rewrite decide_False by done. by rewrite app_nil_r.
  - intros l. rewrite dd_append_keys_elem, Hkeys. split.
    + intros [->|(i & Hi)].
      * exists idx. apply elem_of_app. right. left.
      * exists i. apply elem_of_app. by left.
    + intros (i & [Hi|Hi%list_elem_of_singleton]%elem_of_app).
      * right. eauto.
      * left. congruence.
Qed.

Definition index_set (rows : list DlgRow) : gset Z := list_to_set (index <$> rows).

Lemma index_set_elem rows r : r ∈ rows → index r ∈ index_set rows.
Proof. intros Hr. apply elem_of_list_to_set, list_elem_of_fmap. by exists r. Qed.

Lemma index_set_size rows : (size (index_set rows) ≤ length rows)%nat.
Proof.
  unfold index_set. rewrite <- (length_fmap index rows). apply size_list_to_set_le.
Qed.

Lemma index_set_nonempty rows x : x ∈ index_set rows → (0 < length rows)%nat.
Proof. destruct rows; [set_solver | cbn [length]; lia]. Qed.

Definition layering_measure (rows : list DlgRow) (q ntl : list (Z * Z)) : nat :=
  (length q
   + (length rows + 1) * size (index_set rows ∖ list_to_set (od_keys ntl)))%nat.

Section layering.
Context (rows : list DlgRow).
Local Abbreviation nm := (nodes_map_of rows).
Local Abbreviation U := (index_set rows).
Local Abbreviation L := (length rows).

Lemma layering_loop_spec fuel q layers ntl :
  (∀ x, x ∈ q.*1 → x ∈ U) →
  NoDup (od_keys ntl) → (∀ k, k ∈ od_keys ntl → k ∈ U) →
  layers_agree layers ntl →
  (layering_measure rows q ntl < fuel)%nat →
  ∃ layers' more,
    layering_loop fuel rows nm q layers ntl = Ok (layers', ntl ++ more) ∧
    NoDup (od_keys (ntl ++ more)) ∧
    (∀ k, k ∈ od_keys (ntl ++ more) → k ∈ U) ∧
    layers_agree layers' (ntl ++ more).
Proof.
  revert q layers ntl.
  induction fuel as [|fuel IH]; intros q layers ntl HqU Hnd HkU Hagree Hfuel; [lia|].
  destruct q as [|[node_idx level] q]; cbn [layering_loop].
  - exists layers, []. rewrite app_nil_r. done.
  - destruct (od_mem ntl node_idx) eqn:Hmem.
    + apply IH; try done.
      * intros x Hx. apply HqU. by right.
      * unfold layering_measure in *. cbn [length] in Hfuel. lia.
    + apply od_mem_false in Hmem.
      assert (HidxU : node_idx ∈ U) by (apply HqU; left).
      assert (is_Some (nm !! node_idx)) as [node Hnode].
      { apply elem_of_dom. by rewrite nodes_map_of_dom. }
      rewrite Hnode, (od_set_fresh ntl) by done.
      set (q' := if negb (is_pc_reply node) then _ else _).
      assert (Hq' : (∀ x, x ∈ q'.*1 → x ∈ U) ∧ (length q' ≤ length q + L)%nat).
      { unfold q'. destruct (is_pc_reply node); cbn [negb].
        - destruct (next node) as [n|].
          + destruct (bool_decide (n ≠ 0) && bool_decide (n ∈ dom nm)) eqn:Hc.
            * apply andb_true_iff in Hc as [_ Hn%bool_decide_eq_true].
              split.
              -- intros x. rewrite fmap_app, elem_of_app. intros [Hx|Hx].
                 ++ apply HqU. by right.
                 ++ apply list_elem_of_singleton in Hx as ->.
                    by rewrite nodes_map_of_dom in Hn.
              -- rewrite length_app. cbn [length].
                 pose proof (index_set_nonempty rows node_idx HidxU). lia.
            * split; [intros x Hx; apply HqU; by right | lia].
          + split; [intros x Hx; apply HqU; by right | lia].
        - split.
          + intros x. rewrite fmap_app, elem_of_app. unfold with_level.
            rewrite <- list_fmap_compose. intros [Hx|Hx]; [apply HqU; by right|].
            apply list_elem_of_fmap in Hx as (y & -> & Hy). cbn.
            apply children_of_elem in Hy as (r & Hr & _ & <-).
            by apply index_set_elem.
          + rewrite length_app. unfold with_level. rewrite length_fmap.
            pose proof (children_of_length rows node_idx). lia. }
      destruct Hq' as [Hq'U Hq'len].
      assert (Hkeys : od_keys (ntl ++ [(node_idx, level)]) = od_keys ntl ++ [node_idx]).
      { unfold od_keys. by rewrite fmap_app. }
      destruct (IH q' (dd_append layers level node_idx) (ntl ++ [(node_idx, level)]))
        as (layers' & more & Hloop & Hnd' & HkU' & Hagree'); try done.
      * rewrite Hkeys. apply NoDup_app. split_and!; [done| |apply NoDup_singleton].
        intros x Hx ->%list_elem_of_singleton. done.
      * rewrite Hkeys. intros k [Hk| ->%list_elem_of_singleton]%elem_of_app; auto.
      * by apply layers_agree_assign.
      * unfold layering_measure in *. rewrite Hkeys, list_to_set_app_L.
        cbn [list_to_set length] in *.
        assert (Hsz : (size (U ∖ (list_to_set (od_keys ntl) ∪ ({[node_idx]} ∪ ∅)))
                       + 1 = size (U ∖ list_to_set (od_keys ntl)))%nat).
        { pose proof (size_difference_new U (list_to_set (od_keys ntl)) [node_idx])
            as Hs. cbn [list_to_set length] in Hs. apply Hs.
          - apply NoDup_singleton.
          - intros x ->%list_elem_of_singleton. split; [done|].
            by rewrite elem_of_list_to_set. }
        nia.
      * exists layers', ((node_idx, level) :: more).
        rewrite <- app_assoc in Hloop, Hnd', HkU', Hagree'. done.
Qed.

Lemma layering_seeds_in x : x ∈ (layering_seeds rows).*1 → x ∈ U.
Proof.
  unfold layering_seeds. rewrite <- list_fmap_compose.
  intros (r & -> & [_ Hr]%list_elem_of_filter)%list_elem_of_fmap.
  by apply index_set_elem.
Qed.

Lemma layering_spec :
  ∃ layers ntl,
    layering rows = Ok (layers, ntl) ∧
    NoDup (od_keys ntl) ∧ (∀ k, k ∈ od_keys ntl → k ∈ U) ∧
    layers_agree layers ntl.
Proof.
  unfold layering.
  destruct (layering_loop_spec (layering_fuel rows) (layering_seeds rows) [] [])
    as (layers & more & Hloop & Hnd & HU & Hagree).
  - apply layering_seeds_in.
  - constructor.
  - intros k ?%elem_of_nil. done.
  - split_and!; [constructor|done|].
    intros l. split; [intros ?%elem_of_nil; done|].
    intros (i & ?%elem_of_nil). done.
  - unfold layering_measure, layering_fuel.
    assert ((length (layering_seeds rows) ≤ L)%nat).
    { unfold layering_seeds. rewrite length_fmap. apply length_filter. }
    assert ((size (U ∖ list_to_set (od_keys (V:=Z) [])) ≤ L)%nat).
    { transitivity (size U); [apply subseteq_size; set_solver | apply index_set_size]. }
    nia.
  - exists layers, more. done.
Qed.
End layering.

(** ** Per-root traversal of the forest layout *)

(** All indices held by the layers of one component. *)
Definition flat (layers : list (Z * list Z)) : list Z := concat layers.*2.

Lemma dd_append_cons k v layers l i :
  dd_append ((k, v) :: layers) l i
  = if bool_decide (k = l) then (l, v ++ [i]) :: layers
    else (k, v) :: dd_append layers l i.
Proof.
  unfold dd_append. cbn [od_get od_set]. by case_bool_decide.
Qed.

Lemma flat_dd_append layers l i : flat (dd_append layers l i) ≡ₚ i :: flat layers.
Proof.
  induction layers as [|[k v] layers IH].
  - done.
  - rewrite dd_append_cons. case_bool_decide; unfold flat in *; cbn [fmap list_fmap snd concat].
    + rewrite <- app_assoc. cbn [app]. by rewrite Permutation_middle.
    + rewrite IH. by rewrite Permutation_middle.
Qed.

(** [layers[lvl].append(idx)] for the entries popped, in order. *)
Definition collect_layers (layers : list (Z * list Z)) (out : list (Z * Z))
  : list (Z * list Z) :=
  foldl (λ ly e, dd_append ly e.2 e.1) layers out.

Lemma collect_layers_flat layers out :
  flat (collect_layers layers out) ≡ₚ flat layers ++ out.*1.
Proof.
  revert layers. induction out as [|[i l] out IH]; intros layers.
  - by rewrite app_nil_r.
  - cbn [collect_layers foldl fmap list_fmap fst snd].
    fold (collect_layers (dd_append layers l i) out).
    rewrite IH, flat_dd_append. cbn [app]. apply Permutation_middle.
Qed.

Lemma collect_layers_keys layers out :
  NoDup (od_keys layers) → NoDup (od_keys (collect_layers layers out)).
Proof.
  revert layers. induction out as [|[i l] out IH]; intros layers Hnd; [done|].
  apply IH. by apply dd_append_keys_NoDup.
Qed.

(** The successors [_bfs_layers] enqueues for a popped index. *)
Definition tree_succ (rows : list DlgRow) (nodes_map : gmap Z DlgRow) (idx : Z)
  : option (list Z) :=
  match nodes_map !! idx with
  | Some node =>
      Some (if negb (is_pc_reply node) then children_of rows idx
            else next_targets nodes_map node)
  | None => None
  end.

Lemma bfs_layers_traverse fuel rows nm dq visited comp_nodes layers :
  bfs_layers_loop fuel rows nm dq visited comp_nodes layers
  = '(v, out) ← traverse (tree_succ rows nm) fuel dq visited;
    Ok (v, comp_nodes ∪ list_to_set out.*1, collect_layers layers out).
Proof.
  revert dq visited comp_nodes layers.
  induction fuel as [|fuel IH]; intros dq visited comp_nodes layers; [done|].
  destruct dq as [|[idx lvl] dq]; cbn [bfs_layers_loop traverse].
  - cbn [mbind result_bind]. f_equal. f_equal. f_equal. set_solver.
  - unfold tree_succ. destruct (nm !! idx) as [node|]; [|done].
    set (chs := if negb (is_pc_reply node) then children_of rows idx
                else next_targets nm node).
    match goal with
    | |- bfs_layers_loop _ _ _ ?s.2 ?s.1 _ _ = _ =>
        assert (s = foldl (visit_new_at (lvl + 1)) (visited, dq) chs) as ->
    end.
    { unfold chs. destruct (is_pc_reply node); cbn [negb]; [|done].
      unfold next_targets. destruct (next node); [case_bool_decide|]; done. }
    rewrite IH.
    destruct (traverse _ _ _ _) as [[v out]| |]; cbn [mbind result_bind]; [|done..].
    f_equal. f_equal. f_equal. cbn [fmap list_fmap fst list_to_set]. set_solver.
Qed.

Lemma foldl_invariant {A B} (P : A → Prop) (f : A → B → A) (l : list B) (a : A) :
  P a → (∀ a x, x ∈ l → P a → P (f a x)) → P (foldl f a l).
Proof.
  revert a. induction l as [|x l IH]; intros a Ha Hf; [done|].
  cbn [foldl]. apply IH.
  - apply Hf; [left | done].
  - intros a' y Hy. apply Hf. by right.
Qed.

Lemma incoming_to_npc_keys rows k :
  k ∈ od_keys (incoming_to_npc rows) → k ∈ index_set rows.
Proof.
  unfold incoming_to_npc. revert k.
  apply (foldl_invariant (λ d : list (Z * Z), ∀ k, k ∈ od_keys d → k ∈ index_set rows)).
  - apply (foldl_invariant (λ d : list (Z * Z), ∀ k, k ∈ od_keys d → k ∈ index_set rows)).
    + intros k ?%elem_of_nil. done.
    + intros d r Hr Hd k. destruct (is_pc_reply r); cbn [negb]; [apply Hd|].
      rewrite od_keys_set_elem. intros [->|?]; [by apply index_set_elem | auto].
  - intros d r Hr Hd k. destruct (next r) as [n|]; [|apply Hd].
    destruct (od_get d n) as [cnt|] eqn:Hn; [|apply Hd].
    rewrite od_keys_set_elem. intros [->|?]; [|auto].
    apply Hd, od_get_is_Some. by rewrite Hn.
Qed.

Lemma tree_roots_in rows x : x ∈ tree_roots rows → x ∈ index_set rows.
Proof.
  unfold tree_roots.
  destruct ((filter _ (incoming_to_npc rows)).*1) as [|k ks] eqn:Hroots.
  - destruct (filter _ rows) as [|r rest] eqn:Hf; [by intros ?%elem_of_nil|].
    intros ->%list_elem_of_singleton. apply index_set_elem.
    assert (r ∈ filter (λ r, is_pc_reply r = false) rows) as Hr by (rewrite Hf; left).
    by apply list_elem_of_filter in Hr as [_ ?].
  - rewrite <- Hroots. intros (e & -> & [_ He]%list_elem_of_filter)%list_elem_of_fmap.
    apply incoming_to_npc_keys. unfold od_keys. apply list_elem_of_fmap. by exists e.
Qed.

Section forest.
Context (rows : list DlgRow).
Local Abbreviation nm := (nodes_map_of rows).
Local Abbreviation U := (index_set rows).

Lemma tree_succ_closed i :
  i ∈ U → ∃ chs, tree_succ rows nm i = Some chs ∧ ∀ j, j ∈ chs → j ∈ U.
Proof.
  intros Hi. unfold index_set in Hi. rewrite <- nodes_map_of_dom in Hi.
  apply elem_of_dom in Hi as [node Hnode]. unfold tree_succ.
  rewrite Hnode. eexists. split; [done|].
  intros j Hj. destruct (is_pc_reply node); cbn [negb] in Hj.
  - unfold next_targets in Hj. destruct (next node); [|by apply elem_of_nil in Hj].
    case_bool_decide as Hn; [|by apply elem_of_nil in Hj].
    apply list_elem_of_singleton in Hj as ->.
    by rewrite nodes_map_of_dom in Hn.
  - apply children_of_elem in Hj as (x & Hx & _ & <-). by apply index_set_elem.
Qed.

(** What the two loops of step 2 maintain after the indices [done]. *)
Definition forest_inv (done : list Z) (st : forest) : Prop :=
  st.1.1 ⊆ U ∧
  (∀ x, x ∈ done → x ∈ st.1.1) ∧
  length st.1.2 = length st.2 ∧
  Forall (λ ly, NoDup (od_keys ly)) st.2 ∧
  NoDup (concat (flat <$> st.2)) ∧
  (∀ x, x ∈ concat (flat <$> st.2) ↔ x ∈ st.1.1).

Lemma forest_inv_forget done st : forest_inv done st → forest_inv [] st.
Proof.
  intros (H1 & _ & H3). split; [done|]. split; [|done].
  by intros ? ?%elem_of_nil.
Qed.

Lemma bfs_if_unvisited_inv done idx st :
  forest_inv done st → idx ∈ U →
  ∃ st', bfs_if_unvisited rows nm st idx = Ok st' ∧
         forest_inv (done ++ [idx]) st' ∧ st.1.1 ⊆ st'.1.1.
Proof.
  destruct st as [[visited comps] lbc].
  intros (HU & Hdone & Hlen & Hkeys & Hnd & Hflat) HidxU. cbn [fst snd] in *.
  unfold bfs_if_unvisited. cbn [fst snd]. case_bool_decide as Hvis.
  - eexists. split; [done|]. split; [|done]. split_and!; try done.
    intros x [?| ->%list_elem_of_singleton]%elem_of_app; auto.
  - unfold _bfs_layers. rewrite bfs_layers_traverse.
    destruct (traverse_spec (tree_succ rows nm) U tree_succ_closed (bfs_fuel rows)
                [(idx, 0)] ({[idx]} ∪ visited))
      as (v' & out & N & Htr & Hperm & HndN & Hv' & HN & _ & _).
    { intros x ->%list_elem_of_singleton. done. }
    { assert (Hs1 : (size (U ∖ ({[idx]} ∪ visited)) ≤ size U)%nat)
        by (apply subseteq_size; set_solver).
      pose proof (index_set_size rows). unfold bfs_fuel. cbn [length]. lia. }
    rewrite Htr. cbn [mbind result_bind]. eexists. split; [done|].
    cbn [fmap list_fmap fst app] in Hperm.
    assert (Hnew : flat (collect_layers [] out) ≡ₚ idx :: N).
    { by rewrite collect_layers_flat, <- Hperm. }
    assert (HidxN : idx ∉ N).
    { intros Hin. apply HN in Hin as [_ Hin]. set_solver. }
    split; [|cbn [fst snd]; set_solver].
    split_and!; cbn [fst snd].
    + rewrite Hv'. intros x [[Hx|Hx]%elem_of_union|Hx]%elem_of_union.
      * apply elem_of_singleton in Hx as ->. done.
      * by apply HU.
      * apply elem_of_list_to_set, HN in Hx as [? _]. done.
    + intros x [?| ->%list_elem_of_singleton]%elem_of_app; rewrite Hv'.
      * apply elem_of_union_l, elem_of_union_r. auto.
      * set_solver.
    + rewrite !length_app. cbn [length]. lia.
    + apply Forall_app. split; [done|]. constructor; [|constructor].
      apply collect_layers_keys. constructor.
    + rewrite fmap_app, concat_app. cbn [fmap list_fmap concat].
      rewrite app_nil_r, Hnew. apply NoDup_app. split_and!; [done| |].
      * intros x Hx [->|HxN]%elem_of_cons.
        -- apply Hflat in Hx. done.
        -- apply Hflat in Hx. apply HN in HxN as [_ HxN]. set_solver.
      * by constructor.
    + intros x. rewrite fmap_app, concat_app. cbn [fmap list_fmap concat].
      rewrite app_nil_r, elem_of_app, Hnew, Hflat, Hv', elem_of_cons.
      rewrite !elem_of_union, elem_of_singleton, elem_of_list_to_set. tauto.
Qed.

Lemma tree_components_spec :
  ∃ visited components layers_by_comp,
    tree_components rows = Ok (visited, components, layers_by_comp) ∧
    length components = length layers_by_comp ∧
    Forall (λ ly, NoDup (od_keys ly)) layers_by_comp ∧
    NoDup (concat (flat <$> layers_by_comp)) ∧
    (∀ x, x ∈ concat (flat <$> layers_by_comp) ↔ x ∈ U).
Proof.
  unfold tree_components.
  destruct (for_each_invariant (bfs_if_unvisited rows nm)
              (λ _ st, forest_inv [] st) (tree_roots rows) (∅, [], []))
    as (st1 & Hloop1 & Hinv1).
  { split_and!; cbn [fst snd]; try done; try constructor;
      try (by intros ? ?%elem_of_nil).
    all: change (concat (flat <$> [])) with (@nil Z); set_solver. }
  { intros done x st Hinv Hx.
    destruct (bfs_if_unvisited_inv [] x st Hinv) as (st' & Hb & Hinv' & _).
    - by apply tree_roots_in.
    - exists st'. split; [done|]. by eapply forest_inv_forget. }
  rewrite Hloop1. cbn [mbind result_bind].
  destruct (for_each_invariant (bfs_if_unvisited rows nm) forest_inv
              (index <$> rows) st1 Hinv1)
    as ([[visited comps] lbc] & Hloop2 & (HU & Hdone & Hlen & Hkeys & Hnd & Hflat)).
  { intros done x st Hinv Hx.
    destruct (bfs_if_unvisited_inv done x st Hinv) as (st' & Hb & Hinv' & _).
    - by apply elem_of_list_to_set.
    - by exists st'. }
  rewrite Hloop2. exists visited, comps, lbc. cbn [fst snd] in *.
  split_and!; try done.
  intros x. rewrite Hflat. split; [apply HU|].
  intros Hx. apply Hdone. by apply elem_of_list_to_set in Hx.
Qed.
End forest.

Lemma index_set_iff rows x : x ∈ index_set rows ↔ x ∈ index <$> rows.
Proof. apply elem_of_list_to_set. Qed.


Lemma layers_agree_elem layers ntl i l :
  NoDup (od_keys ntl) → layers_agree layers ntl →
  (i ∈ dd_get layers l ↔ od_get ntl i = Some l).
Proof.
  intros Hnd (_ & Hget & _). rewrite Hget, list_elem_of_fmap. split.
  - intros ([i' l'] & -> & [Hl He]%list_elem_of_filter). cbn in *. subst.
    by apply od_get_NoDup.
  - intros Hi%od_get_elem_of. exists (i, l). split; [done|].
    by apply list_elem_of_filter.
Qed.



(** ** Ordering step *)

Lemma insert_by_perm {A K} (leb : K → K → bool) (key : A → K) x l :
  insert_by leb key x l ≡ₚ x :: l.
Proof.
  induction l as [|y l IH]; cbn [insert_by]; [done|].
  destruct (leb (key x) (key y)); [done|]. rewrite IH. apply Permutation_swap.
Qed.

Lemma sort_by_perm {A K} (leb : K → K → bool) (key : A → K) l :
  sort_by leb key l ≡ₚ l.
Proof.
  induction l as [|x l IH]; [done|].
  cbn [sort_by foldr]. fold (sort_by leb key l). by rewrite insert_by_perm, IH.
Qed.

(** Two layer dictionaries with the same levels in the same order and, level
    by level, the same nodes up to their order. *)
Definition same_layers (ly ly' : list (Z * list Z)) : Prop :=
  Forall2 (λ a b, a.1 = b.1 ∧ a.2 ≡ₚ b.2) ly ly'.

Lemma same_layers_refl ly : same_layers ly ly.
Proof. induction ly; constructor; auto. Qed.

Lemma same_layers_trans ly1 ly2 ly3 :
  same_layers ly1 ly2 → same_layers ly2 ly3 → same_layers ly1 ly3.
Proof.
  intros H12. revert ly3. induction H12 as [|a b l1 l2 [Hk Hv] _ IH];
    intros ly3 H23; inversion H23 as [|? c ? l3 [Hk' Hv'] ?]; subst; constructor.
  - split; [congruence | by rewrite Hv].
  - by apply IH.
Qed.

Lemma same_layers_keys ly ly' : same_layers ly ly' → od_keys ly' = od_keys ly.
Proof.
  unfold od_keys. induction 1 as [|a b l1 l2 [Hk _] _ IH]; [done|].
  cbn [fmap list_fmap]. by rewrite IH, Hk.
Qed.

Lemma same_layers_get ly ly' k : same_layers ly ly' → dd_get ly' k ≡ₚ dd_get ly k.
Proof.
  unfold dd_get. induction 1 as [|[k1 v1] [k2 v2] l1 l2 [Hk Hv] _ IH]; [done|].
  cbn in Hk, Hv. subst. cbn [od_get]. by case_bool_decide.
Qed.

Lemma same_layers_flat ly ly' : same_layers ly ly' → flat ly' ≡ₚ flat ly.
Proof.
  unfold flat. induction 1 as [|a b l1 l2 [_ Hv] _ IH]; [done|].
  cbn [fmap list_fmap concat]. by rewrite IH, Hv.
Qed.

Lemma same_layers_set ly k v :
  k ∈ od_keys ly → v ≡ₚ dd_get ly k → same_layers ly (od_set ly k v).
Proof.
  unfold od_keys, dd_get. induction ly as [|[k0 v0] ly IH]; cbn [fmap list_fmap fst].
  - by intros ?%elem_of_nil.
  - intros Hk Hv. cbn [od_set od_get] in *. case_bool_decide; subst.
    + constructor; [done | apply same_layers_refl].
    + constructor; [done|]. apply IH; [|done].
      apply elem_of_cons in Hk as [?|?]; done.
Qed.

Lemma flat_elem ly x :
  NoDup (od_keys ly) → (x ∈ flat ly ↔ ∃ k, k ∈ od_keys ly ∧ x ∈ dd_get ly k).
Proof.
  unfold flat, od_keys, dd_get. induction ly as [|[k0 v0] ly IH].
  - intros _. cbn. split; [by intros ?%elem_of_nil | by intros (? & ?%elem_of_nil & _)].
  - cbn [fmap list_fmap fst snd concat od_get]. intros [Hk0 Hnd]%NoDup_cons.
    rewrite elem_of_app, (IH Hnd). split.
    + intros [Hx|(k & Hk & Hx)].
      * exists k0. split; [left|]. by rewrite bool_decide_eq_true_2.
      * exists k. split; [by right|]. rewrite bool_decide_eq_false_2; [done|].
        by intros ->.
    + intros (k & Hk & Hx). case_bool_decide; subst; [by left|].
      right. exists k. split; [|done]. apply elem_of_cons in Hk as [?|?]; done.
Qed.

Lemma fill_barycenters_ok bary nm layers level :
  (∀ i, i ∈ dd_get layers level → i ∈ dom nm) →
  ∃ b, fill_barycenters bary nm layers level = Ok b.
Proof.
  unfold fill_barycenters. generalize (∅ : gmap Z Q).
  induction (dd_get layers level) as [|i l IH]; intros b Hdom; [by eexists|].
  cbn [for_each]. destruct (nm !! i) as [node|] eqn:Hnode.
  - cbn [mbind result_bind]. apply IH. intros j Hj. apply Hdom. by right.
  - exfalso. assert (Hi : i ∈ dom nm) by (apply Hdom; left).
    apply elem_of_dom in Hi as [? Hi]. congruence.
Qed.

Lemma order_level_spec bary nm layers level :
  level ∈ od_keys layers →
  (∀ i, i ∈ dd_get layers level → i ∈ dom nm) →
  ∃ layers2, order_level bary nm layers level = Ok layers2 ∧
             same_layers layers layers2.
Proof.
  intros Hlevel Hdom. unfold order_level.
  destruct (fill_barycenters_ok bary nm layers level Hdom) as [b ->].
  cbn [mbind result_bind]. eexists. split; [done|].
  apply same_layers_set; [done | apply sort_by_perm].
Qed.

Lemma sorted_keys_perm {V} (d : list (Z * V)) : sorted_keys d ≡ₚ od_keys d.
Proof. apply sort_by_perm. Qed.

Lemma order_layers_spec bary nm layers :
  NoDup (od_keys layers) →
  (∀ i, i ∈ flat layers → i ∈ dom nm) →
  ∃ layers2, order_layers bary nm layers = Ok layers2 ∧ same_layers layers layers2.
Proof.
  intros Hnd Hdom. unfold order_layers.
  apply (for_each_invariant _ (λ _ ly, same_layers layers ly)).
  - apply same_layers_refl.
  - intros _ _ ly Hly _.
    destruct (for_each_invariant (order_level bary nm)
                (λ _ ly1, same_layers layers ly1) (sorted_keys ly) ly Hly)
      as (ly1 & Hfor & Hly1); [|by exists ly1].
    intros _ level ly1 Hly1 Hlevel.
    destruct (order_level_spec bary nm ly1 level) as (ly2 & Ho & H12).
    + rewrite (same_layers_keys _ _ Hly1), <- (same_layers_keys _ _ Hly).
      by rewrite <- sorted_keys_perm.
    + intros i Hi. apply Hdom. rewrite (same_layers_get _ _ _ Hly1) in Hi.
      apply flat_elem; [done|]. exists level. split; [|done].
      rewrite <- (same_layers_keys _ _ Hly). by rewrite <- sorted_keys_perm.
    + exists ly2. split; [done|]. by eapply same_layers_trans.
Qed.

(** ** Geometry of the placements

    A point is read along the two axes of the layout: the secondary axis,
    along which the nodes of one layer are spread, and the primary axis,
    along which the layers follow each other. *)

Definition sp (swap : bool) (a : point) : Q * Q :=
  if swap then (a.2, a.1) else a.

(** The point [place_row] stores. *)
Definition cell (swap : bool) (s p : Q) : point :=
  if swap then (p, s) else (s, p).

Lemma sp_cell swap s p : sp swap (cell swap s p) = (s, p).
Proof. by destruct swap. Qed.

(** Two nodes of extent [es] by [ep] anchored at [a] and [b] do not
    overlap. *)
Definition sep (es ep : Q) (a b : Q * Q) : Prop :=
  (a.1 + es <= b.1 ∨ b.1 + es <= a.1 ∨ a.2 + ep <= b.2 ∨ b.2 + ep <= a.2)%Q.

Lemma sep_sym es ep a b : sep es ep a b → sep es ep b a.
Proof. unfold sep. tauto. Qed.

Section separation.
Context (swap : bool) (es ep : Q).

Definition sep_map (G : gmap Z point) : Prop :=
  ∀ i j a b, i ≠ j → G !! i = Some a → G !! j = Some b →
             sep es ep (sp swap a) (sp swap b).

Definition sep_cross (G1 G2 : gmap Z point) : Prop :=
  ∀ i j a b, G1 !! i = Some a → G2 !! j = Some b →
             sep es ep (sp swap a) (sp swap b).

Lemma sep_map_empty : sep_map ∅.
Proof. intros i j a b _ H. by rewrite lookup_empty in H. Qed.

Lemma sep_map_union G1 G2 :
  sep_map G1 → sep_map G2 → sep_cross G1 G2 → sep_map (G2 ∪ G1).
Proof.
  intros H1 H2 H12 i j a b Hij Ha Hb.
  apply lookup_union_Some_raw in Ha as [Ha|[_ Ha]];
    apply lookup_union_Some_raw in Hb as [Hb|[_ Hb]].
  - by eapply H2.
  - apply sep_sym. by eapply H12.
  - by eapply H12.
  - by eapply H1.
Qed.

Lemma sep_cross_union_l G1 G2 G :
  sep_cross G1 G → sep_cross G2 G → sep_cross (G2 ∪ G1) G.
Proof.
  intros H1 H2 i j a b Ha Hb.
  apply lookup_union_Some_raw in Ha as [Ha|[_ Ha]]; eauto.
Qed.
End separation.

Lemma enumerate_snoc {A} (l : list A) x :
  enumerate (l ++ [x]) = enumerate l ++ [(Z.of_nat (length l), x)].
Proof.
  unfold enumerate. rewrite imap_app. cbn [imap]. by rewrite Nat.add_0_r.
Qed.

(** The placements of one row of nodes: the node at rank [i] of [ordered]
    stands at [start + i * step] on the secondary axis and at [other] on
    the primary axis. *)
Definition row_group (swap : bool) (step : Z) (start other : Q)
    (ordered : list Z) (G : gmap Z point) : Prop :=
  dom G = list_to_set ordered ∧
  ∀ k a, G !! k = Some a →
    ∃ i : nat, ordered !! i = Some k ∧
               a = cell swap (start + inject_Z (Z.of_nat i * step))%Q other.

Lemma place_row_spec step start other swap positions ordered :
  ∃ G, place_row step start other swap positions ordered = G ∪ positions ∧
       row_group swap step start other ordered G.
Proof.
  unfold place_row, row_group.
  induction ordered as [|x l IH] using rev_ind.
  - exists ∅. split_and!.
    + cbn. by rewrite (left_id_L ∅ (∪)).
    + by rewrite dom_empty_L.
    + intros k a H. by rewrite lookup_empty in H.
  - destruct IH as (G & HG & Hdom & Hlook).
    rewrite enumerate_snoc, foldl_app, HG. cbn [foldl fst snd].
    exists (<[x := cell swap (start + inject_Z (Z.of_nat (length l) * step))%Q other]> G).
    split_and!.
    + rewrite insert_union_l. by destruct swap.
    + rewrite dom_insert_L, Hdom, list_to_set_app_L. cbn [list_to_set]. set_solver.
    + intros k a. rewrite lookup_insert. case_decide as Hk.
      * intros [= <-]. subst k. exists (length l). split; [|done].
        by rewrite lookup_app_r, Nat.sub_diag.
      * intros (i & Hi & ->)%Hlook. exists i. split; [|done].
        by apply lookup_app_l_Some.
Qed.

Lemma row_group_sep swap es ep step start other ordered G :
  (0 <= es)%Q → (es <= inject_Z step)%Q →
  row_group swap step start other ordered G → sep_map swap es ep G.
Proof.
  intros Hes Hstep [_ Hlook] i j a b Hij Ha Hb.
  apply Hlook in Ha as (n & Hn & ->). apply Hlook in Hb as (m & Hm & ->).
  rewrite !sp_cell. unfold sep. cbn [fst snd].
  assert (Hstep0 : (0 ≤ step)%Z).
  { rewrite Zle_Qle. eapply Qle_trans; [apply Hes | apply Hstep]. }
  destruct (Nat.lt_trichotomy n m) as [Hlt|[Heq|Hgt]].
  - left. assert (Hz : (Z.of_nat n * step + step ≤ Z.of_nat m * step)%Z) by nia.
    rewrite Zle_Qle, inject_Z_plus in Hz. lra.
  - subst m. congruence.
  - right. left.
    assert (Hz : (Z.of_nat m * step + step ≤ Z.of_nat n * step)%Z) by nia.
    rewrite Zle_Qle, inject_Z_plus in Hz. lra.
Qed.


(** ** Placement of the forest layout *)

Lemma max_from_ge x l : x ≤ max_from x l ∧ ∀ y, y ∈ l → y ≤ max_from x l.
Proof.
  unfold max_from. revert x. induction l as [|z l IH]; intros x; cbn [foldl].
  - split; [lia | by intros y ?%elem_of_nil].
  - destruct (IH (x `max` z)) as [H1 H2]. split; [lia|].
    intros y [->|Hy]%elem_of_cons; [lia | auto].
Qed.

Lemma min_from_le x l : min_from x l ≤ x ∧ ∀ y, y ∈ l → min_from x l ≤ y.
Proof.
  unfold min_from. revert x. induction l as [|z l IH]; intros x; cbn [foldl].
  - split; [lia | by intros y ?%elem_of_nil].
  - destruct (IH (x `min` z)) as [H1 H2]. split; [lia|].
    intros y [->|Hy]%elem_of_cons; [lia | auto].
Qed.

Lemma inject_Z_sub (a b : Z) : (inject_Z (a - b) == inject_Z a - inject_Z b)%Q.
Proof.
  unfold Z.sub. rewrite inject_Z_plus, inject_Z_opp. reflexivity.
Qed.

Lemma inject_Z_add (a b : Z) : (inject_Z (a + b) == inject_Z a + inject_Z b)%Q.
Proof. by rewrite inject_Z_plus. Qed.

Section tree_geometry.
Context (orientation : string) (node_w node_h h_gap v_gap : Z) (es ep : Q).
Local Abbreviation swap := (negb (String.eqb orientation "vertical")).
Local Abbreviation step := (node_w + h_gap).
Local Abbreviation stepp := (node_h + v_gap).
Hypothesis es_nonneg : (0 <= es)%Q.
Hypothesis ep_nonneg : (0 <= ep)%Q.
Hypothesis es_step : (es <= inject_Z step)%Q.
Hypothesis ep_step : (ep <= inject_Z stepp)%Q.
Hypothesis h_gap_nonneg : 0 ≤ h_gap.
Hypothesis v_gap_nonneg : 0 ≤ v_gap.

Lemma step_nonneg : 0 ≤ step.
Proof. rewrite Zle_Qle. eapply Qle_trans; [apply es_nonneg | apply es_step]. Qed.

Lemma stepp_nonneg : 0 ≤ stepp.
Proof. rewrite Zle_Qle. eapply Qle_trans; [apply ep_nonneg | apply ep_step]. Qed.

(** The placements of the levels [ls] of one component. *)
Definition levels_group (layers : list (Z * list Z)) (comp_w min_lvl : Z)
    (cur row_off : Q) (ls : list Z) (G : gmap Z point) : Prop :=
  (∀ k, k ∈ dom G ↔ ∃ l, l ∈ ls ∧ k ∈ dd_get layers l) ∧
  sep_map swap es ep G ∧
  ∀ k a, G !! k = Some a →
    ∃ l, l ∈ ls ∧
      (sp swap a).2 = (row_off + inject_Z ((l - min_lvl) * stepp))%Q ∧
      (cur <= (sp swap a).1)%Q ∧
      ((sp swap a).1 + inject_Z step <= cur + inject_Z comp_w)%Q.

Lemma tree_levels_spec layers comp_w min_lvl cur row_off ls positions :
  NoDup ls →
  (∀ l, l ∈ ls → Z.of_nat (length (dd_get layers l)) * step ≤ comp_w) →
  ∃ G,
    foldl (tree_place_level orientation node_w node_h h_gap v_gap layers comp_w
             min_lvl cur row_off) positions ls = G ∪ positions ∧
    levels_group layers comp_w min_lvl cur row_off ls G.
Proof.
  pose proof step_nonneg as Hstep. pose proof stepp_nonneg as Hstepp.
  revert positions. induction ls as [|l ls IH]; intros positions Hnd Hlen.
  - exists ∅. split; [cbn; by rewrite (left_id_L ∅ (∪))|]. split_and!.
    + intros k. rewrite dom_empty_L. split; [set_solver|].
      by intros (l & ?%elem_of_nil & _).
    + apply sep_map_empty.
    + intros k a H. by rewrite lookup_empty in H.
  - apply NoDup_cons in Hnd as [Hl Hnd]. cbn [foldl].
    unfold tree_place_level at 2.
    set (indices := dd_get layers l).
    set (start := (cur + inject_Z (comp_w - Z.of_nat (length indices) * step) / 2)%Q).
    set (primary := (row_off + inject_Z ((l - min_lvl) * stepp))%Q).
    destruct (place_row_spec step start primary swap positions indices)
      as (G1 & -> & Hrow).
    destruct (IH (G1 ∪ positions)) as (G2 & -> & Hdom2 & Hsep2 & Hbox2); [done| |].
    { intros l' Hl'. apply Hlen. by right. }
    exists (G2 ∪ G1). split; [by rewrite (assoc_L (∪))|].
    assert (Hbox1 : ∀ k a, G1 !! k = Some a →
      (sp swap a).2 = primary ∧ (cur <= (sp swap a).1)%Q ∧
      ((sp swap a).1 + inject_Z step <= cur + inject_Z comp_w)%Q).
    { intros k a Ha. destruct Hrow as [_ Hlook].
      apply Hlook in Ha as (i & Hi & ->). rewrite sp_cell. cbn [fst snd].
      split; [done|]. apply lookup_lt_Some in Hi. fold indices in Hi.
      assert (Hn : Z.of_nat (length indices) * step ≤ comp_w) by (apply Hlen; left).
      assert (H1 : (0 ≤ comp_w - Z.of_nat (length indices) * step)%Z) by lia.
      assert (H2 : (0 ≤ Z.of_nat i * step)%Z) by nia.
      assert (H3 : (Z.of_nat i * step + step ≤ Z.of_nat (length indices) * step)%Z)
        by nia.
      rewrite Zle_Qle in H1, H2, H3. rewrite inject_Z_plus in H3.
      pose proof (inject_Z_sub comp_w (Z.of_nat (length indices) * step)) as H4.
      change (inject_Z 0) with 0%Q in *. unfold start, Qdiv.
      change (/ 2)%Q with (1 # 2)%Q. split; lra. }
    split_and!.
    + intros k. rewrite dom_union_L, elem_of_union, Hdom2.
      destruct Hrow as [-> _]. rewrite elem_of_list_to_set. split.
      * intros [(l' & Hl' & Hk)|Hk]; [exists l'; split; [by right|done]|].
        exists l. split; [left|done].
      * intros (l' & [->|Hl']%elem_of_cons & Hk); [by right|]. left. eauto.
    + apply sep_map_union; [by eapply row_group_sep|done|].
      intros i j a b Ha Hb. apply Hbox1 in Ha as (Ha & _).
      apply Hbox2 in Hb as (l' & Hl' & Hb & _).
      unfold sep. rewrite Ha, Hb. unfold primary.
      assert (l ≠ l') by (intros ->; done).
      destruct (Z.lt_trichotomy l l') as [Hlt|[?|Hgt]]; [|done|].
      * right. right. left.
        assert (Hz : ((l - min_lvl) * stepp + stepp ≤ (l' - min_lvl) * stepp)%Z) by nia.
        rewrite Zle_Qle, inject_Z_plus in Hz. lra.
      * right. right. right.
        assert (Hz : ((l' - min_lvl) * stepp + stepp ≤ (l - min_lvl) * stepp)%Z) by nia.
        rewrite Zle_Qle, inject_Z_plus in Hz. lra.
    + intros k a [Ha|[_ Ha]]%lookup_union_Some_raw.
      * apply Hbox2 in Ha as (l' & Hl' & Ha). exists l'. split; [by right|done].
      * apply Hbox1 in Ha. exists l. split; [left|done].
Qed.

(** A component record whose width and height cover its layers. *)
Definition comp_ok (ci : comp_info) : Prop :=
  NoDup (od_keys (ci_layers ci)) ∧ 0 ≤ ci_w ci ∧ 0 ≤ ci_h ci ∧
  ∀ l, l ∈ od_keys (ci_layers ci) →
    Z.of_nat (length (dd_get (ci_layers ci) l)) * step ≤ ci_w ci ∧
    min_level_of (ci_layers ci) ≤ l ∧
    (l - min_level_of (ci_layers ci) + 1) * stepp ≤ ci_h ci.

(** The placements of a group of components: where they are anchored. *)
Definition in_box (slo shi plo phi : Q) (G : gmap Z point) : Prop :=
  ∀ k a, G !! k = Some a →
    (slo <= (sp swap a).1)%Q ∧ ((sp swap a).1 + inject_Z step <= shi)%Q ∧
    (plo <= (sp swap a).2)%Q ∧ ((sp swap a).2 + inject_Z stepp <= phi)%Q.

Lemma tree_place_comp_spec row_off positions cur ci :
  comp_ok ci →
  ∃ G,
    tree_place_comp orientation node_w node_h h_gap v_gap row_off (positions, cur) ci
    = (G ∪ positions, (cur + inject_Z (ci_w ci + h_gap * 4))%Q) ∧
    dom G = list_to_set (flat (ci_layers ci)) ∧
    sep_map swap es ep G ∧
    in_box cur (cur + inject_Z (ci_w ci))%Q row_off (row_off + inject_Z (ci_h ci))%Q G.
Proof.
  pose proof stepp_nonneg as Hstepp.
  intros (Hnd & _ & _ & Hok). unfold tree_place_comp.
  destruct (tree_levels_spec (ci_layers ci) (ci_w ci) (min_level_of (ci_layers ci))
              cur row_off (sorted_keys (ci_layers ci)) positions)
    as (G & -> & Hdom & Hsep & Hbox).
  { by rewrite sorted_keys_perm. }
  { intros l Hl. rewrite sorted_keys_perm in Hl. by apply Hok. }
  exists G. split_and!; [done| |done|].
  - apply set_eq. intros k. rewrite Hdom, elem_of_list_to_set, flat_elem by done.
    split; intros (l & Hl & Hk); exists l; split; try done.
    + by rewrite <- sorted_keys_perm.
    + by rewrite sorted_keys_perm.
  - intros k a Ha. apply Hbox in Ha as (l & Hl & -> & Hs1 & Hs2).
    rewrite sorted_keys_perm in Hl. destruct (Hok l Hl) as (_ & Hmin & Hh).
    split_and!; [done..| |].
    + assert (Hz : (0 ≤ (l - min_level_of (ci_layers ci)) * stepp)%Z) by nia.
      rewrite Zle_Qle in Hz. change (inject_Z 0) with 0%Q in *. lra.
    + assert (Hz : ((l - min_level_of (ci_layers ci)) * stepp + stepp ≤ ci_h ci)%Z)
        by lia.
      rewrite Zle_Qle, inject_Z_plus in Hz. lra.
Qed.

(** The nodes of a list of components. *)
Definition comps_flat (cis : list comp_info) : list Z :=
  concat ((λ ci, flat (ci_layers ci)) <$> cis).

Lemma in_box_weaken slo shi plo phi slo' shi' plo' phi' G :
  in_box slo shi plo phi G →
  (slo' <= slo)%Q → (shi <= shi')%Q → (plo' <= plo)%Q → (phi <= phi')%Q →
  in_box slo' shi' plo' phi' G.
Proof.
  intros HG ? ? ? ? k a Ha. destruct (HG k a Ha) as (? & ? & ? & ?).
  split_and!; lra.
Qed.

Lemma in_box_union slo shi plo phi G1 G2 :
  in_box slo shi plo phi G1 → in_box slo shi plo phi G2 →
  in_box slo shi plo phi (G2 ∪ G1).
Proof.
  intros H1 H2 k a [Ha|[_ Ha]]%lookup_union_Some_raw; eauto.
Qed.

Lemma tree_row_spec row_off H row positions cur :
  Forall comp_ok row → (∀ ci, ci ∈ row → ci_h ci ≤ H) →
  ∃ G cur',
    foldl (tree_place_comp orientation node_w node_h h_gap v_gap row_off)
      (positions, cur) row = (G ∪ positions, cur') ∧
    sep_map swap es ep G ∧ (cur <= cur')%Q ∧
    in_box cur cur' row_off (row_off + inject_Z H)%Q G ∧
    dom G = list_to_set (comps_flat row).
Proof.
  revert positions cur. induction row as [|ci row IH]; intros positions cur Hok HH.
  - exists ∅, cur. split_and!.
    + cbn. by rewrite (left_id_L ∅ (∪)).
    + apply sep_map_empty.
    + lra.
    + intros k a Ha. by rewrite lookup_empty in Ha.
    + by rewrite dom_empty_L.
  - apply Forall_cons in Hok as [Hci Hok]. cbn [foldl].
    destruct (tree_place_comp_spec row_off positions cur ci Hci)
      as (G1 & -> & Hdom1 & Hsep1 & Hbox1).
    destruct (IH (G1 ∪ positions) (cur + inject_Z (ci_w ci + h_gap * 4))%Q)
      as (G2 & cur' & -> & Hsep2 & Hcur & Hbox2 & Hdom2); [done| |].
    { intros c Hc. apply HH. by right. }
    destruct Hci as (_ & Hw & Hh & _).
    assert (HciH : ci_h ci ≤ H) by (apply HH; left).
    assert (Hgap : (0 ≤ h_gap * 4)%Z) by lia.
    rewrite Zle_Qle in Hw, HciH, Hgap. change (inject_Z 0) with 0%Q in *.
    pose proof (inject_Z_add (ci_w ci) (h_gap * 4)) as Hadd.
    pose proof es_step as Hes.
    exists (G2 ∪ G1), cur'. split_and!.
    + by rewrite (assoc_L (∪)).
    + apply sep_map_union; [done..|].
      intros i j a b Ha Hb. apply Hbox1 in Ha as (_ & Ha & _).
      apply Hbox2 in Hb as (Hb & _). left. lra.
    + lra.
    + apply in_box_union.
      * eapply in_box_weaken; [exact Hbox1|lra..].
      * eapply in_box_weaken; [exact Hbox2|lra..].
    + rewrite dom_union_L, Hdom1, Hdom2. unfold comps_flat.
      rewrite fmap_cons. cbn [concat]. rewrite list_to_set_app_L. set_solver.
Qed.

Lemma tree_rows_spec fuel cols rest positions row_off :
  1 ≤ cols → Forall comp_ok rest → (length rest < fuel)%nat →
  ∃ G,
    tree_place_rows fuel orientation node_w node_h h_gap v_gap cols rest
      positions row_off = Ok (G ∪ positions) ∧
    sep_map swap es ep G ∧
    (∀ k a, G !! k = Some a → (row_off <= (sp swap a).2)%Q) ∧
    dom G = list_to_set (comps_flat rest).
Proof.
  intros Hcols. revert rest positions row_off.
  induction fuel as [|fuel IH]; intros rest positions row_off Hok Hfuel; [lia|].
  destruct rest as [|ci0 rest0] eqn:Hrest; cbn [tree_place_rows].
  - exists ∅. split_and!.
    + by rewrite (left_id_L ∅ (∪)).
    + apply sep_map_empty.
    + intros k a Ha. by rewrite lookup_empty in Ha.
    + by rewrite dom_empty_L.
  - assert (Hne : (0 < length rest)%nat) by (rewrite Hrest; cbn; lia).
    rewrite <- Hrest in *. clear Hrest.
    set (row := take (Z.to_nat cols) rest).
    set (row_height := match ci_h <$> row with
                       | [] => node_h + v_gap
                       | h :: hs => max_from h hs
                       end).
    assert (Hrow_ok : Forall comp_ok row) by by apply Forall_take.
    assert (HH : ∀ ci, ci ∈ row → ci_h ci ≤ row_height).
    { intros ci Hci. unfold row_height.
      assert (Hin : ci_h ci ∈ ci_h <$> row) by (apply list_elem_of_fmap; eauto).
      destruct (ci_h <$> row) as [|h hs]; [by apply elem_of_nil in Hin|].
      destruct (max_from_ge h hs) as [H1 H2].
      apply elem_of_cons in Hin as [->|Hin]; auto. }
    assert (HH0 : 0 ≤ row_height).
    { unfold row_height. destruct row as [|ci row'] eqn:Hr.
      - cbn. apply stepp_nonneg.
      - transitivity (ci_h ci).
        + apply Forall_cons in Hrow_ok as [(_ & _ & ? & _) _]. done.
        + rewrite fmap_cons. apply (proj1 (max_from_ge _ _)). }
    destruct (tree_row_spec row_off row_height row positions 0%Q Hrow_ok HH)
      as (G1 & cur' & -> & Hsep1 & _ & Hbox1 & Hdom1).
    destruct (IH (drop (Z.to_nat cols) rest) (G1 ∪ positions)
                (row_off + inject_Z (row_height + v_gap * 3))%Q)
      as (G2 & -> & Hsep2 & Hlow2 & Hdom2).
    { by apply Forall_drop. }
    { rewrite length_drop. assert (0 < Z.to_nat cols)%nat by lia. lia. }
    assert (Hgap : (0 ≤ v_gap * 3)%Z) by lia.
    rewrite Zle_Qle in HH0, Hgap. change (inject_Z 0) with 0%Q in *.
    pose proof (inject_Z_add row_height (v_gap * 3)) as Hadd.
    pose proof ep_step as Hep.
    exists (G2 ∪ G1). split_and!.
    + by rewrite (assoc_L (∪)).
    + apply sep_map_union; [done..|].
      intros i j a b Ha Hb. apply Hbox1 in Ha as (_ & _ & _ & Ha).
      apply Hlow2 in Hb. right. right. left. lra.
    + intros k a [Ha|[_ Ha]]%lookup_union_Some_raw.
      * apply Hlow2 in Ha. lra.
      * by apply Hbox1 in Ha as (_ & _ & ? & _).
    + rewrite dom_union_L, Hdom1, Hdom2.
      rewrite <- (take_drop (Z.to_nat cols) rest) at 2. unfold comps_flat, row.
      rewrite fmap_app, concat_app, list_to_set_app_L. set_solver.
Qed.
Lemma comp_info_of_layers comp_idx layers :
  ci_layers (comp_info_of node_w node_h h_gap v_gap comp_idx layers) = layers.
Proof. by destruct layers as [|[k l] rest]. Qed.

Lemma comp_info_of_ok comp_idx layers :
  NoDup (od_keys layers) →
  comp_ok (comp_info_of node_w node_h h_gap v_gap comp_idx layers).
Proof.
  pose proof step_nonneg as Hs. pose proof stepp_nonneg as Hp.
  intros Hnd. destruct layers as [|[k l] rest].
  - split_and!; cbn; [done..|]. intros l' Hl'. by apply elem_of_nil in Hl'.
  - unfold comp_ok, comp_info_of. cbn [ci_layers ci_w ci_h].
    destruct (max_from_ge (Z.of_nat (length l))
                ((λ e : Z * list Z, Z.of_nat (length e.2)) <$> rest)) as [M1 M2].
    destruct (max_from_ge k rest.*1) as [K1 K2].
    destruct (min_from_le k rest.*1) as [N1 N2].
    change (min_level_of ((k, l) :: rest)) with (min_from k rest.*1).
    split_and!; [done | nia | nia |].
    intros l' Hl'.
    assert (Hlen : Z.of_nat (length (dd_get ((k, l) :: rest) l')) ≤
              max_from (Z.of_nat (length l))
                ((λ e : Z * list Z, Z.of_nat (length e.2)) <$> rest)).
    { unfold dd_get. destruct (od_get _ l') as [v|] eqn:E; cbn [default].
      - apply od_get_elem_of in E. apply elem_of_cons in E as [E|E].
        + by injection E as -> ->.
        + apply M2. apply list_elem_of_fmap. by exists (l', v).
      - cbn. lia. }
    assert (Hk : min_from k rest.*1 ≤ l' ≤ max_from k rest.*1).
    { unfold od_keys in Hl'. rewrite fmap_cons in Hl'.
      apply elem_of_cons in Hl' as [->|Hl']; [cbn; lia|]. split; auto. }
    split_and!; [nia | lia | nia].
Qed.
End tree_geometry.

(** Step 3 of the forest layout: every component's layers are ordered. *)
Lemma order_components_spec bary (nm : gmap Z DlgRow) lbc :
  Forall (λ ly, NoDup (od_keys ly)) lbc →
  (∀ i, i ∈ concat (flat <$> lbc) → i ∈ dom nm) →
  ∃ lbc',
    for_each (λ acc layers,
        layers ← order_layers bary nm layers; Ok (acc ++ [layers])) [] lbc
    = Ok lbc' ∧ Forall2 same_layers lbc lbc'.
Proof.
  intros Hnd Hdom.
  apply (for_each_invariant _ (λ done acc, Forall2 same_layers done acc)).
  - constructor.
  - intros done ly acc Hacc Hly.
    destruct (order_layers_spec bary nm ly) as (ly2 & E & Hsame).
    { rewrite Forall_forall in Hnd. by apply Hnd. }
    { intros i Hi. apply Hdom. apply list_elem_of_In, in_concat.
      exists (flat ly). split; apply list_elem_of_In; [|done].
      apply list_elem_of_fmap. by exists ly. }
    exists (acc ++ [ly2]). split.
    + rewrite E. done.
    + apply Forall2_app; [done|]. by constructor.
Qed.

Lemma comp_infos_layers node_w node_h h_gap v_gap lbc :
  ci_layers <$>
    imap (λ i layers, comp_info_of node_w node_h h_gap v_gap (Z.of_nat i) layers) lbc
  = lbc.
Proof.
  apply list_eq. intros i. rewrite list_lookup_fmap, list_lookup_imap.
  destruct (lbc !! i); cbn; [|done]. by rewrite comp_info_of_layers.
Qed.

Lemma comps_flat_layers cis : comps_flat cis = concat (flat <$> (ci_layers <$> cis)).
Proof. unfold comps_flat. by rewrite <- list_fmap_compose. Qed.

Lemma same_layers_all_flat lbc lbc' :
  Forall2 same_layers lbc lbc' →
  concat (flat <$> lbc') ≡ₚ concat (flat <$> lbc).
Proof.
  induction 1 as [|ly ly' l l' H _ IH]; [done|].
  rewrite !fmap_cons. cbn [concat]. by rewrite IH, (same_layers_flat _ _ H).
Qed.

(** ** The forest layout as a whole *)

Lemma elem_of_concat_fmap {A B} (f : A → list B) (l : list A) (x : B) :
  x ∈ concat (f <$> l) ↔ ∃ y, y ∈ l ∧ x ∈ f y.
Proof.
  induction l as [|a l IH].
  - cbn. split; [by intros ?%elem_of_nil | by intros (y & ?%elem_of_nil & _)].
  - rewrite fmap_cons. cbn [concat]. rewrite elem_of_app, IH. split.
    + intros [H|(y & Hy & H)]; [exists a; split; [left|done] | exists y; split; [by right|done]].
    + intros (y & [->|Hy]%elem_of_cons & H); [by left | right; eauto].
Qed.

Lemma tree_levels_dom orientation node_w node_h h_gap v_gap layers comp_w min_lvl
    cur row_off ls positions :
  dom (foldl (tree_place_level orientation node_w node_h h_gap v_gap layers comp_w
                min_lvl cur row_off) positions ls)
  = dom positions ∪ list_to_set (concat (dd_get layers <$> ls)).
Proof.
  revert positions. induction ls as [|l ls IH]; intros positions; cbn [foldl].
  - cbn. set_solver.
  - rewrite IH. unfold tree_place_level.
    match goal with
    | |- context [place_row ?a ?b ?c ?d ?e ?f] =>
        destruct (place_row_spec a b c d e f) as (G & -> & Hdom & _)
    end.
    rewrite dom_union_L, Hdom, fmap_cons. cbn [concat].
    rewrite list_to_set_app_L. set_solver.
Qed.

Lemma tree_place_comp_dom orientation node_w node_h h_gap v_gap row_off positions
    cur ci :
  NoDup (od_keys (ci_layers ci)) →
  dom (tree_place_comp orientation node_w node_h h_gap v_gap row_off
         (positions, cur) ci).1
  = dom positions ∪ list_to_set (flat (ci_layers ci)).
Proof.
  intros Hnd. unfold tree_place_comp. cbn [fst]. rewrite tree_levels_dom. f_equal.
  apply set_eq. intros k.
  rewrite !elem_of_list_to_set, flat_elem, elem_of_concat_fmap by done.
  split; intros (l & Hl & Hk); exists l; split; try done.
  - by rewrite <- sorted_keys_perm.
  - by rewrite sorted_keys_perm.
Qed.

Lemma tree_row_dom orientation node_w node_h h_gap v_gap row_off row positions cur :
  Forall (λ ci, NoDup (od_keys (ci_layers ci))) row →
  dom (foldl (tree_place_comp orientation node_w node_h h_gap v_gap row_off)
         (positions, cur) row).1
  = dom positions ∪ list_to_set (comps_flat row).
Proof.
  revert positions cur. induction row as [|ci row IH]; intros positions cur Hnd.
  - cbn. set_solver.
  - apply Forall_cons in Hnd as [Hci Hnd]. cbn [foldl].
    pose proof (tree_place_comp_dom orientation node_w node_h h_gap v_gap row_off
                  positions cur ci Hci) as Hdom.
    destruct (tree_place_comp orientation node_w node_h h_gap v_gap row_off
                (positions, cur) ci) as [p c].
    cbn [fst] in Hdom. rewrite IH, Hdom by done. unfold comps_flat.
    rewrite fmap_cons. cbn [concat]. rewrite list_to_set_app_L. set_solver.
Qed.

Lemma tree_rows_total fuel orientation node_w node_h h_gap v_gap cols rest
    positions row_off :
  1 ≤ cols → Forall (λ ci, NoDup (od_keys (ci_layers ci))) rest →
  (length rest < fuel)%nat →
  ∃ positions',
    tree_place_rows fuel orientation node_w node_h h_gap v_gap cols rest
      positions row_off = Ok positions' ∧
    dom positions' = dom positions ∪ list_to_set (comps_flat rest).
Proof.
  intros Hcols. revert rest positions row_off.
  induction fuel as [|fuel IH]; intros rest positions row_off Hnd Hfuel; [lia|].
  destruct rest as [|ci0 rest0] eqn:Hrest; cbn [tree_place_rows].
  - exists positions. split; [done|]. cbn. set_solver.
  - assert (Hne : (0 < length rest)%nat) by (rewrite Hrest; cbn; lia).
    rewrite <- Hrest in *. clear Hrest.
    pose proof (tree_row_dom orientation node_w node_h h_gap v_gap row_off
                  (take (Z.to_nat cols) rest) positions 0%Q) as Hdom1.
    destruct (foldl _ (positions, 0%Q) (take (Z.to_nat cols) rest)) as [p c].
    cbn [fst] in Hdom1.
    match goal with
    | |- context [tree_place_rows fuel _ _ _ _ _ _ ?r ?q ?o] =>
        destruct (IH r q o) as (positions' & -> & Hdom2)
    end.
    { by apply Forall_drop. }
    { rewrite length_drop. assert (0 < Z.to_nat cols)%nat by lia. lia. }
    exists positions'. split; [done|].
    rewrite Hdom2, Hdom1 by by apply Forall_take.
    rewrite <- (take_drop (Z.to_nat cols) rest) at 3. unfold comps_flat.
    rewrite fmap_app, concat_app, list_to_set_app_L. set_solver.
Qed.

Lemma grid_cols_pos n : 1 ≤ grid_cols n.
Proof. unfold grid_cols. lia. Qed.
Lemma tree_ensure_parents_id rows : tree_ensure_parents rows = rows.
Proof.
  unfold tree_ensure_parents.
  assert (H : ∀ (c : DlgRow → bool) (l acc : list DlgRow),
            foldl (λ rows' r, if c r then rows' else rows') acc l = acc).
  { intros c l. induction l as [|r l IH]; intros acc; [done|].
    cbn [foldl]. rewrite IH. by destruct (c r). }
  apply (H (λ r, is_pc_reply r && bool_decide (parent_npc r = None))).
Qed.

(** Steps 1 to 3 and the component records of step 4. *)
Lemma tree_layout_pipeline rows orientation node_w node_h h_gap v_gap :
  rows ≠ [] →
  ∃ cis,
    calculate_tree_layout rows orientation node_w node_h h_gap v_gap
    = (positions ← tree_place_rows (S (length cis)) orientation node_w node_h
         h_gap v_gap (grid_cols (Z.of_nat (length cis))) cis ∅ 0%Q;
       Ok (rows, positions)) ∧
    Forall (λ ci, NoDup (od_keys (ci_layers ci))) cis ∧
    (∀ x, x ∈ comps_flat cis ↔ x ∈ index_set rows) ∧
    Forall (λ ci, ∃ i, ci = comp_info_of node_w node_h h_gap v_gap i (ci_layers ci))
      cis.
Proof.
  intros Hne.
  destruct (tree_components_spec rows)
    as (visited & comps & lbc & Ht & Hlen & Hkeys & _ & Hflat).
  destruct (order_components_spec (tree_barycenter rows) (nodes_map_of rows) lbc)
    as (lbc' & Ho & Hsame); [done| |].
  { intros i Hi. rewrite nodes_map_of_dom. by apply Hflat. }
  set (cis := imap (λ i layers,
                 comp_info_of node_w node_h h_gap v_gap (Z.of_nat i) layers) lbc').
  assert (Hlay : ci_layers <$> cis = lbc') by apply comp_infos_layers.
  exists cis. split_and!.
  - unfold calculate_tree_layout. destruct rows as [|r rows']; [done|].
    cbv zeta. rewrite tree_ensure_parents_id, Ht. cbn [mbind].
    unfold result_bind at 1. rewrite Ho. cbn [mbind]. unfold result_bind at 1.
    rewrite take_ge; [done|]. apply Forall2_length in Hsame. lia.
  - apply Forall_fmap with (f := ci_layers) (P := λ ly, NoDup (od_keys ly)).
    rewrite Hlay. clear -Hkeys Hsame.
    induction Hsame as [|ly ly' l l' H _ IH]; [constructor|].
    apply Forall_cons in Hkeys as [H1 H2]. constructor; [|by apply IH].
    by rewrite (same_layers_keys _ _ H).
  - intros x. rewrite comps_flat_layers, Hlay, (same_layers_all_flat _ _ Hsame).
    apply Hflat.
  - apply Forall_lookup. intros i ci Hi. unfold cis in Hi.
    rewrite list_lookup_imap in Hi. destruct (lbc' !! i) as [ly|]; [|done].
    cbn in Hi. injection Hi as <-. exists (Z.of_nat i).
    by rewrite comp_info_of_layers.
Qed.

(** The forest layout returns for every row list, whatever the sizes and the
    orientation; it leaves the rows as they are, and its map has exactly the
    indices of the rows as keys. *)
Lemma tree_layout_total (rows : list DlgRow) (orientation : string)
    (node_w node_h h_gap v_gap : Z) :
  ∃ positions,
    calculate_tree_layout rows orientation node_w node_h h_gap v_gap
    = Ok (rows, positions) ∧
    ∀ i, i ∈ dom positions ↔ i ∈ index <$> rows.
Proof.
  destruct (decide (rows = [])) as [->|Hne].
  - exists ∅. split; [done|]. intros i. rewrite dom_empty_L. cbn. set_solver.
  - destruct (tree_layout_pipeline rows orientation node_w node_h h_gap v_gap Hne)
      as (cis & -> & Hnd & Hflat & _).
    destruct (tree_rows_total (S (length cis)) orientation node_w node_h h_gap v_gap
                (grid_cols (Z.of_nat (length cis))) cis ∅ 0%Q)
      as (positions & -> & Hdom); [apply grid_cols_pos | done | lia |].
    exists positions. split; [done|]. intros i.
    rewrite Hdom, dom_empty_L, (left_id_L ∅ (∪)), elem_of_list_to_set, Hflat.
    apply index_set_iff.
Qed.

(** With sizes and gaps that are not negative, two different nodes of the
    forest layout are a whole cell apart along one of the axes. *)
Lemma tree_layout_apart (rows : list DlgRow) (orientation : string)
    (node_w node_h h_gap v_gap : Z) :
  0 ≤ node_w → 0 ≤ node_h → 0 ≤ h_gap → 0 ≤ v_gap →
  ∃ positions,
    calculate_tree_layout rows orientation node_w node_h h_gap v_gap
    = Ok (rows, positions) ∧
    ∀ i j a b, i ≠ j → positions !! i = Some a → positions !! j = Some b →
      if String.eqb orientation "vertical"
      then sep (inject_Z (node_w + h_gap)) (inject_Z (node_h + v_gap)) a b
      else sep (inject_Z (node_h + v_gap)) (inject_Z (node_w + h_gap)) a b.
Proof.
  intros Hw Hh Hhg Hvg.
  assert (Hs : (0 <= inject_Z (node_w + h_gap))%Q)
    by (change 0%Q with (inject_Z 0); rewrite <- Zle_Qle; lia).
  assert (Hp : (0 <= inject_Z (node_h + v_gap))%Q)
    by (change 0%Q with (inject_Z 0); rewrite <- Zle_Qle; lia).
  destruct (decide (rows = [])) as [->|Hne].
  - exists ∅. split; [done|]. intros i j a b _ Ha. by rewrite lookup_empty in Ha.
  - destruct (tree_layout_pipeline rows orientation node_w node_h h_gap v_gap Hne)
      as (cis & -> & Hnd & _ & Hcis).
    destruct (tree_rows_spec orientation node_w node_h h_gap v_gap
                (inject_Z (node_w + h_gap)) (inject_Z (node_h + v_gap))
                Hs Hp (Qle_refl _) (Qle_refl _) Hhg Hvg
                (S (length cis)) (grid_cols (Z.of_nat (length cis))) cis ∅ 0%Q)
      as (G & -> & Hsep & _); [apply grid_cols_pos | | lia |].
    { rewrite Forall_forall in Hnd, Hcis. apply Forall_forall. intros ci Hci.
      destruct (Hcis ci Hci) as (i & Hi). rewrite Hi.
      apply comp_info_of_ok with (es := inject_Z (node_w + h_gap))
                                 (ep := inject_Z (node_h + v_gap)); try done.
      - apply Qle_refl.
      - apply Qle_refl.
      - by apply Hnd. }
    exists (G ∪ ∅). split; [done|]. intros i j a b Hij Ha Hb.
    rewrite (right_id_L ∅ (∪)) in Ha, Hb.
    specialize (Hsep i j a b Hij Ha Hb). unfold sep, sp in *.
    destruct (String.eqb orientation "vertical"); cbn [negb fst snd] in *; tauto.
Qed.

(** ** Which nodes the layered layout gives a layer *)






Section layering_reach.
Context (rows : list DlgRow).
Local Abbreviation nm := (nodes_map_of rows).



End layering_reach.



(** ** The parent pass, exactly *)

(** The index of the last NPC line among the rows [before]. *)
Definition most_recent_npc (before : list DlgRow) : option Z :=
  last (index <$> filter (λ r, is_pc_reply r = false) before).

(** Row [i] of [rows] after the parent pass: a reply without parent gets
    the index of the last NPC line above it, if there is one; every other
    row is as it was. *)
Definition with_missing_parent (rows : list DlgRow) (i : nat) (r : DlgRow)
  : DlgRow :=
  if is_pc_reply r && bool_decide (parent_npc r = None)
  then set_parent_npc r (most_recent_npc (take i rows)) else r.

Lemma most_recent_npc_snoc before r :
  most_recent_npc (before ++ [r])
  = if is_pc_reply r then most_recent_npc before else Some (index r).
Proof.
  unfold most_recent_npc. rewrite filter_app, fmap_app.
  rewrite filter_cons, filter_nil. destruct (is_pc_reply r).
  - rewrite decide_False by done. by rewrite app_nil_r.
  - rewrite decide_True by done. cbn [fmap list_fmap]. by rewrite last_snoc.
Qed.

Lemma ensure_parents_loop_exact before rows :
  ensure_parents_loop (most_recent_npc before) rows
  = imap (λ i r, with_missing_parent (before ++ rows) (length before + i) r) rows.
Proof.
  revert before. induction rows as [|r rows IH]; intros before; [done|].
  cbn [ensure_parents_loop imap].
  assert (Htl : ∀ cur, cur = most_recent_npc (before ++ [r]) →
            ensure_parents_loop cur rows
            = imap ((λ i r0, with_missing_parent (before ++ r :: rows)
                               (length before + i) r0) ∘ S) rows).
  { intros cur ->. rewrite IH. apply imap_ext. intros i x _. cbn.
    rewrite <- app_assoc, length_app. cbn [app length]. f_equal. lia. }
  assert (Hhd : with_missing_parent (before ++ r :: rows) (length before + 0) r
                = if is_pc_reply r && bool_decide (parent_npc r = None)
                  then set_parent_npc r (most_recent_npc before) else r).
  { unfold with_missing_parent. rewrite Nat.add_0_r, take_app_length. done. }
  rewrite Hhd. destruct (is_pc_reply r) eqn:Hpc; cbn [negb andb].
  - f_equal.
    + destruct (parent_npc r); [by rewrite bool_decide_eq_false_2|].
      by rewrite bool_decide_eq_true_2.
    + apply Htl. by rewrite most_recent_npc_snoc, Hpc.
  - f_equal. apply Htl. by rewrite most_recent_npc_snoc, Hpc.
Qed.

Lemma ensure_parents_exact rows : _ensure_parents rows = imap (with_missing_parent rows) rows.
Proof. apply (ensure_parents_loop_exact [] rows). Qed.

Lemma ensure_parents_loop_idemp cur rows :
  ensure_parents_loop cur (ensure_parents_loop cur rows) = ensure_parents_loop cur rows.
Proof.
  revert cur. induction rows as [|r rows IH]; intros cur; [done|].
  cbn [ensure_parents_loop]. destruct (is_pc_reply r) eqn:Hpc; cbn [negb].
  - destruct (parent_npc r) eqn:Hp; cbn [ensure_parents_loop].
    + by rewrite Hpc, Hp, IH.
    + replace (is_pc_reply (set_parent_npc r cur)) with true by (by destruct r).
      cbn [negb]. rewrite IH. f_equal.
      replace (parent_npc (set_parent_npc r cur)) with cur by (by destruct r).
      destruct cur; [done|]. by destruct r.
  - cbn [ensure_parents_loop]. by rewrite Hpc, IH.
Qed.

Lemma build_components_total rows :
  ∃ cs, _build_components rows = Ok (_ensure_parents rows, cs).
Proof.
  unfold _build_components.
  destruct (components_loop_spec (_ensure_parents rows)) as ([visited cs] & Hloop & _).
  rewrite Hloop. by exists cs.
Qed.

(** The layered layout returns for every row list. *)
Lemma calculate_layout_total rows node_w node_h h_gap v_gap :
  ∃ positions,
    calculate_layout rows node_w node_h h_gap v_gap
    = Ok (_ensure_parents rows, positions).
Proof.
  unfold calculate_layout. destruct rows as [|r0 rows0]; [by exists ∅|].
  set (rows := r0 :: rows0). set (rows1 := _ensure_parents rows).
  destruct (build_components_total rows1) as (cs & Hcs).
  assert (Hid : _ensure_parents rows1 = rows1) by apply ensure_parents_loop_idemp.
  rewrite Hid in Hcs. rewrite Hcs. cbn [mbind]. unfold result_bind at 1.
  destruct (layering_spec rows1) as (layers & ntl & Hl & Hnd & HU & Hagree).
  rewrite Hl. cbn [mbind]. unfold result_bind at 1.
  destruct (order_layers_spec (layered_barycenter rows1) (nodes_map_of rows1) layers)
    as (layers2 & Ho & _).
  { apply Hagree. }
  { intros i Hi. rewrite nodes_map_of_dom. apply HU.
    apply flat_elem in Hi as (l & _ & Hi); [|apply Hagree].
    apply (layers_agree_elem layers ntl i l Hnd Hagree) in Hi.
    apply od_get_is_Some. by exists l. }
  rewrite Ho. cbn [mbind]. unfold result_bind at 1.
  destruct (foldl _ _ cs) as [positions off]. by exists positions.
Qed.

(** C9, amended. Of the three readers, [_build_components] and
    [calculate_layout] return for every row list and leave the rows as
    [_ensure_parents] leaves them: a reply without [parent_npc] gets the
    index of the last NPC line above it (none, if there is no NPC line
    above) and nothing else is changed: every other field, every NPC line
    and every parent already present is as before.  [calculate_tree_layout]
    returns for every row list and changes no row. *)
Theorem readers_change_only_missing_parents (rows : list DlgRow) :
  _ensure_parents rows = imap (with_missing_parent rows) rows ∧
  (∃ cs, _build_components rows = Ok (_ensure_parents rows, cs)) ∧
  (∀ node_w node_h h_gap v_gap, ∃ positions,
     calculate_layout rows node_w node_h h_gap v_gap
     = Ok (_ensure_parents rows, positions)) ∧
  (∀ orientation node_w node_h h_gap v_gap, ∃ positions,
     calculate_tree_layout rows orientation node_w node_h h_gap v_gap
     = Ok (rows, positions)).
Proof.
  split_and!.
  - apply ensure_parents_exact.
  - apply build_components_total.
  - intros. apply calculate_layout_total.
  - intros orientation node_w node_h h_gap v_gap.
    destruct (tree_layout_total rows orientation node_w node_h h_gap v_gap)
      as (positions & H & _).
    by exists positions.
Qed.

(** ** Spacing heuristic *)

Lemma auto_gaps_value n :
  auto_gaps n =
    if bool_decide (n ≤ 300) then (60, 110)
    else if bool_decide (n ≤ 800) then (48, 88)
    else if bool_decide (n ≤ 1200) then (39, 71)
    else (33, 60).
Proof. unfold auto_gaps. repeat case_bool_decide; reflexivity. Qed.

(** The gaps chosen by [auto_gaps] never grow with the number of nodes and
    stay between 20 and 60 (horizontal) and between 60 and 110
    (vertical). *)
Theorem auto_gaps_shrink (n m : Z) :
  n ≤ m →
  20 ≤ (auto_gaps m).1 ≤ (auto_gaps n).1 ∧ (auto_gaps n).1 ≤ 60 ∧
  60 ≤ (auto_gaps m).2 ≤ (auto_gaps n).2 ∧ (auto_gaps n).2 ≤ 110.
Proof.
  intros Hnm. rewrite !auto_gaps_value.
  repeat case_bool_decide; cbn [fst snd]; lia.
Qed.

Lemma auto_gaps_shrink_witness :
  20 ≤ (auto_gaps 1000).1 ≤ (auto_gaps 500).1 ∧ (auto_gaps 500).1 ≤ 60 ∧
  60 ≤ (auto_gaps 1000).2 ≤ (auto_gaps 500).2 ∧ (auto_gaps 500).2 ≤ 110.
Proof. apply (auto_gaps_shrink 500 1000). lia. Defined.

(** ** Parent links *)

Lemma set_parent_npc_twice r a b :
  set_parent_npc (set_parent_npc r a) b = set_parent_npc r b.
Proof. by destruct r. Qed.

Lemma set_parent_npc_same r : set_parent_npc r (parent_npc r) = r.
Proof. by destruct r. Qed.

Lemma ensure_parent_links_loop_idemp c rows :
  ensure_parent_links_loop c (ensure_parent_links_loop c rows)
  = ensure_parent_links_loop c rows.
Proof.
  revert c. induction rows as [|r rows IH]; intros c; [done|].
  cbn [ensure_parent_links_loop].
  destruct (is_pc_reply r) eqn:E; cbn [ensure_parent_links_loop].
  - replace (is_pc_reply (set_parent_npc r c)) with true by (by destruct r).
    by rewrite set_parent_npc_twice, IH.
  - replace (is_pc_reply (set_parent_npc r None)) with false by (by destruct r).
    replace (index (set_parent_npc r None)) with (index r) by (by destruct r).
    by rewrite set_parent_npc_twice, IH.
Qed.

Lemma ensure_parents_after_links c rows :
  ensure_parents_loop c (ensure_parent_links_loop c rows)
  = ensure_parent_links_loop c rows.
Proof.
  revert c. induction rows as [|r rows IH]; intros c; [done|].
  cbn [ensure_parent_links_loop].
  destruct (is_pc_reply r) eqn:E; cbn [ensure_parents_loop].
  - replace (is_pc_reply (set_parent_npc r c)) with true by (by destruct r).
    cbn [negb]. rewrite IH. f_equal.
    replace (parent_npc (set_parent_npc r c)) with c by (by destruct r).
    destruct c; [done|]. by rewrite set_parent_npc_twice.
  - replace (is_pc_reply (set_parent_npc r None)) with false by (by destruct r).
    replace (index (set_parent_npc r None)) with (index r) by (by destruct r).
    cbn [negb]. by rewrite IH.
Qed.

(** [_ensure_parent_links] is idempotent, and the rows it leaves are a
    fixed point of the parent pass of the layouts: [_ensure_parents] of
    layout.py changes none of them. *)
Theorem parent_links_stable (mw : MainWindow) :
  _ensure_parent_links (_ensure_parent_links mw) = _ensure_parent_links mw ∧
  _ensure_parents (dlg_data (_ensure_parent_links mw))
  = dlg_data (_ensure_parent_links mw).
Proof.
  unfold _ensure_parent_links, _ensure_parents. cbn [dlg_data nodes show_empty_nodes].
  by rewrite ensure_parent_links_loop_idemp, ensure_parents_after_links.
Qed.

Lemma ensure_parents_no_parent c rows :
  Forall (λ r, parent_npc r = None) rows →
  ensure_parents_loop c rows = ensure_parent_links_loop c rows.
Proof.
  intros H. revert c. induction H as [|r rows Hr _ IH]; intros c; [done|].
  cbn [ensure_parents_loop ensure_parent_links_loop].
  destruct (is_pc_reply r); cbn [negb]; rewrite IH.
  - by rewrite Hr.
  - f_equal. rewrite <- Hr. symmetry. apply set_parent_npc_same.
Qed.

Lemma parse_dlg_line_no_parent line r :
  parse_dlg_line line = Some r → parent_npc r = None.
Proof.
  unfold parse_dlg_line. intros H.
  repeat (case_match; try discriminate); by injection H as <-.
Qed.

Lemma parse_dlg_text_no_parent text :
  Forall (λ r, parent_npc r = None) (parse_dlg_text text).
Proof.
  unfold parse_dlg_text. apply Forall_forall. intros r Hr.
  apply list_elem_of_omap in Hr as (line & _ & Hr).
  by eapply parse_dlg_line_no_parent.
Qed.

Lemma read_with_no_parent encodings content rows enc :
  read_with encodings content = Ok (Some (rows, enc)) →
  Forall (λ r, parent_npc r = None) rows.
Proof.
  induction encodings as [|e encodings IH]; [discriminate|].
  cbn [read_with]. destruct (decode e content) as [text|[]|]; try discriminate; auto.
  intros [= <- _]. apply parse_dlg_text_no_parent.
Qed.

(** On the rows read from a .dlg file, which carry no parent, the parent
    pass of the window and the parent pass of the layouts compute the same
    rows. *)
Theorem parent_passes_agree_on_loaded_rows (content : list ascii)
    (rows : list DlgRow) (enc : encoding)
    (items : list (Z * point)) (show_empty : bool) :
  read_dlg content = Ok (Some (rows, enc)) →
  dlg_data (_ensure_parent_links (mkMainWindow rows items show_empty))
  = _ensure_parents rows.
Proof.
  intros Hread. unfold _ensure_parent_links, _ensure_parents. cbn [dlg_data].
  symmetry. eapply ensure_parents_no_parent, read_with_no_parent, Hread.
Qed.

Lemma parent_passes_agree_on_loaded_rows_witness :
  dlg_data (_ensure_parent_links
              (mkMainWindow [npc_line 1; reply 2 1 None] [] false))
  = _ensure_parents [npc_line 1; reply 2 1 None].
Proof.
  apply (parent_passes_agree_on_loaded_rows
           (write_dlg [npc_line 1; reply 2 1 (Some 1)] Utf8).2 _ Utf8Sig).
  vm_compute. reflexivity.
Defined.

(** ** New nodes *)

Lemma new_index_spec mw :
  ∃ idx, _new_index mw = Ok idx ∧ ∀ r, r ∈ dlg_data mw → index r < idx.
Proof.
  unfold _new_index.
  set (i := match index <$> dlg_data mw with
            | [] => 1
            | x :: xs => max_from x xs + 1
            end).
  assert (Hi : ∀ r, r ∈ dlg_data mw → index r < i).
  { intros r Hr. unfold i.
    assert (Hin : index r ∈ index <$> dlg_data mw)
      by (apply list_elem_of_fmap; eauto).
    destruct (index <$> dlg_data mw) as [|x xs]; [by apply elem_of_nil in Hin|].
    destruct (max_from_ge x xs) as [H1 H2].
    apply elem_of_cons in Hin as [->|Hin]; [lia|]. specialize (H2 _ Hin). lia. }
  exists i. split; [|done]. cbn [new_index_loop].
  rewrite bool_decide_eq_false_2; [done|].
  rewrite elem_of_list_to_set. intros (r & Hri & Hr)%list_elem_of_fmap.
  specialize (Hi r Hr). lia.
Qed.

(** [add_npc_at] never runs into the duplicate check of
    [_add_rows_and_items]: the index it takes from [_new_index] is above
    every index of the collection, and the new NPC line is appended as the
    last row.  When the scene has no item under that index yet, the item of
    the new line is added last, and it stands at the given position when it
    is placeable there. *)
Theorem add_npc_at_appends_fresh_row (mw : MainWindow) (scene_pos : point) :
  ∃ idx mw',
    add_npc_at mw scene_pos = Ok (Done mw') ∧
    (∀ r, r ∈ dlg_data mw → index r < idx) ∧
    dlg_data mw' = dlg_data mw ++ [new_npc_row idx] ∧
    show_empty_nodes mw' = show_empty_nodes mw ∧
    (idx ∉ od_keys (nodes mw) →
     ∃ p, nodes mw' = nodes mw ++ [(idx, p)] ∧
          (placeable (nodes mw) idx scene_pos → p = scene_pos)).
Proof.
  destruct (new_index_spec mw) as (idx & Hidx & Hmax).
  unfold add_npc_at. rewrite Hidx. cbn [mbind result_bind redo].
  unfold _add_rows_and_items. cbn [add_rows_loop].
  rewrite existsb_index, bool_decide_eq_false_2.
  2:{ intros (r & Hri & Hr)%list_elem_of_fmap. specialize (Hmax r Hr).
      cbn in Hri. lia. }
  cbn [foldl index new_npc_row].
  set (mw0 := mkMainWindow (dlg_data mw ++ [new_npc_row idx]) (nodes mw)
                (show_empty_nodes mw)).
  rewrite bool_decide_eq_true_2.
  2:{ rewrite elem_of_list_to_set. apply list_elem_of_fmap.
      exists (new_npc_row idx). split; [done|]. apply visible_row_iff.
      split; [unfold mw0; cbn; set_solver | right; reflexivity]. }
  rewrite lookup_singleton_eq. cbn [default]. change (id scene_pos) with scene_pos.
  eexists idx, _. split; [done|]. split; [done|].
  change (index (new_npc_row idx)) with idx.
  destruct (decide (idx ∈ od_keys (nodes mw))) as [Hin|Hfresh].
  - unfold _add_one_node_item. change (index (new_npc_row idx)) with idx.
    assert (od_mem (nodes mw0) idx = true) as ->.
    { destruct (od_mem (nodes mw0) idx) eqn:E; [done|].
      apply od_mem_false in E. done. }
    done.
  - destruct (add_one_node_item_new mw0 (new_npc_row idx) scene_pos Hfresh)
      as (p & -> & Hp).
    split; [done|]. split; [done|]. intros _. by exists p.
Qed.

Lemma add_npc_at_appends_fresh_row_witness :
  ∃ mw', add_npc_at undo_sample (600, 0)%Q = Ok (Done mw') ∧
         dlg_data mw' = dlg_data undo_sample ++ [new_npc_row 4] ∧
         nodes mw' = nodes undo_sample ++ [(4, (600, 0)%Q)].
Proof.
  destruct (add_npc_at_appends_fresh_row undo_sample (600, 0)%Q)
    as (idx & mw' & Hadd & _ & Hrows & _ & Hitem).
  exists mw'. split; [exact Hadd|].
  assert (Hidx : idx = 4).
  { vm_compute in Hadd. injection Hadd as <-. vm_compute in Hrows.
    by injection Hrows. }
  subst idx. split; [exact Hrows|].
  destruct Hitem as (p & Hn & Hp); [by apply (bool_decide_unpack _)|].
  rewrite Hn, Hp; [done|].
  split; [right; vm_compute; reflexivity|].
  intros k q Hin Hne. unfold undo_sample in Hin. cbn [nodes] in Hin.
  repeat (apply elem_of_cons in Hin as [Heq | Hin];
          [injection Heq as -> ->; first [congruence | vm_compute; reflexivity]|]).
  by apply elem_of_nil in Hin.
Defined.

(** ** Renumbering, continued *)

Lemma shifted_inj_nonneg start_id delta i j :
  0 ≤ delta → shifted start_id delta i = shifted start_id delta j → i = j.
Proof. unfold shifted. repeat case_bool_decide; lia. Qed.

Lemma shifted_back start_id delta i :
  0 ≤ delta → shifted (start_id + delta) (- delta) (shifted start_id delta i) = i.
Proof. unfold shifted. repeat case_bool_decide; lia. Qed.

Lemma rekey_nodes_from (f : Z → Z) (items acc : list (Z * point)) :
  NoDup (od_keys acc ++ (f <$> od_keys items)) →
  foldl (λ (new_nodes : list (Z * point)) (e : Z * point),
      od_set new_nodes (f e.1) e.2) acc items
  = acc ++ ((λ e, (f e.1, e.2)) <$> items).
Proof.
  revert acc. induction items as [|[k v] items IH]; intros acc Hacc.
  - by rewrite app_nil_r.
  - change (od_keys ((k, v) :: items)) with (k :: od_keys items) in Hacc.
    rewrite fmap_cons in Hacc. cbn [foldl fst snd]. rewrite od_set_fresh.
    2:{ apply NoDup_app in Hacc as (_ & Hd & _). intros Hk.
        apply (Hd _ Hk). left. }
    rewrite IH.
    + rewrite fmap_cons. cbn [fst snd]. by rewrite <- app_assoc.
    + assert (od_keys (acc ++ [(f k, v)]) = od_keys acc ++ [f k]) as ->
        by (unfold od_keys; by rewrite fmap_app).
      by rewrite <- app_assoc.
Qed.

Lemma rekey_nodes (f : Z → Z) (items : list (Z * point)) :
  NoDup (f <$> od_keys items) →
  foldl (λ (new_nodes : list (Z * point)) (e : Z * point),
      od_set new_nodes (f e.1) e.2) [] items
  = (λ e, (f e.1, e.2)) <$> items.
Proof. intros Hnd. by apply (rekey_nodes_from f items []). Qed.

(** After [_shift_indices_from(start_id, delta)] with a positive [delta]
    the indices from [start_id] up to [start_id + delta - 1] are free: no
    row has one of them, and no [next] or [parent_npc] names one.  Rows with
    different indices keep different indices. *)
Theorem shift_makes_room (mw : MainWindow) (start_id delta : Z) :
  0 < delta →
  let mw' := _shift_indices_from mw start_id delta in
  (∀ r, r ∈ dlg_data mw' →
     ¬ (start_id ≤ index r < start_id + delta) ∧
     (∀ t, next r = Some t → ¬ (start_id ≤ t < start_id + delta)) ∧
     (∀ t, parent_npc r = Some t → ¬ (start_id ≤ t < start_id + delta))) ∧
  (NoDup (index <$> dlg_data mw) → NoDup (index <$> dlg_data mw')).
Proof.
  intros Hd. cbn. split.
  - intros r' (r & -> & Hr)%list_elem_of_fmap.
    rewrite shift_row_index, shift_row_next, shift_row_parent.
    assert (Hs : ∀ i, ¬ (start_id ≤ shifted start_id delta i < start_id + delta))
      by (intros i; unfold shifted; case_bool_decide; lia).
    split_and!; [apply Hs| |].
    + intros t Ht. destruct (next r); simplify_eq/=. apply Hs.
    + intros t Ht. destruct (parent_npc r); simplify_eq/=. apply Hs.
  - intros Hnd.
    assert (index <$> (shift_row start_id delta <$> dlg_data mw)
            = shifted start_id delta <$> (index <$> dlg_data mw)) as ->.
    { rewrite <- !list_fmap_compose. apply list_fmap_ext. intros i r _. cbn.
      apply shift_row_index. }
    apply NoDup_fmap_2; [|done].
    intros i j. apply shifted_inj_nonneg. lia.
Qed.

Lemma shift_makes_room_witness :
  let mw' := _shift_indices_from shift_sample 11 1 in
  (∀ r, r ∈ dlg_data mw' →
     ¬ (11 ≤ index r < 11 + 1) ∧
     (∀ t, next r = Some t → ¬ (11 ≤ t < 11 + 1)) ∧
     (∀ t, parent_npc r = Some t → ¬ (11 ≤ t < 11 + 1))) ∧
  (NoDup (index <$> dlg_data shift_sample) → NoDup (index <$> dlg_data mw')).
Proof. apply (shift_makes_room shift_sample 11 1). lia. Defined.

Lemma shift_row_eq start_id delta r :
  shift_row start_id delta r
  = set_parent_npc
      (set_next (set_index r (shifted start_id delta (index r)))
         (shifted start_id delta <$> next r))
      (shifted start_id delta <$> parent_npc r).
Proof.
  unfold shift_row, shifted, set_index, set_next, set_parent_npc.
  destruct r as [i ? ? [n|] ? ? ? ? ? ? ? ? ? [p|]]; simpl;
    repeat (case_bool_decide; simpl); reflexivity.
Qed.

Lemma shift_row_back start_id delta r :
  0 ≤ delta →
  shift_row (start_id + delta) (- delta) (shift_row start_id delta r) = r.
Proof.
  intros Hd. rewrite (shift_row_eq (start_id + delta)), shift_row_index,
    shift_row_next, shift_row_parent, shift_row_eq.
  rewrite shifted_back by done.
  assert (Ho : ∀ o : option Z,
            shifted (start_id + delta) (- delta) <$> (shifted start_id delta <$> o) = o).
  { intros [t|]; [|done]. cbn [fmap option_fmap option_map]. f_equal.
    by apply shifted_back. }
  rewrite !Ho. by destruct r.
Qed.

(** Shifting by [delta >= 0] from [start_id] is undone by shifting by
    [-delta] from [start_id + delta]: the rows come back as they were, and
    so do the keys and positions of the scene items. *)
Theorem shift_indices_undone (mw : MainWindow) (start_id delta : Z) :
  0 ≤ delta → NoDup (od_keys (nodes mw)) →
  _shift_indices_from (_shift_indices_from mw start_id delta)
    (start_id + delta) (- delta) = mw.
Proof.
  intros Hd Hnd. unfold _shift_indices_from. cbn [dlg_data nodes show_empty_nodes].
  destruct mw as [data items show]. cbn [dlg_data nodes show_empty_nodes] in *.
  f_equal.
  - rewrite <- list_fmap_compose. rewrite <- (list_fmap_id data) at 2.
    apply list_fmap_ext. intros _ r _. cbn. by apply shift_row_back.
  - fold (shifted start_id delta).
    rewrite (rekey_nodes (shifted start_id delta)).
    2:{ apply NoDup_fmap_2; [|done]. intros i j. by apply shifted_inj_nonneg. }
    rewrite (rekey_nodes (shifted (start_id + delta) (- delta))).
    2:{ assert (shifted (start_id + delta) (- delta) <$>
                  od_keys ((λ e : Z * point, (shifted start_id delta e.1, e.2)) <$> items)
                = od_keys items) as ->; [|done].
        unfold od_keys. rewrite <- !list_fmap_compose. apply list_fmap_ext.
        intros i [k v] _. cbn. by apply shifted_back. }
    rewrite <- list_fmap_compose. rewrite <- (list_fmap_id items) at 2.
    apply list_fmap_ext. intros _ [k v] _. cbn. by rewrite shifted_back.
Qed.

Lemma shift_indices_undone_witness :
  _shift_indices_from (_shift_indices_from shift_sample 11 1) (11 + 1) (- 1)
  = shift_sample.
Proof.
  apply (shift_indices_undone shift_sample 11 1); [lia|].
  vm_compute. repeat constructor; set_solver.
Defined.

(** ** Grid of components *)

(** [grid_cols] is the integer nearest to the square root of the number of
    components: for [n >= 1] it is at least 1 and within one half of
    [sqrt n]. *)
Theorem grid_cols_nearest_root (n : Z) :
  1 ≤ n →
  1 ≤ grid_cols n ∧
  (2 * grid_cols n - 1) * (2 * grid_cols n - 1) < 4 * n
    < (2 * grid_cols n + 1) * (2 * grid_cols n + 1).
Proof.
  intros Hn. unfold grid_cols.
  pose proof (Z.sqrt_spec n ltac:(lia)) as [H1 H2].
  assert (1 ≤ Z.sqrt n) by (apply Z.sqrt_le_square; lia).
  case_bool_decide; nia.
Qed.

Lemma grid_cols_nearest_root_witness :
  1 ≤ grid_cols 7 ∧
  (2 * grid_cols 7 - 1) * (2 * grid_cols 7 - 1) < 4 * 7
    < (2 * grid_cols 7 + 1) * (2 * grid_cols 7 + 1).
Proof. apply (grid_cols_nearest_root 7). lia. Defined.

(** ** Collisions and moves *)

Lemma Qlt_bool_false (a b : Q) : (b <= a)%Q → Qlt_bool a b = false.
Proof. intros H. unfold Qlt_bool. by rewrite (proj2 (Qle_bool_iff b a) H). Qed.

(** The shift that [nudge_away] computes moves the rectangle of the moved
    node clear of the rectangle it was checked against, whatever the two
    positions are. *)
Theorem nudge_shift_clears (p q : point) :
  let s := nudge_shift p q in
  rects_intersect ((p.1 + s.1)%Q, (p.2 + s.2)%Q) q = false.
Proof.
  destruct p as [px py], q as [qx qy]. unfold nudge_shift, rects_intersect.
  cbn [fst snd]. unfold NODE_WIDTH, NODE_HEIGHT.
  change (inject_Z 300) with 300%Q. change (inject_Z 90) with 90%Q.
  repeat match goal with |- context [if ?c then _ else _] => destruct c end;
    cbn [fst snd].
  - rewrite (Qlt_bool_false qx) by lra. by rewrite !andb_false_r.
  - rewrite (Qlt_bool_false (px + _)%Q) by lra. done.
  - rewrite (Qlt_bool_false qy) by lra. by rewrite !andb_false_r.
  - rewrite (Qlt_bool_false (py + _)%Q) by lra. by rewrite !andb_false_r.
Qed.

Lemma coord_eq_refl (a : Q) : coord_eq a a = true.
Proof.
  assert (H0 : (a - a == 0)%Q) by ring.
  unfold coord_eq, qFuzzyIsNull, qFuzzyCompare.
  destruct (Qeq_bool a 0 || Qeq_bool a 0); apply Qle_bool_iff; rewrite H0.
  - done.
  - apply Q.min_glb; apply Qabs_nonneg.
Qed.

Lemma point_eq_refl (p : point) : point_eq p p = true.
Proof. unfold point_eq. by rewrite !coord_eq_refl. Qed.

Lemma od_del_set {V} (d : list (Z * V)) k v : od_del (od_set d k v) k = od_del d k.
Proof.
  unfold od_del. induction d as [|[k' v'] d IH]; cbn [od_set].
  - by rewrite filter_cons_False, filter_nil by (cbn; tauto).
  - case_bool_decide as E.
    + subst k'. by rewrite !filter_cons_False by (cbn; tauto).
    + rewrite !filter_cons_True by done. by rewrite IH.
Qed.

Lemma od_set_set {V} (d : list (Z * V)) k a b :
  od_set (od_set d k a) k b = od_set d k b.
Proof.
  induction d as [|[k' v'] d IH]; cbn [od_set].
  - by rewrite bool_decide_eq_true_2.
  - case_bool_decide as E; cbn [od_set].
    + by rewrite bool_decide_eq_true_2.
    + rewrite bool_decide_eq_false_2 by done. by rewrite IH.
Qed.

Lemma od_set_same {V} (d : list (Z * V)) k v : od_get d k = Some v → od_set d k v = d.
Proof.
  induction d as [|[k' v'] d IH]; cbn [od_get od_set]; [done|].
  case_bool_decide as E.
  - intros [= ->]. by subst.
  - intros H. by rewrite IH.
Qed.

Lemma item_set_pos_back (nds : list (Z * point)) idx old_pos new_pos :
  od_get nds idx = Some old_pos → free_at nds idx old_pos →
  item_set_pos (item_set_pos nds idx new_pos) idx old_pos = nds ∨
  (item_set_pos (item_set_pos nds idx new_pos) idx old_pos
   = item_set_pos nds idx new_pos ∧
   ∃ p, od_get (item_set_pos nds idx new_pos) idx = Some p ∧
        point_eq p old_pos = true).
Proof.
  intros Hold Hfree.
  assert (H1 : item_set_pos nds idx new_pos
               = if point_eq old_pos new_pos then nds
                 else od_set nds idx
                        (nudge_loop 10 (reverse (od_del nds idx)).*2 new_pos)).
  { unfold item_set_pos. by rewrite Hold. }
  rewrite H1. destruct (point_eq old_pos new_pos).
  - left. unfold item_set_pos. by rewrite Hold, point_eq_refl.
  - set (p1 := nudge_loop _ _ _). unfold item_set_pos.
    rewrite od_get_set, bool_decide_eq_true_2 by done.
    destruct (point_eq p1 old_pos) eqn:E2.
    + right. split; [done|]. by exists p1.
    + left. rewrite od_del_set, od_set_set.
      rewrite nudge_loop_free; [by apply od_set_same|].
      intros q Hq. apply list_elem_of_fmap in Hq as ([k q'] & -> & Hq).
      apply elem_of_reverse in Hq. rewrite reverse_involutive in Hq.
      apply list_elem_of_filter in Hq as [Hk Hq]. by apply (Hfree k q').
Qed.

(** [MoveNodeCommand]: a node that stands clear of the others at [old_pos]
    is moved to [new_pos] by [redo], where [nudge_away] may push it on, and
    [undo] leaves the window as it was before, or, when the place the node
    reached is within Qt's tolerance of [old_pos], as [redo] left it. *)
Theorem move_undo_restores (mw : MainWindow) (idx : Z) (old_pos new_pos : point) :
  od_get (nodes mw) idx = Some old_pos →
  free_at (nodes mw) idx old_pos →
  let mw1 := _set_node_pos mw idx new_pos in
  let mw2 := _set_node_pos mw1 idx old_pos in
  mw2 = mw ∨
  (mw2 = mw1 ∧ ∃ p, od_get (nodes mw1) idx = Some p ∧ point_eq p old_pos = true).
Proof.
  intros Hold Hfree mw1 mw2. subst mw1 mw2. unfold _set_node_pos.
  destruct mw as [data nds show]. cbn [nodes dlg_data show_empty_nodes] in *.
  destruct (item_set_pos_back nds idx old_pos new_pos Hold Hfree)
    as [H|(H & p & Hp & Heq)]; rewrite H; [by left|right].
  split; [done|]. by exists p.
Qed.

Lemma move_undo_restores_witness :
  let mw1 := _set_node_pos undo_sample 2 (100, 50)%Q in
  let mw2 := _set_node_pos mw1 2 (-180, 200)%Q in
  mw2 = undo_sample ∨
  (mw2 = mw1 ∧
   ∃ p, od_get (nodes mw1) 2 = Some p ∧ point_eq p (-180, 200)%Q = true).
Proof.
  apply (move_undo_restores undo_sample 2 (-180, 200)%Q (100, 50)%Q).
  - vm_compute. reflexivity.
  - intros k q Hin Hne. unfold undo_sample in Hin. cbn [nodes] in Hin.
    repeat (apply elem_of_cons in Hin as [Heq | Hin];
            [injection Heq as -> ->; first [congruence | vm_compute; reflexivity]|]).
    by apply elem_of_nil in Hin.
Defined.

(** ** Relinking a reply *)

(** [RelinkCommand]: [redo] changes the [next] of the first row with the
    index of the reply and nothing else; [undo], which is given the [next]
    that row had, restores the window exactly.  When no row has that index
    nothing changes. *)
Theorem relink_undo_exact (mw : MainWindow) (pc_index : Z) (new_next : option Z) :
  match List.find (λ r, bool_decide (index r = pc_index)) (dlg_data mw) with
  | Some r =>
      _apply_relink (_apply_relink mw pc_index new_next) pc_index (next r) = mw ∧
      ∃ before after,
        dlg_data mw = before ++ r :: after ∧
        (∀ x, x ∈ before → index x ≠ pc_index) ∧
        dlg_data (_apply_relink mw pc_index new_next)
        = before ++ set_next r new_next :: after
  | None => _apply_relink mw pc_index new_next = mw
  end.
Proof.
  destruct mw as [data nds show]. unfold _apply_relink.
  cbn [dlg_data nodes show_empty_nodes].
  induction data as [|r data IH]; [done|].
  cbn [List.find relink_rows]. case_bool_decide as E.
  - cbn [relink_rows]. rewrite bool_decide_eq_true_2 by (by destruct r).
    split; [f_equal; f_equal; by destruct r|].
    exists [], data. split_and!; [done| |done]. intros x Hx. by apply elem_of_nil in Hx.
  - destruct (List.find _ data) as [r'|].
    + destruct IH as (Hback & before & after & Hd & Hb & Hr).
      cbn [relink_rows]. rewrite bool_decide_eq_false_2 by done.
      split; [f_equal; f_equal; by injection Hback|].
      exists (r :: before), after. split_and!.
      * cbn. by rewrite Hd.
      * intros x [->|Hx]%elem_of_cons; auto.
      * cbn. by rewrite Hr.
    + f_equal. f_equal. by injection IH.
Qed.
